(** * Video-to-Text: the per-frame codec of [convert.py]

    A shallow embedding of the functions of [convert.py] that build one
    frame's record: the Markov rank transform ([compute_markov]), the
    list-based Huffman construction ([compute_huffman]), the bit packer
    ([convert_huffman]), the two serializers ([encode_matrix],
    [encode_tree]) and the guard structure of the dithering loop
    ([process_frame]).

    Conventions.
    - A Python exception ([IndexError], [ValueError]) is [None]; every
      function that can raise returns an [option].
    - NumPy [uint16] cells are [Z] values with the wrap-around written out
      ([add16]); Python integers are [Z] or, where they index a list, [nat].
    - A Python [str] of ['0']/['1'] characters is a [list ascii].
    - A two-dimensional NumPy array is the list of its rows. *)

From Stdlib Require Import ZArith QArith Qpower Qround List Ascii Lia Permutation Sorted.
From stdpp Require Import base option list.

Open Scope Z_scope.

(** ** Python strings and NumPy cells *)

Abbreviation pystr := (list ascii).

Definition UINT16 : Z := 65536.

(** [a + b] on two [np.uint16] scalars. *)
Definition add16 (a b : Z) : Z := (a + b) mod UINT16.

(** A [for] loop over the items of [l], threading the state [s]; an
    exception in the body ends it. *)
Fixpoint for_loop {S A : Type} (body : S → A → option S) (s : S) (l : list A)
  : option S :=
  match l with
  | [] => Some s
  | a :: l' => s' ← body s a; for_loop body s' l'
  end.

(** An integer index [i] into a sequence of length [n], for a Python list
    and for a NumPy axis alike: [-n <= i < 0] counts from the end, anything
    outside [-n <= i < n] raises [IndexError]. *)
Definition py_index (n : nat) (i : Z) : option nat :=
  if (0 <=? i) && (i <? Z.of_nat n) then Some (Z.to_nat i)
  else if (- Z.of_nat n <=? i) && (i <? 0) then Some (Z.to_nat (i + Z.of_nat n))
  else None.

(** [l.index(v)]: the first position of [v], [ValueError] if there is none. *)
Fixpoint py_list_index {A : Type} `{EqDecision A} (l : list A) (v : A)
  : option nat :=
  match l with
  | [] => None
  | x :: l' => if decide (x = v) then Some O else S <$> py_list_index l' v
  end.

(** [l.remove(v)]: drops the first occurrence of [v], [ValueError] if there
    is none. *)
Fixpoint py_list_remove {A : Type} `{EqDecision A} (l : list A) (v : A)
  : option (list A) :=
  match l with
  | [] => None
  | x :: l' =>
      if decide (x = v) then Some l' else (x ::.) <$> py_list_remove l' v
  end.

(** ** Two-dimensional arrays *)

Abbreviation grid A := (list (list A)).

(** [a.shape] of a rectangular array. *)
Definition shape {A : Type} (a : grid A) : nat * nat :=
  (length a, match a with [] => O | r :: _ => length r end).

(** Every row has the width that [shape] reports. *)
Definition rect {A : Type} (a : grid A) : Prop :=
  Forall (fun r => length r = (shape a).2) a.

(** [a[y, x]] for indices that are not negative. *)
Definition get2 {A : Type} (a : grid A) (y x : nat) : option A :=
  r ← a !! y; r !! x.

(** [a[y, x] = v] for indices that are not negative. *)
Definition set2 {A : Type} (a : grid A) (y x : nat) (v : A)
  : option (grid A) :=
  r ← a !! y; _ ← r !! x; Some (<[y := <[x := v]> r]> a).

(** [np.zeros((h, w))]. *)
Definition zeros2 (h w : nat) : grid Z := replicate h (replicate w 0).

(** The index pairs of [for y in range(h): for x in range(w)], in the
    order the loops visit them. *)
Definition raster (h w : nat) : list (nat * nat) :=
  y ← seq 0 h; (fun x => (y, x)) <$> seq 0 w.

Definition CHARSET : pystr :=
  [" "; ","; "("; "S"; "#"; "g"; "@"]%char.

Definition NUMCHARS : nat := length CHARSET.

(** ** compute_huffman *)

(** An element of [sizes]: [(count, member symbols, tree node id)]. *)
Abbreviation entry := (Z * list nat * nat)%type.

Definition e_cnt (e : entry) : Z := e.1.1.
Definition e_chars (e : entry) : list nat := e.1.2.
Definition e_tree (e : entry) : nat := e.2.

(** Python's [<] on lists of integers. *)
Fixpoint list_ltb (a b : list nat) : bool :=
  match a, b with
  | [], [] => false
  | [], _ :: _ => true
  | _ :: _, [] => false
  | x :: a', y :: b' =>
      if (x <? y)%nat then true
      else if (y <? x)%nat then false
      else list_ltb a' b'
  end.

(** Python's [<] on the tuples of [sizes]: the first component that
    differs decides. *)
Definition entry_ltb (a b : entry) : bool :=
  if e_cnt a <? e_cnt b then true
  else if e_cnt b <? e_cnt a then false
  else if list_ltb (e_chars a) (e_chars b) then true
  else if list_ltb (e_chars b) (e_chars a) then false
  else (e_tree a <? e_tree b)%nat.

(** [sorted(sizes, reverse=True)]: a stable sort into descending order,
    written as an insertion sort. An element is placed before the first
    element that is not greater than it, so equal elements keep their
    order. *)
Fixpoint insert_desc (x : entry) (l : list entry) : list entry :=
  match l with
  | [] => [x]
  | y :: l' => if entry_ltb x y then y :: insert_desc x l' else x :: l
  end.

Definition sorted_reverse (l : list entry) : list entry :=
  foldr insert_desc [] l.

(** The state of the construction: [codes], [sizes] and [tree]. *)
Record hstate : Type := HState {
  codes : list pystr;
  sizes : list entry;
  tree : list (nat * nat)
}.

(** The first loop: one empty code, one singleton entry and one leaf
    [(i, i)] per symbol, in ascending symbol order. *)
Definition seed (cnts : list Z) : hstate :=
  HState (map (fun _ => []) cnts)
         (imap (fun i c => (c, [i], i)) cnts)
         (imap (fun i _ => (i, i)) cnts).

(** [l.pop()]: the last element and the list without it. *)
Definition pop {A : Type} (l : list A) : option (A * list A) :=
  match rev l with
  | [] => None
  | x :: r => Some (x, rev r)
  end.

(** [codes[char] = bit + codes[char]]. *)
Definition prepend (bit : ascii) (cs : list pystr) (char : nat)
  : option (list pystr) :=
  c ← cs !! char; Some (<[char := bit :: c]> cs).

(** [for char in chars: codes[char] = bit + codes[char]]. *)
Definition prepend_all (bit : ascii) (chars : list nat) (cs : list pystr)
  : option (list pystr) :=
  for_loop (prepend bit) cs chars.

(** The scan for the insertion position: [new] goes before the first
    entry whose count is [<= total], or at the end. *)
Fixpoint reinsert (new : entry) (total : Z) (l : list entry) : list entry :=
  match l with
  | [] => [new]
  | e :: rest =>
      if e_cnt e <=? total then new :: l else e :: reinsert new total rest
  end.

(** One iteration of the [while] loop. *)
Definition merge_step (st : hstate) : option hstate :=
  '(right_, sizes1) ← pop (sizes st);
  '(left_, sizes2) ← pop sizes1;
  let '(lnum, lchars, ltree) := left_ in
  let '(rnum, rchars, rtree) := right_ in
  let tree' := tree st ++ [(ltree, rtree)] in
  codes1 ← prepend_all "0" lchars (codes st);
  codes2 ← prepend_all "1" rchars codes1;
  let new : entry := (add16 lnum rnum, lchars ++ rchars, (length tree' - 1)%nat) in
  Some (HState codes2 (reinsert new (add16 lnum rnum) sizes2) tree').

(** [while len(sizes) > 1]. The loop is run on fuel; [huffman_loop_fuel]
    below shows that [length sizes] iterations are always enough. *)
Fixpoint huffman_loop (fuel : nat) (st : hstate) : option hstate :=
  if (1 <? length (sizes st))%nat then
    match fuel with
    | O => None
    | S fuel' => st' ← merge_step st; huffman_loop fuel' st'
    end
  else Some st.

Definition huffman_start (cnts : list Z) : hstate :=
  let st := seed cnts in
  HState (codes st) (sorted_reverse (sizes st)) (tree st).

Definition compute_huffman (cnts : list Z)
  : option (list pystr * list (nat * nat)) :=
  st ← huffman_loop (length cnts) (huffman_start cnts);
  Some (codes st, tree st).

(** ** encode_tree *)

Definition encode_tree (t : list (nat * nat)) : list Z :=
  map (fun '(l, r) => Z.of_nat l * 16 + Z.of_nat r) (drop NUMCHARS t).


(** ** compute_markov *)

(** [a[i, j] += 1] on a [uint16] array, [i] and [j] being array cells
    themselves (so possibly negative). *)
Definition incr16_2 (a : grid Z) (i j : Z) : option (grid Z) :=
  i' ← py_index (length a) i;
  row ← a !! i';
  j' ← py_index (length row) j;
  v ← row !! j';
  Some (<[i' := <[j' := add16 v 1]> row]> a).

(** [a[i] += 1] on a [uint16] vector. *)
Definition incr16_1 (a : list Z) (i : Z) : option (list Z) :=
  i' ← py_index (length a) i;
  v ← a !! i';
  Some (<[i' := add16 v 1]> a).

(** [a[i, j]] with cell-valued indices. *)
Definition get2z (a : grid Z) (i j : Z) : option Z :=
  i' ← py_index (length a) i;
  row ← a !! i';
  j' ← py_index (length row) j;
  row !! j'.

(** The first scan: the transition counts. The state is [(mat, prevChar)]. *)
Definition count_step (frame : grid Z) (st : grid Z * Z) (yx : nat * nat)
  : option (grid Z * Z) :=
  let '(mat, prevChar) := st in
  char ← get2 frame yx.1 yx.2;
  mat' ← incr16_2 mat prevChar char;
  Some (mat', char).

(** [row.argsort()]. For a row of fewer than 17 cells NumPy's default sort
    is its insertion sort, which leaves equal cells in index order. *)
Fixpoint insert_asc (x : Z * nat) (l : list (Z * nat)) : list (Z * nat) :=
  match l with
  | [] => [x]
  | y :: l' => if y.1 <? x.1 then y :: insert_asc x l' else x :: l
  end.

Definition argsort (row : list Z) : list nat :=
  (foldr insert_asc [] (imap (fun i v => (v, i)) row)).*2.

(** [6 - np.arange(NUMCHARS)], stored into [uint16] cells. *)
Definition rank_values : list Z :=
  map (fun k => (6 - Z.of_nat k) mod UINT16) (seq 0 NUMCHARS).

(** [row[idx] = vals] with an index array: [row[idx[k]] = vals[k]] for
    each [k] in turn. *)
Definition scatter (row : list Z) (idx : list nat) (vals : list Z)
  : option (list Z) :=
  for_loop (fun r iv => _ ← r !! iv.1; Some (<[iv.1 := iv.2]> r))
           row (zip idx vals).

(** The loop that fills [ranks], one row of [mat] at a time. *)
Definition rank_rows (mat : grid Z) : option (grid Z) :=
  mapM (fun mrow => scatter (replicate NUMCHARS 0) (argsort mrow) rank_values)
       mat.

(** A value stored into an [int8] cell. *)
Definition int8_cast (v : Z) : Z := (v + 128) mod 256 - 128.

(** The second scan: the rank of each pixel and the histogram. The state
    is [(out, cnt, prevChar)]. *)
Definition rank_step (frame ranks : grid Z) (st : grid Z * list Z * Z)
    (yx : nat * nat) : option (grid Z * list Z * Z) :=
  let '(out, cnt, prevChar) := st in
  char ← get2 frame yx.1 yx.2;
  r ← get2z ranks prevChar char;
  out' ← set2 out yx.1 yx.2 (int8_cast r);
  o ← get2 out' yx.1 yx.2;
  cnt' ← incr16_1 cnt o;
  Some (out', cnt', char).

(** [compute_markov(frame)], for an [int8] frame as [process_frame]
    produces them, returns [(out, ranks, cnt)]. *)
Definition compute_markov (frame : grid Z)
  : option (grid Z * grid Z * list Z) :=
  let '(h, w) := shape frame in
  '(mat, _) ← for_loop (count_step frame) (zeros2 NUMCHARS NUMCHARS, 0)
                       (raster h w);
  ranks ← rank_rows mat;
  '(out, cnt, _) ← for_loop (rank_step frame ranks)
                     (zeros2 h w, replicate NUMCHARS 0, 0) (raster h w);
  Some (out, ranks, cnt).

(** ** convert_huffman *)

(** [range(0, n, step)]. *)
Definition range_step (n step : nat) : list nat :=
  (fun k => (k * step)%nat) <$> seq 0 ((n + step - 1) / step).

(** The inner loop over the eight characters of one octet. *)
Definition pack_byte (byte : pystr) : option Z :=
  for_loop (fun char bit =>
              b ← byte !! bit;
              Some (if Ascii.eqb b "1" then char * 2 + 1 else char * 2))
           0 (seq 0 8).

(** [codes[v]], the index [v] being a cell of the rank-symbol frame. *)
Definition codeword (cds : list pystr) (v : Z) : option pystr :=
  i ← py_index (length cds) v; cds !! i.

(** [convert_huffman(markov_frame, codes)]. The body reads the shape of
    the module-level variable [frame], which is the first argument here. *)
Definition convert_huffman (frame markov_frame : grid Z) (cds : list pystr)
  : option (list Z) :=
  let '(h, w) := shape frame in
  out ← for_loop (fun out yx =>
                    v ← get2 markov_frame yx.1 yx.2;
                    c ← codeword cds v;
                    Some (out ++ c))
                 [] (raster h w);
  let padding := ((8 - length out mod 8) mod 8)%nat in
  let out := out ++ replicate padding "0"%char in
  mapM (fun i => pack_byte (take 8 (drop i out))) (range_step (length out) 8).

(** ** encode_matrix *)

(** One iteration of the loop over ranks; the state is
    [(encoding, fact, idxs)]. *)
Definition lehmer_step (row : list Z) (st : Z * Z * list nat) (rank : nat)
  : option (Z * Z * list nat) :=
  let '(encoding, fact, idxs) := st in
  pos ← py_list_index row (Z.of_nat rank);
  d ← py_list_index idxs pos;
  idxs' ← py_list_remove idxs pos;
  Some (encoding + Z.of_nat d * fact, fact * Z.of_nat (length idxs), idxs').

(** The integer computed for one row. *)
Definition row_encoding (row : list Z) : option Z :=
  '(encoding, _, _) ← for_loop (lehmer_step row)
                        (0, 1, seq 0 (length CHARSET))
                        (seq 0 (length CHARSET));
  Some encoding.

Definition encode_matrix (ranks : grid Z) : option (list Z) :=
  for_loop (fun out row =>
              encoding ← row_encoding row;
              let low_byte := encoding mod 256 in
              let high_byte := (encoding - low_byte) / 256 in
              Some (out ++ [high_byte; low_byte]))
           [] ranks.

(** ** The body of the main loop *)

(** The three byte sequences written for one frame. The loop variable is
    the module-level [frame] that [convert_huffman] reads. *)
Definition frame_record (frame : grid Z)
  : option (list Z * list Z * list Z) :=
  '(markov_frame, ranks, cnts) ← compute_markov frame;
  '(cds, t) ← compute_huffman cnts;
  chars ← convert_huffman frame markov_frame cds;
  matrix_data ← encode_matrix ranks;
  Some (matrix_data, encode_tree t, chars).

(** ** process_frame *)

Definition WIDTH : nat := 80.

(** [int(WIDTH / (2 * ASPECT_RATIO))] with [ASPECT_RATIO = 16 / 9]. *)
Definition HEIGHT : nat :=
  Z.to_nat (Qfloor (inject_Z (Z.of_nat WIDTH) / (2 * (16 # 9)))%Q).

Section Disperser.
(** The arithmetic of [float64] is kept abstract: [flit q] is the float
    that the literal [q] denotes, [f_of_int] converts an integer cell and
    [f_int] is [int(...)]. *)
Context {F : Type}.
Variable flit : Q → F.
Variable f_of_int : Z → F.
Variables fadd fsub fmul fdiv : F → F → F.
Variable f_int : F → Z.

Definition LEVELS : list F :=
  map flit [0; 1060 # 1000; 2167 # 1000; 3036 # 1000; 3977 # 1000;
            4730 # 1000; 6]%Q.

(** [g[y, x] += d]. *)
Definition add_at (g : grid F) (y x : nat) (d : F) : option (grid F) :=
  v ← get2 g y x; set2 g y x (fadd v d).

(** The body of the two loops; the state is [(reduced, out)]. *)
Definition process_cell (st : grid F * grid Z) (yx : nat * nat)
  : option (grid F * grid Z) :=
  let '(reduced, out) := st in
  let '(y, x) := yx in
  v ← get2 reduced y x;
  let level := Z.min 6 (Z.max 0 (f_int v)) in
  lv ← LEVELS !! Z.to_nat level;
  let error := fsub v lv in
  let err16 := fdiv error (flit 16) in
  reduced ← (if (x + 1 <? WIDTH)%nat
             then add_at reduced y (x + 1) (fmul (flit 7) err16)
             else Some reduced);
  reduced ← (if (y + 1 <? HEIGHT)%nat then
               reduced ← add_at reduced (y + 1) x (fmul (flit 5) err16);
               reduced ← (if (x + 1 <? WIDTH)%nat
                          then add_at reduced (y + 1) (x + 1)
                                      (fmul (flit 1) err16)
                          else Some reduced);
               if 0 <? Z.of_nat x - 1
               then add_at reduced (y + 1) (x - 1) (fmul (flit 3) err16)
               else Some reduced
             else Some reduced);
  out ← set2 out y x level;
  Some (reduced, out).

Definition process_frame (scaled : grid Z) : option (grid Z) :=
  let reduced :=
    map (map (fun v => fdiv (fmul (f_of_int v) (flit 6)) (flit 255))) scaled in
  '(_, out) ← for_loop process_cell (reduced, zeros2 HEIGHT WIDTH)
                (raster HEIGHT WIDTH);
  Some out.
End Disperser.

(** * Vocabulary of the statements *)

(** The code word of symbol [s], empty when [s] has none. *)
Definition cw (cs : list pystr) (s : nat) : pystr := default [] (cs !! s).

(** The working list is in descending order of count. *)
Definition descending (l : list entry) : Prop :=
  StronglySorted (fun a b => e_cnt b <= e_cnt a) l.

(** [2^(-length w)], the share of the code space that a code word takes. *)
Definition weight (w : pystr) : Q := (2 ^ (- Z.of_nat (length w)))%Q.

(** The Kraft sum of the code words of the symbols [ss]. *)
Definition kraft (cs : list pystr) (ss : list nat) : Q :=
  foldr (fun s acc => (weight (cw cs s) + acc)%Q) 0%Q ss.

(** No code word of a symbol of [ss] is a prefix of the code word of
    another symbol of [ss]. *)
Definition prefix_free_on (cs : list pystr) (ss : list nat) : Prop :=
  ∀ s t, s ∈ ss → t ∈ ss → s ≠ t → ¬ cw cs s `prefix_of` cw cs t.

(** The symbols of one entry carry a complete prefix code. *)
Definition group_ok (cs : list pystr) (ss : list nat) : Prop :=
  (kraft cs ss == 1)%Q ∧ prefix_free_on cs ss.

(** The invariant of the [while] loop of [compute_huffman] on a histogram
    of [n] counts. *)
Record hinv (n : nat) (st : hstate) : Prop := HInv {
  inv_codes : length (codes st) = n;
  inv_part : mjoin (e_chars <$> sizes st) ≡ₚ seq 0 n;
  inv_len : (length (tree st) + length (sizes st) = 2 * n)%nat;
  inv_ids : Forall (fun e => (e_tree e < length (tree st))%nat) (sizes st);
  inv_tree : ∀ k l r, tree st !! k = Some (l, r) →
                      (n <= k)%nat → (l < k)%nat ∧ (r < k)%nat;
  inv_leaves : ∀ k, (k < n)%nat → tree st !! k = Some (k, k);
  inv_group : Forall (fun e => group_ok (codes st) (e_chars e)) (sizes st);
  inv_desc : descending (sizes st)
}.

(** The symbols whose count is not zero. *)
Definition nonzero_symbols (cnts : list Z) : list nat :=
  filter (fun s => default 0 (cnts !! s) ≠ 0) (seq 0 (length cnts)).

(** The states that the [while] loop of [compute_huffman cnts] goes
    through. *)
Inductive reachable (cnts : list Z) : hstate → Prop :=
| reach_start : reachable cnts (huffman_start cnts)
| reach_step st st' :
    reachable cnts st → (1 < length (sizes st))%nat →
    merge_step st = Some st' → reachable cnts st'.

(** An entry of the seeded list: its one member is its node id. *)
Definition seedlike (e : entry) : Prop := e_chars e = [e_tree e].

(** [a] is not below [b] in the order on (count, symbol). *)
Definition lex_ge (a b : entry) : Prop :=
  e_cnt b < e_cnt a ∨ (e_cnt b = e_cnt a ∧ (e_tree b <= e_tree a)%nat).

(** Every cell of a quantized frame is one of the seven levels. *)
Definition quantized (frame : grid Z) : Prop :=
  Forall (Forall (fun v => 0 <= v < 7)) frame.

(** [sum(cnt)]. *)
Definition zsum (l : list Z) : Z := foldr Z.add 0 l.

(** A grid of [h] rows of [w] cells. *)
Definition has_shape {A : Type} (h w : nat) (a : grid A) : Prop :=
  length a = h ∧ Forall (fun r => length r = w) a.

(** All the lists of [n] distinct items of [pool], by a choice of the
    first item and then of the rest. *)
Fixpoint arrangements (n : nat) (pool : list Z) : list (list Z) :=
  match n with
  | O => [[]]
  | S n' => a ← pool; (a ::.) <$> arrangements n' (filter (fun b => b ≠ a) pool)
  end.

(** The inverse reading of the mixed-radix integer of [row_encoding]: the
    digits come out lowest first, in radix 7, 6, ..., 1, and the [k]-th
    digit picks, from the symbols not yet picked, the one of rank [k]. *)
Fixpoint decode_symbols (fuel : nat) (e : Z) (pool : list nat) : list nat :=
  match fuel with
  | O => []
  | S fuel' =>
      let n := Z.of_nat (length pool) in
      match pool !! Z.to_nat (e mod n) with
      | Some s =>
          s :: decode_symbols fuel' (e / n) (delete (Z.to_nat (e mod n)) pool)
      | None => []
      end
  end.

(** The row that an integer denotes: the rank of symbol [s] is the place
    of [s] among the decoded symbols. *)
Definition decode_row (e : Z) : list Z :=
  let syms := decode_symbols 7 e (seq 0 7) in
  (fun s => Z.of_nat (default O (py_list_index syms s))) <$> seq 0 7.

(** The checks of one row that the round-trip theorem states. *)
Definition row_round_trip (row : list Z) : bool :=
  match row_encoding row with
  | Some e =>
      (0 <=? e) && (e <=? 5039) && bool_decide (decode_row e = row)
  | None => false
  end.

(** The value of an octet read most significant bit first: the character
    at place [j] weighs [2^(7-j)]. *)
Definition msb_first (byte : pystr) : Z :=
  zsum (imap (fun j b => if Ascii.eqb b "1" then 2 ^ (7 - Z.of_nat j) else 0)
             byte).

(** The child ids that a list of tree nodes names, left before right. *)
Definition children (t : list (nat * nat)) : list nat :=
  t ≫= fun lr => [lr.1; lr.2].

(** A character of a code word. *)
Definition is_bit (c : ascii) : Prop := c = "0"%char ∨ c = "1"%char.

(** Following [bits] down the tree [t] from [node]: ['0'] goes to the left
    child, ['1'] to the right one; the first [n] nodes are the leaves and
    have nowhere to go. *)
Fixpoint walk (n : nat) (t : list (nat * nat)) (node : nat) (bits : pystr)
  : option nat :=
  match bits with
  | [] => Some node
  | b :: bits' =>
      if (node <? n)%nat then None
      else
        lr ← t !! node;
        if Ascii.eqb b "0" then walk n t lr.1 bits'
        else if Ascii.eqb b "1" then walk n t lr.2 bits'
        else None
  end.

(** A second invariant of the [while] loop of [compute_huffman]: the
    characters and lengths of the code words, and the shape of the tree. *)
Record hinv2 (n : nat) (st : hstate) : Prop := HInv2 {
  inv_bits : ∀ s, Forall is_bit (cw (codes st) s);
  inv_depth : ∀ s, (n + length (cw (codes st) s) <= length (tree st))%nat;
  inv_parent : (e_tree <$> sizes st) ++ children (drop n (tree st))
                 ≡ₚ seq 0 (length (tree st));
  inv_path : ∀ e s, e ∈ sizes st → s ∈ e_chars e →
                    walk n (tree st) (e_tree e) (cw (codes st) s) = Some s
}.

(** The rank matrix that the bytes of [encode_matrix] denote: two bytes,
    the high one first, for the integer of each row. *)
Fixpoint decode_matrix (bytes : list Z) : grid Z :=
  match bytes with
  | hi :: lo :: rest => decode_row (hi * 256 + lo) :: decode_matrix rest
  | _ => []
  end.

(** The checks of one integer that the theorem on the range of
    [row_encoding] states: the decoded row has seven cells, holds each of
    0..6, and is encoded as the integer. *)
Definition integer_round_trip (e : Z) : bool :=
  let row := decode_row e in
  (length row =? 7)%nat &&
  forallb (fun k => existsb (Z.eqb k) row) [0; 1; 2; 3; 4; 5; 6] &&
  match row_encoding row with
  | Some e' => e' =? e
  | None => false
  end.

(** The cell read just before position [i] of the raster scan; 0 before
    the first one. *)
Definition prev_cell (cells : list Z) (i : nat) : Z :=
  match i with
  | O => 0
  | S j => default 0 (cells !! j)
  end.

(** The ranks that the second scan of [compute_markov] assigns to the
    cells, in raster order. *)
Definition rank_stream (ranks : grid Z) (cells : list Z) : list Z :=
  imap (fun i v => default 0 (get2z ranks (prev_cell cells i) v)) cells.

(** How often each of the values 0..6 occurs in [l]. *)
Definition histogram_of (l : list Z) : list Z :=
  (fun r => Z.of_nat (length (filter (fun v => v = r) l)))
    <$> [0; 1; 2; 3; 4; 5; 6].

(** The eight characters of a byte, most significant bit first. *)
Definition byte_bits (b : Z) : pystr :=
  (fun j => if Z.testbit b (7 - Z.of_nat j) then "1" else "0")%char
    <$> seq 0 8.

(** ** frame_to_str *)

(** [CHARSET[v]]. *)
Definition charset_at (v : Z) : option ascii :=
  i ← py_index (length CHARSET) v; CHARSET !! i.

Definition frame_to_str (frame : grid Z) : option pystr :=
  for_loop (fun line y =>
              line ← for_loop (fun line x =>
                                 v ← get2 frame y x;
                                 c ← charset_at v;
                                 Some (line ++ [c]))
                              line (seq 0 WIDTH);
              Some (line ++ ["010"%char]))
           [] (seq 0 HEIGHT).

(** The character of a level, and the lines of text of a frame. *)
Definition glyph (v : Z) : ascii := default " "%char (CHARSET !! Z.to_nat v).

Definition text_rows (frame : grid Z) : grid ascii :=
  (fun row => (glyph <$> row) ++ ["010"%char]) <$> frame.

(** ** The loop over the frames *)

(** [bytearray(l)] of a list of integers: [ValueError] unless every item
    is in [range(256)]. *)
Definition bytearray (l : list Z) : option (list Z) :=
  if forallb (fun b => (0 <=? b) && (b <? 256)) l then Some l else None.

(** The body of [for frame in frames]; the state is the content of the
    file [data] and the counter [size]. *)
Definition write_frame (st : list Z * Z) (frame : grid Z)
  : option (list Z * Z) :=
  let '(data, size) := st in
  '(matrix_data, tree_data, chars) ← frame_record frame;
  b ← bytearray matrix_data;
  let data := data ++ b in
  b ← bytearray tree_data;
  let data := data ++ b in
  b ← bytearray chars;
  let data := data ++ b in
  Some (data,
        size + (Z.of_nat (length matrix_data) + Z.of_nat (length tree_data)
                + Z.of_nat (length chars))).

Definition main_loop (frames : list (grid Z)) : option (list Z * Z) :=
  for_loop write_frame ([], 0) frames.

(** The bytes of the record of one frame, and of a list of frames. *)
Definition record_bytes (frame : grid Z) : list Z :=
  match frame_record frame with
  | Some (matrix_data, tree_data, chars) => matrix_data ++ tree_data ++ chars
  | None => []
  end.

Definition stream (frames : list (grid Z)) : list Z :=
  frames ≫= record_bytes.

(** * Properties *)

(** ** Loops and sequences *)

Lemma pop_snoc {A : Type} (l : list A) (x : A) : pop (l ++ [x]) = Some (x, l).
Proof. unfold pop. rewrite rev_unit, rev_involutive. reflexivity. Qed.


Lemma pop_two {A : Type} (l : list A) :
  (1 < length l)%nat → ∃ r a b, l = r ++ [a; b].
Proof.
  intros H. destruct l as [|x l] using rev_ind; [simpl in H; lia|].
  clear IHl. destruct l as [|y l] using rev_ind.
  - simpl in H. lia.
  - exists l, y, x. rewrite <- app_assoc. reflexivity.
Qed.


(** A loop whose body keeps an invariant and never raises on the items it
    is given runs to the end, and the invariant holds of its result. *)
Lemma for_loop_inv {S A : Type} (body : S → A → option S)
    (I : S → Prop) (P : A → Prop) (l : list A) (s : S) :
  (∀ s a, I s → P a → ∃ s', body s a = Some s' ∧ I s') →
  I s → Forall P l → ∃ s', for_loop body s l = Some s' ∧ I s'.
Proof.
  intros Hstep. revert s. induction l as [|a l IH]; intros s Hs Hl.
  - exists s. split; [reflexivity | assumption].
  - inversion Hl as [|? ? Ha Hl']; subst.
    destruct (Hstep s a Hs Ha) as (s1 & E1 & Hs1).
    destruct (IH s1 Hs1 Hl') as (s2 & E2 & Hs2).
    exists s2. simpl. rewrite E1. simpl. auto.
Qed.

(** ** The code words *)

Lemma prepend_spec bit cs c :
  (c < length cs)%nat →
  ∃ cs', prepend bit cs c = Some cs' ∧ length cs' = length cs ∧
         cw cs' c = bit :: cw cs c ∧
         (∀ s, s ≠ c → cw cs' s = cw cs s).
Proof.
  intros Hc. unfold prepend, cw.
  destruct (lookup_lt_is_Some_2 cs c Hc) as [w Hw]. rewrite Hw. simpl.
  eexists. split; [reflexivity|]. split; [apply length_insert|]. split.
  - rewrite list_lookup_insert_eq by assumption. reflexivity.
  - intros s Hs. rewrite list_lookup_insert_ne by congruence. reflexivity.
Qed.

Lemma prepend_all_spec bit chars cs :
  NoDup chars → Forall (fun c => (c < length cs)%nat) chars →
  ∃ cs', prepend_all bit chars cs = Some cs' ∧ length cs' = length cs ∧
         (∀ s, s ∈ chars → cw cs' s = bit :: cw cs s) ∧
         (∀ s, s ∉ chars → cw cs' s = cw cs s).
Proof.
  unfold prepend_all. revert cs.
  induction chars as [|c chars IH]; intros cs Hnd Hlt.
  - exists cs. simpl. repeat split; auto. intros s Hs. inversion Hs.
  - apply NoDup_cons in Hnd as [Hc Hnd].
    apply Forall_cons in Hlt as [Hlc Hlt].
    destruct (prepend_spec bit cs c Hlc) as (cs1 & E1 & L1 & Hc1 & Ho1).
    destruct (IH cs1 Hnd) as (cs2 & E2 & L2 & Hin2 & Ho2).
    { rewrite L1. assumption. }
    exists cs2. simpl. rewrite E1. simpl. split; [assumption|].
    split; [congruence|]. split.
    + intros s Hs. apply elem_of_cons in Hs as [->|Hs].
      * rewrite Ho2 by assumption. assumption.
      * rewrite Hin2 by assumption. rewrite Ho1; [reflexivity|].
        intros ->. contradiction.
    + intros s Hs. apply not_elem_of_cons in Hs as [Hsc Hs].
      rewrite Ho2 by assumption. apply Ho1. assumption.
Qed.

(** ** Re-insertion *)

Lemma reinsert_perm new total l : reinsert new total l ≡ₚ new :: l.
Proof.
  induction l as [|e l IH]; simpl; [reflexivity|].
  destruct (e_cnt e <=? total); [reflexivity|].
  rewrite IH. apply perm_swap.
Qed.

Lemma reinsert_length new total l :
  length (reinsert new total l) = S (length l).
Proof. rewrite (Permutation_length (reinsert_perm new total l)). reflexivity. Qed.

Lemma reinsert_descending new l :
  descending l → descending (reinsert new (e_cnt new) l).
Proof.
  unfold descending. induction 1 as [|e l Hl IH Hall]; simpl.
  - repeat constructor.
  - destruct (e_cnt e <=? e_cnt new) eqn:E.
    + apply Z.leb_le in E. constructor; [constructor; assumption|].
      constructor; [assumption|].
      eapply Forall_impl; [exact Hall|]. simpl. intros b Hb. lia.
    + apply Z.leb_gt in E. constructor; [assumption|].
      rewrite (reinsert_perm new (e_cnt new) l).
      constructor; [lia | assumption].
Qed.

Lemma descending_app_inv l1 l2 :
  descending (l1 ++ l2) →
  descending l1 ∧ descending l2 ∧
  ∀ a b, a ∈ l1 → b ∈ l2 → e_cnt b <= e_cnt a.
Proof.
  unfold descending. induction l1 as [|x l1 IH]; simpl; intros H.
  - split; [constructor|]. split; [assumption|]. intros a b Ha. inversion Ha.
  - apply StronglySorted_inv in H as [H Hall].
    destruct (IH H) as (H1 & H2 & H12).
    apply Forall_app in Hall as [Ha1 Ha2].
    split; [constructor; assumption|]. split; [assumption|].
    intros a b Ha Hb. apply elem_of_cons in Ha as [->|Ha].
    + rewrite Forall_forall in Ha2. apply Ha2. assumption.
    + apply H12; assumption.
Qed.

(** ** Kraft sums and prefix-freeness *)

Lemma weight_cons b w : (weight (b :: w) == (1 # 2) * weight w)%Q.
Proof.
  unfold weight. simpl length. rewrite Nat2Z.inj_succ.
  replace (- Z.succ (Z.of_nat (length w)))
    with (-1 + - Z.of_nat (length w)) by lia.
  rewrite Qpower_plus by discriminate. reflexivity.
Qed.


Lemma kraft_app cs a b : (kraft cs (a ++ b) == kraft cs a + kraft cs b)%Q.
Proof.
  induction a as [|s a IH]; simpl.
  - ring.
  - rewrite IH. ring.
Qed.

Lemma kraft_ext cs cs' ss :
  (∀ s, s ∈ ss → cw cs' s = cw cs s) → kraft cs' ss = kraft cs ss.
Proof.
  induction ss as [|s ss IH]; intros H; simpl; [reflexivity|].
  rewrite H by constructor. rewrite IH; [reflexivity|].
  intros t Ht. apply H. constructor. assumption.
Qed.

Lemma kraft_prepend bit cs cs' ss :
  (∀ s, s ∈ ss → cw cs' s = bit :: cw cs s) →
  (kraft cs' ss == (1 # 2) * kraft cs ss)%Q.
Proof.
  induction ss as [|s ss IH]; intros H; simpl.
  - ring.
  - rewrite H by constructor. rewrite weight_cons. rewrite IH.
    + ring.
    + intros t Ht. apply H. constructor. assumption.
Qed.

Lemma kraft_perm cs ss ss' : ss ≡ₚ ss' → (kraft cs ss == kraft cs ss')%Q.
Proof.
  induction 1; simpl.
  - reflexivity.
  - rewrite IHPermutation. reflexivity.
  - ring.
  - etransitivity; eassumption.
Qed.

Lemma prefix_free_on_ext cs cs' ss :
  (∀ s, s ∈ ss → cw cs' s = cw cs s) →
  prefix_free_on cs ss → prefix_free_on cs' ss.
Proof.
  intros H Hpf s t Hs Ht Hne. rewrite !H by assumption. auto.
Qed.

(** Joining two groups under a fresh leading bit each gives a group. *)
Lemma group_ok_merge cs cs' ls rs :
  (∀ s, s ∈ ls → cw cs' s = "0"%char :: cw cs s) →
  (∀ s, s ∈ rs → cw cs' s = "1"%char :: cw cs s) →
  group_ok cs ls → group_ok cs rs → group_ok cs' (ls ++ rs).
Proof.
  intros Hl Hr [Kl Pl] [Kr Pr]. split.
  - rewrite kraft_app, (kraft_prepend "0" cs cs' ls Hl),
      (kraft_prepend "1" cs cs' rs Hr), Kl, Kr. reflexivity.
  - intros s t Hs Ht Hne Hpre.
    apply elem_of_app in Hs as [Hs|Hs]; apply elem_of_app in Ht as [Ht|Ht].
    + rewrite (Hl s Hs), (Hl t Ht) in Hpre.
      apply prefix_cons_inv_2 in Hpre. exact (Pl s t Hs Ht Hne Hpre).
    + rewrite (Hl s Hs), (Hr t Ht) in Hpre.
      apply prefix_cons_inv_1 in Hpre. discriminate.
    + rewrite (Hr s Hs), (Hl t Ht) in Hpre.
      apply prefix_cons_inv_1 in Hpre. discriminate.
    + rewrite (Hr s Hs), (Hr t Ht) in Hpre.
      apply prefix_cons_inv_2 in Hpre. exact (Pr s t Hs Ht Hne Hpre).
Qed.

Lemma group_ok_ext cs cs' ss :
  (∀ s, s ∈ ss → cw cs' s = cw cs s) → group_ok cs ss → group_ok cs' ss.
Proof.
  intros H [K P]. split.
  - rewrite (kraft_ext cs cs' ss H). assumption.
  - eapply prefix_free_on_ext; eassumption.
Qed.

Lemma group_ok_perm cs ss ss' : ss ≡ₚ ss' → group_ok cs ss → group_ok cs ss'.
Proof.
  intros Hp [K P]. split.
  - rewrite <- (kraft_perm cs ss ss' Hp). assumption.
  - intros s t Hs Ht. apply P; rewrite Hp; assumption.
Qed.

Lemma group_ok_singleton cs s : cw cs s = [] → group_ok cs [s].
Proof.
  intros H. split.
  - simpl. rewrite H. reflexivity.
  - intros a b Ha Hb Hne. apply list_elem_of_singleton in Ha, Hb. congruence.
Qed.

(** ** One merge *)

Lemma part_split n (rest : list entry) (ls rs : list nat) :
  mjoin (e_chars <$> rest) ++ ls ++ rs ≡ₚ seq 0 n →
  NoDup ls ∧ NoDup rs ∧ (∀ s, s ∈ ls → s ∉ rs) ∧
  Forall (fun s => (s < n)%nat) ls ∧ Forall (fun s => (s < n)%nat) rs ∧
  (∀ e s, e ∈ rest → s ∈ e_chars e → (s ∉ ls) ∧ (s ∉ rs)).
Proof.
  intros Hp.
  assert (Hnd : NoDup (mjoin (e_chars <$> rest) ++ ls ++ rs)).
  { rewrite Hp. apply NoDup_seq. }
  assert (Hlt : ∀ s, s ∈ mjoin (e_chars <$> rest) ++ ls ++ rs → (s < n)%nat).
  { intros s Hs. rewrite Hp in Hs. apply elem_of_seq in Hs. lia. }
  apply NoDup_app in Hnd as (_ & Hd1 & Hnd).
  apply NoDup_app in Hnd as (Hl & Hlr & Hr).
  repeat split; try assumption.
  - apply Forall_forall. intros s Hs. apply Hlt. rewrite !elem_of_app. auto.
  - apply Forall_forall. intros s Hs. apply Hlt. rewrite !elem_of_app. auto.
  - intros Hs. apply (Hd1 s).
    + apply list_elem_of_join. exists (e_chars e). split; [assumption|].
      apply list_elem_of_fmap. exists e. auto.
    + apply elem_of_app. auto.
  - intros Hs. apply (Hd1 s).
    + apply list_elem_of_join. exists (e_chars e). split; [assumption|].
      apply list_elem_of_fmap. exists e. auto.
    + apply elem_of_app. auto.
Qed.

(** What one iteration does to a state whose working list ends in the
    entries [l] and [r]. *)
Lemma merge_step_spec n st rest (l r : entry) :
  hinv n st → sizes st = rest ++ [l; r] →
  ∃ cs',
    merge_step st =
      Some (HState cs'
              (reinsert (add16 (e_cnt l) (e_cnt r), e_chars l ++ e_chars r,
                         length (tree st))
                        (add16 (e_cnt l) (e_cnt r)) rest)
              (tree st ++ [(e_tree l, e_tree r)])) ∧
    length cs' = n ∧
    (∀ s, s ∈ e_chars l → cw cs' s = "0"%char :: cw (codes st) s) ∧
    (∀ s, s ∈ e_chars r → cw cs' s = "1"%char :: cw (codes st) s) ∧
    (∀ s, s ∉ e_chars l → s ∉ e_chars r → cw cs' s = cw (codes st) s).
Proof.
  intros Hinv Hs.
  destruct l as [[lnum lchars] ltree], r as [[rnum rchars] rtree].
  pose proof (inv_part _ _ Hinv) as Hp. rewrite Hs in Hp.
  rewrite fmap_app, join_app in Hp. simpl in Hp. rewrite app_nil_r in Hp.
  destruct (part_split _ _ _ _ Hp) as (Hl & Hr & Hlr & Bl & Br & _).
  rewrite <- (inv_codes _ _ Hinv) in Bl, Br.
  destruct (prepend_all_spec "0" lchars (codes st) Hl Bl)
    as (cs1 & E1 & L1 & In1 & Out1).
  rewrite <- L1 in Br.
  destruct (prepend_all_spec "1" rchars cs1 Hr Br)
    as (cs2 & E2 & L2 & In2 & Out2).
  exists cs2. split; [|split; [|split; [|split]]].
  - unfold merge_step. rewrite Hs.
    replace (rest ++ [(lnum, lchars, ltree); (rnum, rchars, rtree)])
      with ((rest ++ [(lnum, lchars, ltree)]) ++ [(rnum, rchars, rtree)])
      by (rewrite <- app_assoc; reflexivity).
    rewrite pop_snoc. simpl. rewrite pop_snoc. simpl.
    rewrite E1. simpl. rewrite E2. simpl.
    rewrite length_app. simpl. rewrite Nat.add_sub. reflexivity.
  - rewrite L2, L1. apply (inv_codes _ _ Hinv).
  - simpl. intros s Hs'. rewrite Out2 by auto. apply In1. assumption.
  - simpl. intros s Hs'. rewrite In2 by assumption. rewrite Out1; [reflexivity|].
    intros Hc. exact (Hlr s Hc Hs').
  - simpl. intros s H1 H2. rewrite Out2 by assumption. apply Out1. assumption.
Qed.

Lemma merge_step_inv n st :
  hinv n st → (1 < length (sizes st))%nat →
  ∃ st', merge_step st = Some st' ∧ hinv n st' ∧
         S (length (sizes st')) = length (sizes st).
Proof.
  intros Hinv Hlen. destruct (pop_two _ Hlen) as (rest & l & r & Hs).
  destruct (merge_step_spec n st rest l r Hinv Hs)
    as (cs' & E & Lcs & Hl & Hr & Ho).
  pose proof (inv_part _ _ Hinv) as Hp. rewrite Hs in Hp.
  rewrite fmap_app, join_app in Hp. simpl in Hp. rewrite app_nil_r in Hp.
  destruct (part_split _ _ _ _ Hp) as (_ & _ & _ & _ & _ & Hdisj).
  pose proof (inv_ids _ _ Hinv) as Hids. rewrite Hs in Hids.
  apply Forall_app in Hids as [Hids Hlr].
  apply Forall_cons in Hlr as [Hlt Hlr]. apply Forall_cons in Hlr as [Hrt _].
  pose proof (inv_group _ _ Hinv) as Hg. rewrite Hs in Hg.
  apply Forall_app in Hg as [Hg Hglr].
  apply Forall_cons in Hglr as [Hgl Hglr]. apply Forall_cons in Hglr as [Hgr _].
  pose proof (inv_len _ _ Hinv) as Hlens. rewrite Hs, length_app in Hlens.
  simpl in Hlens.
  eexists. split; [exact E|]. split; [constructor; simpl|].
  - exact Lcs.
  - rewrite reinsert_perm. simpl. rewrite <- Hp.
    rewrite (Permutation_app_comm (mjoin (e_chars <$> rest))). reflexivity.
  - rewrite length_app, reinsert_length. simpl. lia.
  - rewrite reinsert_perm. constructor.
    + unfold e_tree. simpl. rewrite length_app. simpl. lia.
    + eapply Forall_impl; [exact Hids|]. simpl. intros e He.
      rewrite length_app. simpl. lia.
  - intros k a b Hk Hn.
    destruct (decide (k < length (tree st))%nat) as [Hlk|Hlk].
    + rewrite lookup_app_l in Hk by assumption.
      exact (inv_tree _ _ Hinv k a b Hk Hn).
    + rewrite lookup_app_r in Hk by lia.
      destruct (k - length (tree st))%nat as [|j] eqn:Ej; simpl in Hk;
        [|destruct j; discriminate].
      injection Hk as <- <-. unfold e_tree in *. lia.
  - intros k Hk. pose proof (inv_leaves _ _ Hinv k Hk) as Hleaf.
    rewrite lookup_app_l; [assumption|].
    eapply lookup_lt_Some. eassumption.
  - rewrite reinsert_perm. constructor.
    + unfold e_chars at 1. simpl.
      apply (group_ok_merge (codes st)); assumption.
    + apply Forall_forall. intros e He.
      rewrite Forall_forall in Hg.
      apply (group_ok_ext (codes st)); [|auto].
      intros s Hs'. destruct (Hdisj e s He Hs'). apply Ho; assumption.
  - pose proof (inv_desc _ _ Hinv) as Hd. rewrite Hs in Hd.
    apply descending_app_inv in Hd as (Hd & _ & _).
    exact (reinsert_descending
             (add16 (e_cnt l) (e_cnt r), e_chars l ++ e_chars r,
              length (tree st)) rest Hd).
  - simpl. rewrite reinsert_length, Hs, length_app. simpl. lia.
Qed.

(** ** The loop *)

Lemma huffman_loop_fuel n st fuel :
  hinv n st → (length (sizes st) <= S fuel)%nat →
  ∃ st', huffman_loop fuel st = Some st' ∧ hinv n st' ∧
         (length (sizes st') <= 1)%nat ∧
         ((1 <= length (sizes st))%nat → length (sizes st') = 1%nat).
Proof.
  revert st. induction fuel as [|fuel IH]; intros st Hinv Hlen.
  - exists st. simpl.
    destruct (1 <? length (sizes st))%nat eqn:E.
    + apply Nat.ltb_lt in E. lia.
    + apply Nat.ltb_ge in E.
      split; [reflexivity|]. split; [assumption|]. split; lia.
  - simpl. destruct (1 <? length (sizes st))%nat eqn:E.
    + apply Nat.ltb_lt in E.
      destruct (merge_step_inv n st Hinv E) as (st1 & E1 & Hinv1 & L1).
      destruct (IH st1 Hinv1) as (st2 & E2 & Hinv2 & L2 & L2'); [lia|].
      exists st2. rewrite E1. simpl.
      split; [assumption|]. split; [assumption|]. split; [assumption|].
      intros _. apply L2'. lia.
    + apply Nat.ltb_ge in E. exists st.
      split; [reflexivity|]. split; [assumption|]. split; lia.
Qed.

(** ** The initial working list *)

Lemma insert_desc_perm x l : insert_desc x l ≡ₚ x :: l.
Proof.
  induction l as [|y l IH]; simpl; [reflexivity|].
  destruct (entry_ltb x y); [|reflexivity].
  rewrite IH. apply perm_swap.
Qed.

Lemma sorted_reverse_perm l : sorted_reverse l ≡ₚ l.
Proof.
  induction l as [|x l IH]; simpl; [reflexivity|].
  rewrite insert_desc_perm, IH. reflexivity.
Qed.

Lemma entry_ltb_true_cnt a b : entry_ltb a b = true → e_cnt a <= e_cnt b.
Proof.
  unfold entry_ltb. destruct (e_cnt a <? e_cnt b) eqn:E1.
  - apply Z.ltb_lt in E1. lia.
  - destruct (e_cnt b <? e_cnt a) eqn:E2; [discriminate|].
    apply Z.ltb_ge in E2. lia.
Qed.

Lemma entry_ltb_false_cnt a b : entry_ltb a b = false → e_cnt b <= e_cnt a.
Proof.
  unfold entry_ltb. destruct (e_cnt a <? e_cnt b) eqn:E1; [discriminate|].
  apply Z.ltb_ge in E1. lia.
Qed.

Lemma insert_desc_descending x l :
  descending l → descending (insert_desc x l).
Proof.
  unfold descending. induction 1 as [|y l Hl IH Hall]; simpl.
  - repeat constructor.
  - destruct (entry_ltb x y) eqn:E.
    + apply entry_ltb_true_cnt in E. constructor; [assumption|].
      rewrite insert_desc_perm. constructor; assumption.
    + apply entry_ltb_false_cnt in E.
      constructor; [constructor; assumption|].
      constructor; [assumption|].
      eapply Forall_impl; [exact Hall|]. simpl. intros b Hb. lia.
Qed.

Lemma sorted_reverse_descending l : descending (sorted_reverse l).
Proof.
  induction l as [|x l IH]; simpl.
  - constructor.
  - apply insert_desc_descending. assumption.
Qed.

Lemma seed_sizes (cnts : list Z) :
  sizes (seed cnts) = imap (fun i c => (c, [i], i)) cnts.
Proof. reflexivity. Qed.

Lemma seed_chars (cnts : list Z) :
  e_chars <$> sizes (seed cnts) = (fun i => [i]) <$> seq 0 (length cnts).
Proof.
  rewrite seed_sizes, fmap_imap. unfold compose, e_chars. simpl.
  apply (imap_seq_0 cnts (fun i => [i])).
Qed.

Lemma join_singletons {A : Type} (l : list A) : mjoin ((fun i => [i]) <$> l) = l.
Proof. induction l as [|x l IH]; simpl; [reflexivity|]. f_equal. exact IH. Qed.

Lemma seed_tree (cnts : list Z) :
  tree (seed cnts) = (fun i => (i, i)) <$> seq 0 (length cnts).
Proof. apply (imap_seq_0 cnts (fun i => (i, i))). Qed.

Lemma seed_entry (cnts : list Z) e :
  e ∈ sizes (seed cnts) →
  ∃ i c, cnts !! i = Some c ∧ e = (c, [i], i).
Proof.
  rewrite seed_sizes. intros H. apply elem_of_lookup_imap_1 in H.
  destruct H as (i & c & -> & Hc). eauto.
Qed.

Lemma huffman_start_inv (cnts : list Z) :
  hinv (length cnts) (huffman_start cnts).
Proof.
  constructor; unfold huffman_start; simpl.
  - apply length_fmap.
  - rewrite sorted_reverse_perm.
    change (mjoin (e_chars <$> sizes (seed cnts)) ≡ₚ seq 0 (length cnts)).
    rewrite seed_chars, join_singletons. reflexivity.
  - rewrite (Permutation_length (sorted_reverse_perm _)), !length_imap. lia.
  - rewrite sorted_reverse_perm. apply Forall_forall. intros e He.
    apply (seed_entry cnts) in He as (i & c & Hc & ->).
    unfold e_tree. simpl. rewrite length_imap. eapply lookup_lt_Some. eassumption.
  - intros k l r Hk Hn. apply lookup_lt_Some in Hk.
    rewrite length_imap in Hk. lia.
  - intros k Hk. change (tree (seed cnts) !! k = Some (k, k)).
    rewrite seed_tree, list_lookup_fmap, lookup_seq_lt by assumption.
    reflexivity.
  - rewrite sorted_reverse_perm. apply Forall_forall. intros e He.
    apply (seed_entry cnts) in He as (i & c & Hc & ->).
    unfold e_chars. simpl. apply group_ok_singleton.
    unfold cw. rewrite list_lookup_fmap, Hc. reflexivity.
  - apply sorted_reverse_descending.
Qed.

(** [compute_huffman] returns, whatever the counts are, and its result is
    the state that the invariant describes. *)
Lemma compute_huffman_total (cnts : list Z) :
  ∃ st, compute_huffman cnts = Some (codes st, tree st) ∧
        hinv (length cnts) st ∧
        ((1 <= length cnts)%nat → length (sizes st) = 1%nat).
Proof.
  pose proof (huffman_start_inv cnts) as Hinv.
  assert (Hlen : length (sizes (huffman_start cnts)) = length cnts).
  { unfold huffman_start. simpl.
    rewrite (Permutation_length (sorted_reverse_perm _)). apply length_imap. }
  destruct (huffman_loop_fuel _ _ (length cnts) Hinv)
    as (st & E & Hst & _ & H1); [lia|].
  exists st. unfold compute_huffman. rewrite E. simpl.
  split; [reflexivity|]. split; [assumption|].
  intros H. apply H1. lia.
Qed.

(** ** The result of [compute_huffman] *)

Lemma compute_huffman_final (cnts : list Z) :
  (1 <= length cnts)%nat →
  ∃ cds t,
    compute_huffman cnts = Some (cds, t) ∧
    length cds = length cnts ∧
    length t = (2 * length cnts - 1)%nat ∧
    group_ok cds (seq 0 (length cnts)) ∧
    (∀ k l r, t !! k = Some (l, r) → (length cnts <= k)%nat →
              (l < k)%nat ∧ (r < k)%nat) ∧
    (∀ k, (k < length cnts)%nat → t !! k = Some (k, k)).
Proof.
  intros Hn. destruct (compute_huffman_total cnts) as (st & E & Hinv & H1).
  specialize (H1 Hn). exists (codes st), (tree st).
  split; [assumption|]. split; [apply (inv_codes _ _ Hinv)|].
  split; [pose proof (inv_len _ _ Hinv); lia|].
  split; [|split; [apply (inv_tree _ _ Hinv) | apply (inv_leaves _ _ Hinv)]].
  pose proof (inv_part _ _ Hinv) as Hp. pose proof (inv_group _ _ Hinv) as Hg.
  destruct (sizes st) as [|e [|e' s]]; try discriminate.
  simpl in Hp. rewrite app_nil_r in Hp.
  apply Forall_cons in Hg as [Hg _].
  exact (group_ok_perm _ _ _ Hp Hg).
Qed.

Lemma group_ok_nonempty cds n s :
  (2 <= n)%nat → (s < n)%nat → group_ok cds (seq 0 n) → cw cds s ≠ [].
Proof.
  intros Hn Hs [_ Hpf] Hnil.
  set (t := if decide (s = 0%nat) then 1%nat else 0%nat).
  apply (Hpf s t).
  - apply elem_of_seq. lia.
  - apply elem_of_seq. unfold t. destruct (decide (s = 0%nat)); lia.
  - unfold t. destruct (decide (s = 0%nat)); lia.
  - rewrite Hnil. apply prefix_nil.
Qed.

(** The code table and the tree of the histogram [4,0,0,0,0,0,0], that of
    a uniform 2x2 frame. *)
Lemma uniform_frame_huffman :
  compute_huffman [4; 0; 0; 0; 0; 0; 0] =
    Some ([["0"]; ["1"; "0"; "1"; "1"]; ["1"; "0"; "1"; "0"];
           ["1"; "0"; "0"; "1"]; ["1"; "0"; "0"; "0"]; ["1"; "1"; "1"];
           ["1"; "1"; "0"]]%char,
          [(0, 0); (1, 1); (2, 2); (3, 3); (4, 4); (5, 5); (6, 6);
           (2, 1); (4, 3); (6, 5); (8, 7); (10, 9); (0, 11)]%nat).
Proof. vm_compute. reflexivity. Qed.

(** C9: for every histogram of seven counts, the all-zero one and those
    with one count that is not zero included, [compute_huffman] returns a
    code table and a tree without raising; every one of the seven symbols,
    whatever its count, has gone through a merge and holds a code word
    that is not empty. *)
Theorem compute_huffman_degenerate (cnts : list Z) :
  length cnts = 7%nat →
  ∃ cds t, compute_huffman cnts = Some (cds, t) ∧
           length cds = 7%nat ∧ length t = 13%nat ∧
           Forall (fun c => c ≠ []) cds.
Proof.
  intros Hn.
  destruct (compute_huffman_final cnts) as (cds & t & E & Lc & Lt & Hg & _);
    [lia|].
  exists cds, t. rewrite Hn in *.
  split; [assumption|]. split; [assumption|]. split; [assumption|].
  apply Forall_lookup. intros s c Hc.
  assert (Hs : (s < 7)%nat) by (rewrite <- Lc; eapply lookup_lt_Some; eassumption).
  pose proof (group_ok_nonempty cds 7 s ltac:(lia) Hs Hg) as Hne.
  unfold cw in Hne. rewrite Hc in Hne. exact Hne.
Qed.

Lemma compute_huffman_degenerate_witness :
  length [0; 0; 0; 0; 0; 0; 0] = 7%nat ∧
  ∃ cds t, compute_huffman [0; 0; 0; 0; 0; 0; 0] = Some (cds, t) ∧
           length cds = 7%nat ∧ length t = 13%nat ∧
           Forall (fun c => c ≠ []) cds.
Proof.
  split; [reflexivity|].
  apply (compute_huffman_degenerate [0; 0; 0; 0; 0; 0; 0]). reflexivity.
Defined.

Lemma filter_all {A : Type} (P : A → Prop) `{∀ x, Decision (P x)} (l : list A) :
  Forall P l → filter P l = l.
Proof.
  induction 1 as [|x l Hx Hl IH]; [reflexivity|].
  rewrite filter_cons_True by assumption. f_equal. exact IH.
Qed.

Lemma nonzero_symbols_all (cnts : list Z) :
  Forall (fun c => c ≠ 0) cnts → nonzero_symbols cnts = seq 0 (length cnts).
Proof.
  intros H. unfold nonzero_symbols. apply filter_all.
  apply Forall_forall. intros s Hs. apply elem_of_seq in Hs.
  destruct (lookup_lt_is_Some_2 cnts s) as [c Hc]; [lia|].
  rewrite Hc. simpl. rewrite Forall_forall in H. apply H.
  eapply list_elem_of_lookup_2. eassumption.
Qed.

(** C8, as the code has it: for every histogram of seven counts the code
    table is prefix-free and the Kraft sum over all seven symbols, those of
    count zero included, is exactly 1; the sum over the symbols of nonzero
    count is 1 when no count is zero. *)
Theorem compute_huffman_kraft (cnts : list Z) :
  length cnts = 7%nat →
  ∃ cds t, compute_huffman cnts = Some (cds, t) ∧
           prefix_free_on cds (seq 0 7) ∧
           (kraft cds (seq 0 7) == 1)%Q ∧
           (Forall (fun c => c ≠ 0) cnts →
            (kraft cds (nonzero_symbols cnts) == 1)%Q).
Proof.
  intros Hn.
  destruct (compute_huffman_final cnts) as (cds & t & E & _ & _ & Hg & _);
    [lia|].
  exists cds, t. rewrite Hn in Hg. destruct Hg as [K P].
  split; [assumption|]. split; [assumption|]. split; [assumption|].
  intros Hnz. rewrite (nonzero_symbols_all cnts Hnz), Hn. assumption.
Qed.

Lemma compute_huffman_kraft_witness :
  length [4; 0; 0; 0; 0; 0; 0] = 7%nat ∧
  ∃ cds t, compute_huffman [4; 0; 0; 0; 0; 0; 0] = Some (cds, t) ∧
           prefix_free_on cds (seq 0 7) ∧
           (kraft cds (seq 0 7) == 1)%Q ∧
           (Forall (fun c => c ≠ 0) [4; 0; 0; 0; 0; 0; 0] →
            (kraft cds (nonzero_symbols [4; 0; 0; 0; 0; 0; 0]%Z) == 1)%Q).
Proof.
  split; [reflexivity|].
  apply (compute_huffman_kraft [4; 0; 0; 0; 0; 0; 0]). reflexivity.
Defined.

(** C8 as stated fails: a uniform 2x2 frame gives the histogram
    [4,0,0,0,0,0,0]; symbol 0 alone has a count that is not zero, its code
    word is ["0"], and the Kraft sum over the symbols of nonzero count is
    1/2. *)
Lemma kraft_nonzero_counterexample :
  ∃ cds t, compute_huffman [4; 0; 0; 0; 0; 0; 0] = Some (cds, t) ∧
           nonzero_symbols [4; 0; 0; 0; 0; 0; 0] = [0%nat] ∧
           cw cds 0 = ["0"%char] ∧
           ¬ (kraft cds (nonzero_symbols [4; 0; 0; 0; 0; 0; 0]%Z) == 1)%Q.
Proof.
  eexists _, _. split; [exact uniform_frame_huffman|].
  split; [reflexivity|]. split; [reflexivity|].
  change (nonzero_symbols [4; 0; 0; 0; 0; 0; 0]) with [0%nat].
  intros H. vm_compute in H. discriminate.
Qed.

(** C1, as the code has it: the loop merges six times, so the tree of a
    histogram of seven counts has 13 nodes, the internal ones are numbered
    7 to 12, and [encode_tree] gives six bytes. The children of node [7+k]
    have smaller ids, at most 11, and the byte holds the left child in its
    high nibble and the right child in its low nibble. *)
Theorem encode_tree_six_bytes (cnts : list Z) :
  length cnts = 7%nat →
  ∃ cds t,
    compute_huffman cnts = Some (cds, t) ∧
    length t = 13%nat ∧
    length (encode_tree t) = 6%nat ∧
    ∀ k, (k < 6)%nat →
      ∃ l r, t !! (7 + k)%nat = Some (l, r) ∧
             (l < 7 + k)%nat ∧ (r < 7 + k)%nat ∧
             encode_tree t !! k = Some (Z.of_nat l * 16 + Z.of_nat r) ∧
             0 <= Z.of_nat l * 16 + Z.of_nat r < 256 ∧
             (Z.of_nat l * 16 + Z.of_nat r) / 16 = Z.of_nat l ∧
             (Z.of_nat l * 16 + Z.of_nat r) mod 16 = Z.of_nat r.
Proof.
  intros Hn.
  destruct (compute_huffman_final cnts) as (cds & t & E & _ & Lt & _ & Ht & _);
    [lia|].
  rewrite Hn in *. exists cds, t.
  split; [assumption|]. split; [assumption|]. split.
  { unfold encode_tree. rewrite length_fmap, length_drop, Lt. reflexivity. }
  intros k Hk.
  destruct (lookup_lt_is_Some_2 t (7 + k)) as [[l r] Hlr]; [lia|].
  destruct (Ht _ _ _ Hlr ltac:(lia)) as [Hl Hr].
  exists l, r. split; [assumption|]. split; [assumption|]. split; [assumption|].
  split.
  { unfold encode_tree. rewrite list_lookup_fmap, lookup_drop.
    change (NUMCHARS + k)%nat with (7 + k)%nat. rewrite Hlr. reflexivity. }
  split; [lia|]. split.
  - symmetry. apply (Z.div_unique _ 16 _ (Z.of_nat r)); lia.
  - symmetry. apply (Z.mod_unique _ 16 (Z.of_nat l)); lia.
Qed.

Lemma encode_tree_six_bytes_witness :
  length [4; 0; 0; 0; 0; 0; 0] = 7%nat ∧
  ∃ cds t,
    compute_huffman [4; 0; 0; 0; 0; 0; 0] = Some (cds, t) ∧
    length t = 13%nat ∧
    length (encode_tree t) = 6%nat ∧
    ∀ k, (k < 6)%nat →
      ∃ l r, t !! (7 + k)%nat = Some (l, r) ∧
             (l < 7 + k)%nat ∧ (r < 7 + k)%nat ∧
             encode_tree t !! k = Some (Z.of_nat l * 16 + Z.of_nat r) ∧
             0 <= Z.of_nat l * 16 + Z.of_nat r < 256 ∧
             (Z.of_nat l * 16 + Z.of_nat r) / 16 = Z.of_nat l ∧
             (Z.of_nat l * 16 + Z.of_nat r) mod 16 = Z.of_nat r.
Proof.
  split; [reflexivity|].
  apply (encode_tree_six_bytes [4; 0; 0; 0; 0; 0; 0]). reflexivity.
Defined.

(** C1 as stated fails: on the histogram [4,0,0,0,0,0,0] the tree has the
    internal node 12 and [encode_tree] gives six bytes, not five. *)
Lemma encode_tree_five_counterexample :
  ∃ cds t, compute_huffman [4; 0; 0; 0; 0; 0; 0] = Some (cds, t) ∧
           t !! 12%nat = Some (0%nat, 11%nat) ∧
           encode_tree t = [33; 67; 101; 135; 169; 11] ∧
           length (encode_tree t) ≠ 5%nat.
Proof.
  eexists _, _. split; [exact uniform_frame_huffman|].
  split; [reflexivity|]. split; [vm_compute; reflexivity|].
  vm_compute. discriminate.
Qed.

(** ** Every merge *)

Lemma reachable_inv cnts st : reachable cnts st → hinv (length cnts) st.
Proof.
  induction 1 as [|st st' Hr IH Hlen E].
  - apply huffman_start_inv.
  - destruct (merge_step_inv _ _ IH Hlen) as (st1 & E1 & Hinv1 & _).
    congruence.
Qed.

(** C2, as the code has it: in every iteration the last entry of the
    descending list is popped first and becomes the right child, the entry
    before it is popped second and becomes the left child; they carry the
    two smallest counts; the members of the left child get ['0'] in front
    of their code words, those of the right child ['1'], and no other code
    word changes. *)
Theorem merge_step_children (cnts : list Z) (st : hstate) :
  reachable cnts st → (1 < length (sizes st))%nat →
  ∃ rest l r st',
    pop (sizes st) = Some (r, rest ++ [l]) ∧
    pop (rest ++ [l]) = Some (l, rest) ∧
    e_cnt r <= e_cnt l ∧ Forall (fun e => e_cnt l <= e_cnt e) rest ∧
    merge_step st = Some st' ∧
    tree st' = tree st ++ [(e_tree l, e_tree r)] ∧
    (∀ s, s ∈ e_chars l → cw (codes st') s = "0"%char :: cw (codes st) s) ∧
    (∀ s, s ∈ e_chars r → cw (codes st') s = "1"%char :: cw (codes st) s) ∧
    (∀ s, s ∉ e_chars l → s ∉ e_chars r → cw (codes st') s = cw (codes st) s).
Proof.
  intros Hreach Hlen. pose proof (reachable_inv _ _ Hreach) as Hinv.
  destruct (pop_two _ Hlen) as (rest & l & r & Hs).
  destruct (merge_step_spec _ st rest l r Hinv Hs)
    as (cs' & E & _ & Hl & Hr & Ho).
  pose proof (inv_desc _ _ Hinv) as Hd. rewrite Hs in Hd.
  apply descending_app_inv in Hd as (_ & Hlr & Hrest).
  apply StronglySorted_inv in Hlr as [_ Hlr].
  apply Forall_cons in Hlr as [Hlr _].
  exists rest, l, r. eexists.
  split.
  { rewrite Hs. replace (rest ++ [l; r]) with ((rest ++ [l]) ++ [r])
      by (rewrite <- app_assoc; reflexivity). apply pop_snoc. }
  split; [apply pop_snoc|]. split; [assumption|]. split.
  { apply Forall_forall. intros e He. apply Hrest; [assumption|]. constructor. }
  split; [exact E|]. simpl. auto.
Qed.

Lemma merge_step_children_witness :
  reachable [1; 2; 3; 4; 5; 6; 7] (huffman_start [1; 2; 3; 4; 5; 6; 7]) ∧
  (1 < length (sizes (huffman_start [1; 2; 3; 4; 5; 6; 7]%Z)))%nat ∧
  ∃ rest l r st',
    let st := huffman_start [1; 2; 3; 4; 5; 6; 7] in
    pop (sizes st) = Some (r, rest ++ [l]) ∧
    pop (rest ++ [l]) = Some (l, rest) ∧
    e_cnt r <= e_cnt l ∧ Forall (fun e => e_cnt l <= e_cnt e) rest ∧
    merge_step st = Some st' ∧
    tree st' = tree st ++ [(e_tree l, e_tree r)] ∧
    (∀ s, s ∈ e_chars l → cw (codes st') s = "0"%char :: cw (codes st) s) ∧
    (∀ s, s ∈ e_chars r → cw (codes st') s = "1"%char :: cw (codes st) s) ∧
    (∀ s, s ∉ e_chars l → s ∉ e_chars r → cw (codes st') s = cw (codes st) s).
Proof.
  split; [apply reach_start|]. split; [vm_compute; lia|].
  apply (merge_step_children [1; 2; 3; 4; 5; 6; 7] _ (reach_start _)).
  vm_compute. lia.
Defined.

(** C2 as stated fails: on the histogram [1,2,3,4,5,6,7] the entry popped
    first is that of symbol 0, and the node appended by the first merge is
    (1, 0): the entry popped first is its right child, not its left one. *)
Lemma first_removed_left_counterexample :
  ∃ first rest st',
    pop (sizes (huffman_start [1; 2; 3; 4; 5; 6; 7])) = Some (first, rest) ∧
    merge_step (huffman_start [1; 2; 3; 4; 5; 6; 7]) = Some st' ∧
    e_tree first = 0%nat ∧
    last (tree st') = Some (1%nat, 0%nat) ∧
    fst <$> last (tree st') ≠ Some (e_tree first).
Proof.
  eexists _, _, _. split; [reflexivity|]. split; [reflexivity|].
  split; [reflexivity|]. split; [reflexivity|]. discriminate.
Qed.

(** ** The order of the initial list *)

Lemma entry_ltb_seedlike a b :
  seedlike a → seedlike b →
  entry_ltb a b =
    (e_cnt a <? e_cnt b) || ((e_cnt a =? e_cnt b) && (e_tree a <? e_tree b)%nat).
Proof.
  unfold seedlike, entry_ltb. intros -> ->. simpl.
  destruct (Z.ltb_spec (e_cnt a) (e_cnt b)); [reflexivity|].
  destruct (Z.ltb_spec (e_cnt b) (e_cnt a)); simpl.
  - destruct (Z.eqb_spec (e_cnt a) (e_cnt b)); [lia | reflexivity].
  - destruct (Z.eqb_spec (e_cnt a) (e_cnt b)); [|lia]. simpl.
    destruct (Nat.ltb_spec (e_tree a) (e_tree b)); [reflexivity|].
    destruct (Nat.ltb_spec (e_tree b) (e_tree a)); reflexivity.
Qed.

Lemma lex_ge_trans a b c : lex_ge a b → lex_ge b c → lex_ge a c.
Proof. unfold lex_ge. lia. Qed.

Lemma entry_ltb_true_lex a b :
  seedlike a → seedlike b → entry_ltb a b = true → lex_ge b a.
Proof.
  intros Ha Hb. rewrite (entry_ltb_seedlike a b Ha Hb). unfold lex_ge.
  intros H. apply orb_true_iff in H as [H|H].
  - apply Z.ltb_lt in H. lia.
  - apply andb_true_iff in H as [H1 H2].
    apply Z.eqb_eq in H1. apply Nat.ltb_lt in H2. lia.
Qed.

Lemma entry_ltb_false_lex a b :
  seedlike a → seedlike b → entry_ltb a b = false → lex_ge a b.
Proof.
  intros Ha Hb. rewrite (entry_ltb_seedlike a b Ha Hb). unfold lex_ge.
  intros H. apply orb_false_iff in H as [H1 H2].
  apply Z.ltb_ge in H1. apply andb_false_iff in H2 as [H2|H2].
  - apply Z.eqb_neq in H2. lia.
  - apply Nat.ltb_ge in H2. lia.
Qed.

Lemma insert_desc_lex x l :
  seedlike x → Forall seedlike l →
  StronglySorted lex_ge l → StronglySorted lex_ge (insert_desc x l).
Proof.
  intros Hx Hl Hs. induction Hs as [|y l Hs IH Hall]; simpl.
  - repeat constructor.
  - apply Forall_cons in Hl as [Hy Hl].
    destruct (entry_ltb x y) eqn:E.
    + apply (entry_ltb_true_lex x y Hx Hy) in E.
      constructor; [auto|].
      rewrite insert_desc_perm. constructor; assumption.
    + apply (entry_ltb_false_lex x y Hx Hy) in E.
      constructor; [constructor; assumption|].
      constructor; [assumption|].
      eapply Forall_impl; [exact Hall|]. simpl.
      intros b Hb. exact (lex_ge_trans x y b E Hb).
Qed.

Lemma sorted_reverse_lex l :
  Forall seedlike l → StronglySorted lex_ge (sorted_reverse l).
Proof.
  induction 1 as [|x l Hx Hl IH]; simpl.
  - constructor.
  - apply insert_desc_lex; [assumption| |assumption].
    rewrite sorted_reverse_perm. assumption.
Qed.

Lemma StronglySorted_lookup {A : Type} (R : A → A → Prop) l i j a b :
  StronglySorted R l → (i < j)%nat →
  l !! i = Some a → l !! j = Some b → R a b.
Proof.
  intros Hs. revert i j. induction Hs as [|x l Hs IH Hall]; intros i j Hij Ha Hb.
  - discriminate.
  - destruct j as [|j]; [lia|]. simpl in Hb. destruct i as [|i].
    + injection Ha as <-. rewrite Forall_forall in Hall. apply Hall.
      eapply list_elem_of_lookup_2. eassumption.
    + simpl in Ha. apply (IH i j); [lia|assumption|assumption].
Qed.

Lemma seed_seedlike (cnts : list Z) : Forall seedlike (sizes (seed cnts)).
Proof.
  apply Forall_forall. intros e He.
  apply seed_entry in He as (i & c & _ & ->). reflexivity.
Qed.

Lemma seed_ids (cnts : list Z) :
  e_tree <$> sizes (seed cnts) = seq 0 (length cnts).
Proof.
  rewrite seed_sizes, fmap_imap. unfold compose, e_tree. simpl.
  rewrite (imap_seq_0 cnts (fun i => i)). apply list_fmap_id.
Qed.

(** C3, as the code has it: the initial working list holds the seeded
    entries, one singleton per symbol, in strictly descending order of
    (count, symbol): descending by count, and among equal counts in
    descending order of symbol id, because [sorted(..., reverse=True)]
    compares the whole tuples. *)
Theorem initial_list_order (cnts : list Z) :
  sizes (huffman_start cnts) ≡ₚ sizes (seed cnts) ∧
  Forall seedlike (sizes (huffman_start cnts)) ∧
  ∀ i j a b, (i < j)%nat →
    sizes (huffman_start cnts) !! i = Some a →
    sizes (huffman_start cnts) !! j = Some b →
    e_cnt b < e_cnt a ∨ (e_cnt b = e_cnt a ∧ (e_tree b < e_tree a)%nat).
Proof.
  assert (Hp : sizes (huffman_start cnts) ≡ₚ sizes (seed cnts))
    by apply sorted_reverse_perm.
  split; [exact Hp|]. split.
  { rewrite Hp. apply seed_seedlike. }
  intros i j a b Hij Ha Hb.
  pose proof (sorted_reverse_lex _ (seed_seedlike cnts)) as Hs.
  pose proof (StronglySorted_lookup _ _ i j a b Hs Hij Ha Hb) as Hge.
  assert (Hne : e_tree a ≠ e_tree b).
  { assert (Hnd : NoDup (e_tree <$> sizes (huffman_start cnts))).
    { rewrite Hp, seed_ids. apply NoDup_seq. }
    intros Heq.
    assert (i = j); [|lia].
    apply (NoDup_lookup _ i j (e_tree a) Hnd).
    - rewrite list_lookup_fmap, Ha. reflexivity.
    - rewrite list_lookup_fmap, Hb, Heq. reflexivity. }
  unfold lex_ge in Hge. lia.
Qed.

(** C3 as stated fails: in the initial list of the histogram
    [4,0,0,0,0,0,0] the six symbols of count 0 follow symbol 0 in the
    order 6, 5, 4, 3, 2, 1, which is not ascending. *)
Lemma initial_ties_ascending_counterexample :
  e_cnt <$> sizes (huffman_start [4; 0; 0; 0; 0; 0; 0]) =
    [4; 0; 0; 0; 0; 0; 0] ∧
  e_tree <$> sizes (huffman_start [4; 0; 0; 0; 0; 0; 0]) =
    [0; 6; 5; 4; 3; 2; 1]%nat ∧
  ∃ a b, sizes (huffman_start [4; 0; 0; 0; 0; 0; 0]) !! 1%nat = Some a ∧
         sizes (huffman_start [4; 0; 0; 0; 0; 0; 0]) !! 2%nat = Some b ∧
         e_cnt a = e_cnt b ∧ ¬ (e_tree a < e_tree b)%nat.
Proof.
  split; [reflexivity|]. split; [reflexivity|]. eexists _, _.
  split; [reflexivity|]. split; [reflexivity|]. split; [reflexivity|].
  simpl. lia.
Qed.

(** ** Counting loops, raster order and grids *)

Lemma for_loop_count_from {S A : Type} (body : S → A → option S)
    (I : nat → S → Prop) (P : A → Prop) (l : list A) (k0 : nat) (s : S) :
  (∀ k s a, (k0 <= k < k0 + length l)%nat → I k s → P a →
            ∃ s', body s a = Some s' ∧ I (Datatypes.S k) s') →
  I k0 s → Forall P l →
  ∃ s', for_loop body s l = Some s' ∧ I (k0 + length l)%nat s'.
Proof.
  revert k0 s. induction l as [|a l IH]; intros k0 s Hstep Hs Hl.
  - exists s. simpl. rewrite Nat.add_0_r. auto.
  - apply Forall_cons in Hl as [Ha Hl].
    destruct (Hstep k0 s a) as (s1 & E1 & Hs1); [simpl; lia|assumption..|].
    destruct (IH (Datatypes.S k0) s1) as (s2 & E2 & Hs2); [|assumption..|].
    { intros k s' a' Hk. apply Hstep. simpl. lia. }
    exists s2. simpl. rewrite E1. simpl. split; [assumption|].
    replace (k0 + Datatypes.S (length l))%nat
      with (Datatypes.S k0 + length l)%nat by lia.
    assumption.
Qed.

(** A loop whose body, on the [k]-th item, takes the invariant from [k]
    to [k+1] runs to the end. *)
Lemma for_loop_count {S A : Type} (body : S → A → option S)
    (I : nat → S → Prop) (P : A → Prop) (l : list A) (s : S) :
  (∀ k s a, (k < length l)%nat → I k s → P a →
            ∃ s', body s a = Some s' ∧ I (Datatypes.S k) s') →
  I 0%nat s → Forall P l →
  ∃ s', for_loop body s l = Some s' ∧ I (length l) s'.
Proof.
  intros Hstep Hs Hl.
  apply (for_loop_count_from body I P l 0 s); [|assumption..].
  intros k s' a Hk. apply Hstep. lia.
Qed.

Lemma raster_bounds h w :
  Forall (fun yx : nat * nat => (yx.1 < h)%nat ∧ (yx.2 < w)%nat) (raster h w).
Proof.
  apply Forall_forall. intros [y x] H. unfold raster in H.
  apply list_elem_of_bind in H as (y' & H & Hy).
  apply list_elem_of_fmap in H as (x' & [= -> ->] & Hx).
  apply elem_of_seq in Hy, Hx. simpl. lia.
Qed.

Lemma raster_length_from a h w :
  length (seq a h ≫= fun y => (fun x => (y, x)) <$> seq 0 w) = (h * w)%nat.
Proof.
  revert a. induction h as [|h IH]; intros a; simpl; [reflexivity|].
  rewrite length_app, length_fmap, length_seq, IH. reflexivity.
Qed.

Lemma raster_length h w : length (raster h w) = (h * w)%nat.
Proof. apply raster_length_from. Qed.

Lemma rect_has_shape {A : Type} (a : grid A) :
  rect a → has_shape (shape a).1 (shape a).2 a.
Proof. intros H. split; [reflexivity | exact H]. Qed.

Lemma get2_in {A : Type} h w (a : grid A) y x :
  has_shape h w a → (y < h)%nat → (x < w)%nat →
  ∃ r v, a !! y = Some r ∧ r !! x = Some v ∧ get2 a y x = Some v.
Proof.
  intros [Hh Hw] Hy Hx.
  destruct (lookup_lt_is_Some_2 a y) as [r Hr]; [lia|].
  rewrite Forall_forall in Hw.
  pose proof (Hw r (list_elem_of_lookup_2 _ _ _ Hr)) as Hlen.
  destruct (lookup_lt_is_Some_2 r x) as [v Hv]; [lia|].
  exists r, v. unfold get2. rewrite Hr. simpl. auto.
Qed.

Lemma has_shape_insert {A : Type} h w (a : grid A) y r :
  has_shape h w a → length r = w → has_shape h w (<[y := r]> a).
Proof.
  intros [Hh Hw] Hr. split.
  - rewrite length_insert. assumption.
  - apply Forall_insert; assumption.
Qed.

Lemma set2_in {A : Type} h w (a : grid A) y x (v : A) :
  has_shape h w a → (y < h)%nat → (x < w)%nat →
  ∃ a', set2 a y x v = Some a' ∧ has_shape h w a' ∧ get2 a' y x = Some v.
Proof.
  intros Ha Hy Hx.
  destruct (get2_in h w a y x Ha Hy Hx) as (r & v0 & Hr & Hv & _).
  exists (<[y := <[x := v]> r]> a). unfold set2. rewrite Hr. simpl.
  rewrite Hv. simpl. split; [reflexivity|].
  pose proof (lookup_lt_Some _ _ _ Hr) as Hly.
  pose proof (lookup_lt_Some _ _ _ Hv) as Hlx.
  destruct Ha as [Hh Hw]. split.
  - apply has_shape_insert; [split; assumption|].
    rewrite length_insert. rewrite Forall_forall in Hw. apply Hw.
    eapply list_elem_of_lookup_2. eassumption.
  - unfold get2. rewrite list_lookup_insert_eq by assumption. simpl.
    apply list_lookup_insert_eq. assumption.
Qed.

Lemma zeros2_shape h w : has_shape h w (zeros2 h w).
Proof.
  split.
  - apply length_replicate.
  - apply Forall_replicate. apply length_replicate.
Qed.

Lemma py_index_nonneg n i :
  0 <= i < Z.of_nat n → py_index n i = Some (Z.to_nat i).
Proof.
  intros H. unfold py_index.
  destruct (Z.leb_spec 0 i); [|lia].
  destruct (Z.ltb_spec i (Z.of_nat n)); [reflexivity|lia].
Qed.

Lemma zsum_insert (l : list Z) i c v :
  l !! i = Some c → zsum (<[i := v]> l) = zsum l - c + v.
Proof.
  revert i. induction l as [|a l IH]; intros [|i] H; try discriminate.
  - injection H as ->. simpl. lia.
  - simpl in H. simpl. rewrite (IH i H). lia.
Qed.


(** ** The transition counts *)

Lemma incr16_2_in (mat : grid Z) i j :
  has_shape 7 7 mat → 0 <= i < 7 → 0 <= j < 7 →
  ∃ mat', incr16_2 mat i j = Some mat' ∧ has_shape 7 7 mat'.
Proof.
  intros Hm Hi Hj.
  destruct (get2_in 7 7 mat (Z.to_nat i) (Z.to_nat j) Hm)
    as (r & v & Hr & Hv & _); [lia..|].
  pose proof Hm as [Hh Hw]. rewrite Forall_forall in Hw.
  pose proof (Hw r (list_elem_of_lookup_2 _ _ _ Hr)) as Hlen.
  unfold incr16_2. rewrite Hh, (py_index_nonneg 7 i) by lia. simpl.
  rewrite Hr. simpl. rewrite Hlen, (py_index_nonneg 7 j) by lia. simpl.
  rewrite Hv. simpl. eexists. split; [reflexivity|].
  apply has_shape_insert; [assumption|]. rewrite length_insert. assumption.
Qed.

Lemma frame_cell (frame : grid Z) y x :
  rect frame → quantized frame →
  (y < (shape frame).1)%nat → (x < (shape frame).2)%nat →
  ∃ v, get2 frame y x = Some v ∧ 0 <= v < 7.
Proof.
  intros Hr Hq Hy Hx.
  destruct (get2_in _ _ frame y x (rect_has_shape _ Hr) Hy Hx)
    as (r & v & Er & Ev & E).
  exists v. split; [assumption|].
  unfold quantized in Hq. rewrite Forall_forall in Hq.
  pose proof (Hq r (list_elem_of_lookup_2 _ _ _ Er)) as Hrow.
  rewrite Forall_forall in Hrow. apply Hrow.
  eapply list_elem_of_lookup_2. eassumption.
Qed.

Lemma count_pass (frame : grid Z) :
  rect frame → quantized frame →
  ∃ mat prev,
    for_loop (count_step frame) (zeros2 NUMCHARS NUMCHARS, 0)
             (raster (shape frame).1 (shape frame).2) = Some (mat, prev) ∧
    has_shape 7 7 mat.
Proof.
  intros Hr Hq.
  destruct (for_loop_inv (count_step frame)
              (fun st => has_shape 7 7 st.1 ∧ 0 <= st.2 < 7)
              (fun yx => (yx.1 < (shape frame).1)%nat ∧
                         (yx.2 < (shape frame).2)%nat)
              (raster (shape frame).1 (shape frame).2)
              (zeros2 NUMCHARS NUMCHARS, 0))
    as ([mat prev] & E & Hm & _).
  - intros [mat prev] [y x] [Hm Hp] [Hy Hx]. simpl in *.
    destruct (frame_cell frame y x Hr Hq Hy Hx) as (v & Ev & Hv).
    destruct (incr16_2_in mat prev v Hm Hp Hv) as (mat' & Em & Hm').
    exists (mat', v). unfold count_step. simpl. rewrite Ev. simpl.
    rewrite Em. simpl. auto.
  - simpl. split; [apply zeros2_shape | lia].
  - apply raster_bounds.
  - exists mat, prev. auto.
Qed.

(** ** The rank rows *)

Lemma insert_asc_perm x l : insert_asc x l ≡ₚ x :: l.
Proof.
  induction l as [|y l IH]; simpl; [reflexivity|].
  destruct (y.1 <? x.1); [|reflexivity].
  rewrite IH. apply perm_swap.
Qed.

Lemma argsort_perm (row : list Z) : argsort row ≡ₚ seq 0 (length row).
Proof.
  unfold argsort.
  assert (H : ∀ l : list (Z * nat), foldr insert_asc [] l ≡ₚ l).
  { induction l as [|x l IH]; simpl; [reflexivity|].
    rewrite insert_asc_perm, IH. reflexivity. }
  rewrite H, fmap_imap. unfold compose. simpl.
  rewrite (imap_seq_0 row (fun i => i)), list_fmap_id. reflexivity.
Qed.

Lemma scatter_spec (idx : list nat) : ∀ (vals row : list Z),
  NoDup idx → Forall (fun i => (i < length row)%nat) idx →
  length vals = length idx →
  ∃ row', scatter row idx vals = Some row' ∧ length row' = length row ∧
          (∀ k i v, idx !! k = Some i → vals !! k = Some v →
                    row' !! i = Some v) ∧
          (∀ i, i ∉ idx → row' !! i = row !! i).
Proof.
  unfold scatter. induction idx as [|i idx IH]; intros vals row Hnd Hlt Hlen.
  - exists row. simpl. repeat split; auto. intros k i v H. discriminate.
  - destruct vals as [|v vals]; [discriminate|]. simpl in Hlen.
    apply NoDup_cons in Hnd as [Hi Hnd]. apply Forall_cons in Hlt as [Hil Hlt].
    destruct (IH vals (<[i := v]> row)) as (row' & E & L & Hin & Hout);
      [assumption| |lia|].
    { rewrite length_insert. assumption. }
    exists row'. simpl.
    destruct (lookup_lt_is_Some_2 row i Hil) as [v0 Hv0].
    rewrite Hv0. simpl. split; [exact E|].
    split; [rewrite L; apply length_insert|]. split.
    + intros [|k] j u Hj Hu; simpl in Hj, Hu.
      * injection Hj as <-. injection Hu as <-.
        rewrite (Hout i Hi). apply list_lookup_insert_eq. assumption.
      * eapply Hin; eassumption.
    + intros j Hj. apply not_elem_of_cons in Hj as [Hji Hj].
      rewrite (Hout j Hj). apply list_lookup_insert_ne. congruence.
Qed.

Lemma lookup_all_seq (row : list Z) :
  (fun i => default 0 (row !! i)) <$> seq 0 (length row) = row.
Proof.
  apply list_eq. intros i. rewrite list_lookup_fmap.
  destruct (decide (i < length row)%nat) as [Hi|Hi].
  - rewrite lookup_seq_lt by assumption. simpl.
    destruct (lookup_lt_is_Some_2 row i Hi) as [v Hv]. rewrite Hv. reflexivity.
  - rewrite lookup_seq_ge by lia. simpl. symmetry.
    apply lookup_ge_None. lia.
Qed.

(** Writing [vals] through an index array that is a permutation of the
    positions leaves a permutation of [vals]. *)
Lemma scatter_perm (idx : list nat) (vals row : list Z) :
  idx ≡ₚ seq 0 (length row) → length vals = length row →
  ∃ row', scatter row idx vals = Some row' ∧ row' ≡ₚ vals.
Proof.
  intros Hp Hlen.
  assert (Hli : length idx = length row).
  { rewrite (Permutation_length Hp). apply length_seq. }
  destruct (scatter_spec idx vals row) as (row' & E & L & Hin & _).
  - rewrite Hp. apply NoDup_seq.
  - apply Forall_forall. intros i Hi. rewrite Hp in Hi.
    apply elem_of_seq in Hi. lia.
  - lia.
  - exists row'. split; [assumption|].
    rewrite <- (lookup_all_seq row') at 1. rewrite L, <- Hp.
    replace ((fun i => default 0 (row' !! i)) <$> idx) with vals; [reflexivity|].
    apply list_eq. intros k. rewrite list_lookup_fmap.
    destruct (idx !! k) as [i|] eqn:Ei; simpl.
    + destruct (lookup_lt_is_Some_2 vals k) as [v Hv].
      { apply lookup_lt_Some in Ei. lia. }
      rewrite Hv, (Hin k i v Ei Hv). reflexivity.
    + apply lookup_ge_None. apply lookup_ge_None in Ei. lia.
Qed.

Lemma rank_values_eq : rank_values = [6; 5; 4; 3; 2; 1; 0].
Proof. reflexivity. Qed.

Lemma rank_values_perm : rank_values ≡ₚ [0; 1; 2; 3; 4; 5; 6].
Proof.
  rewrite rank_values_eq.
  change [6; 5; 4; 3; 2; 1; 0] with (reverse [0; 1; 2; 3; 4; 5; 6]).
  apply reverse_Permutation.
Qed.

Lemma mapM_each {A B : Type} (f : A → option B) (Q : B → Prop) (l : list A) :
  Forall (fun x => ∃ y, f x = Some y ∧ Q y) l →
  ∃ k, mapM f l = Some k ∧ length k = length l ∧ Forall Q k.
Proof.
  induction 1 as [|x l (y & Ey & Hy) Hl (k & Ek & Lk & Hk)].
  - exists []. simpl. auto.
  - exists (y :: k). simpl. rewrite Ey. simpl. rewrite Ek. simpl.
    split; [reflexivity|]. split; [congruence|]. constructor; assumption.
Qed.

Lemma rank_rows_perm (mat : grid Z) :
  has_shape 7 7 mat →
  ∃ ranks, rank_rows mat = Some ranks ∧ length ranks = 7%nat ∧
           Forall (fun row => row ≡ₚ [0; 1; 2; 3; 4; 5; 6]) ranks.
Proof.
  intros [Hh Hw]. unfold rank_rows.
  destruct (mapM_each
              (fun mrow => scatter (replicate NUMCHARS 0) (argsort mrow)
                                   rank_values)
              (fun row => row ≡ₚ [0; 1; 2; 3; 4; 5; 6]) mat)
    as (ranks & E & L & Hp).
  - eapply Forall_impl; [exact Hw|]. simpl. intros mrow Hlen.
    destruct (scatter_perm (argsort mrow) rank_values (replicate NUMCHARS 0))
      as (row & Er & Hr).
    + rewrite argsort_perm, Hlen. reflexivity.
    + reflexivity.
    + exists row. split; [assumption|]. rewrite Hr. apply rank_values_perm.
  - exists ranks. split; [assumption|]. split; [lia | assumption].
Qed.

(** ** The histogram *)

Lemma zsum_bound (l : list Z) i c :
  Forall (fun v => 0 <= v) l → l !! i = Some c → c <= zsum l.
Proof.
  intros H. revert i. induction H as [|a l Ha Hl IH]; intros [|i] Hc;
    try discriminate.
  - injection Hc as ->. simpl.
    assert (0 <= zsum l); [|lia].
    clear IH. induction Hl as [|b l Hb Hl IH]; simpl; lia.
  - simpl in Hc. specialize (IH i Hc). simpl. lia.
Qed.

Lemma int8_cast_small r : 0 <= r < 7 → int8_cast r = r.
Proof. intros H. unfold int8_cast. rewrite Z.mod_small by lia. lia. Qed.

Lemma ranks_cell (ranks : grid Z) i j :
  length ranks = 7%nat →
  Forall (fun row => row ≡ₚ [0; 1; 2; 3; 4; 5; 6]) ranks →
  0 <= i < 7 → 0 <= j < 7 →
  ∃ r, get2z ranks i j = Some r ∧ 0 <= r < 7.
Proof.
  intros Hl Hp Hi Hj.
  destruct (lookup_lt_is_Some_2 ranks (Z.to_nat i)) as [row Hrow]; [lia|].
  rewrite Forall_forall in Hp.
  pose proof (Hp row (list_elem_of_lookup_2 _ _ _ Hrow)) as Hperm.
  pose proof (Permutation_length Hperm) as Hlen. simpl in Hlen.
  destruct (lookup_lt_is_Some_2 row (Z.to_nat j)) as [r Hr]; [lia|].
  exists r. unfold get2z.
  rewrite Hl, (py_index_nonneg 7 i) by lia. simpl. rewrite Hrow. simpl.
  rewrite Hlen, (py_index_nonneg 7 j) by lia. simpl.
  split; [assumption|].
  apply list_elem_of_lookup_2 in Hr. rewrite Hperm in Hr.
  repeat (apply elem_of_cons in Hr as [->|Hr]; [lia|]).
  inversion Hr.
Qed.

Lemma incr16_1_in (cnt : list Z) r :
  length cnt = 7%nat → 0 <= r < 7 →
  ∃ c, cnt !! Z.to_nat r = Some c ∧
       incr16_1 cnt r = Some (<[Z.to_nat r := add16 c 1]> cnt).
Proof.
  intros Hl Hr.
  destruct (lookup_lt_is_Some_2 cnt (Z.to_nat r)) as [c Hc]; [lia|].
  exists c. split; [assumption|]. unfold incr16_1.
  rewrite Hl, (py_index_nonneg 7 r) by lia. simpl. rewrite Hc. reflexivity.
Qed.

Lemma set2_quantized (a a' : grid Z) y x v :
  set2 a y x v = Some a' → quantized a → 0 <= v < 7 → quantized a'.
Proof.
  unfold set2, quantized. intros H Hq Hv.
  destruct (a !! y) as [r|] eqn:Er; [|discriminate]. simpl in H.
  destruct (r !! x) as [v0|] eqn:Ev; [|discriminate]. simpl in H.
  injection H as <-. apply Forall_insert; [assumption|].
  apply Forall_insert; [|assumption].
  rewrite Forall_forall in Hq. apply Hq.
  eapply list_elem_of_lookup_2. eassumption.
Qed.

Lemma zeros2_quantized h w : quantized (zeros2 h w).
Proof.
  unfold quantized, zeros2. apply Forall_replicate. apply Forall_replicate. lia.
Qed.

Lemma rank_pass (frame ranks : grid Z) :
  rect frame → quantized frame →
  length ranks = 7%nat →
  Forall (fun row => row ≡ₚ [0; 1; 2; 3; 4; 5; 6]) ranks →
  ∃ out cnt prev,
    for_loop (rank_step frame ranks)
             (zeros2 (shape frame).1 (shape frame).2, replicate NUMCHARS 0, 0)
             (raster (shape frame).1 (shape frame).2) = Some (out, cnt, prev) ∧
    has_shape (shape frame).1 (shape frame).2 out ∧
    quantized out ∧
    length cnt = 7%nat ∧
    (Z.of_nat ((shape frame).1 * (shape frame).2) < UINT16 →
     zsum cnt = Z.of_nat ((shape frame).1 * (shape frame).2)).
Proof.
  intros Hr Hq Hl Hp.
  set (h := (shape frame).1). set (w := (shape frame).2).
  destruct (for_loop_count (rank_step frame ranks)
              (fun k st => has_shape h w st.1.1 ∧ quantized st.1.1 ∧
                           length st.1.2 = 7%nat ∧
                           0 <= st.2 < 7 ∧
                           (Z.of_nat k < UINT16 →
                            zsum st.1.2 = Z.of_nat k ∧
                            Forall (fun v => 0 <= v) st.1.2))
              (fun yx => (yx.1 < h)%nat ∧ (yx.2 < w)%nat)
              (raster h w)
              (zeros2 h w, replicate NUMCHARS 0, 0))
    as ([[out cnt] prev] & E & Ho & Hoq & Hc & _ & Hsum).
  - intros k [[out cnt] prev] [y x] _ (Ho & Hoq & Hc & Hprev & Hsum) [Hy Hx].
    simpl in *.
    destruct (frame_cell frame y x Hr Hq Hy Hx) as (v & Ev & Hv).
    destruct (ranks_cell ranks prev v Hl Hp Hprev Hv) as (r & Er & Hrr).
    destruct (set2_in h w out y x (int8_cast r) Ho Hy Hx)
      as (out' & Eo & Ho' & Eg).
    rewrite (int8_cast_small r Hrr) in Eo, Eg.
    destruct (incr16_1_in cnt r Hc Hrr) as (c & Ec & Ei).
    eexists (out', _, v). unfold rank_step. simpl.
    rewrite Ev. simpl. rewrite Er. simpl.
    rewrite (int8_cast_small r Hrr), Eo. simpl. rewrite Eg. simpl.
    rewrite Ei. simpl. split; [reflexivity|].
    split; [assumption|].
    split; [exact (set2_quantized _ _ _ _ _ Eo Hoq Hrr)|].
    split; [rewrite length_insert; assumption|].
    split; [assumption|]. intros Hk.
    destruct Hsum as [Hs Hnn]; [lia|].
    pose proof (zsum_bound cnt _ c Hnn Ec) as Hb.
    assert (Hc0 : 0 <= c).
    { rewrite Forall_forall in Hnn. apply Hnn.
      eapply list_elem_of_lookup_2. eassumption. }
    assert (Hadd : add16 c 1 = c + 1).
    { unfold add16. apply Z.mod_small. unfold UINT16 in *. lia. }
    rewrite Hadd. split.
    + rewrite (zsum_insert cnt _ c _ Ec). lia.
    + apply Forall_insert; [assumption | lia].
  - simpl. split; [apply zeros2_shape|]. split; [apply zeros2_quantized|].
    split; [reflexivity|].
    split; [lia|]. intros _. split; [reflexivity|].
    apply (Forall_replicate (fun v => 0 <= v) 7 0). lia.
  - apply raster_bounds.
  - exists out, cnt, prev. simpl in *. split; [assumption|].
    split; [assumption|]. split; [assumption|]. split; [assumption|].
    rewrite raster_length in Hsum. intros Hlt. apply Hsum. assumption.
Qed.

(** [compute_markov] returns on every quantized frame; its results have
    the shapes the caller expects. *)
Lemma compute_markov_spec (frame : grid Z) :
  rect frame → quantized frame →
  ∃ out ranks cnt,
    compute_markov frame = Some (out, ranks, cnt) ∧
    has_shape (shape frame).1 (shape frame).2 out ∧
    quantized out ∧
    length ranks = 7%nat ∧
    Forall (fun row => row ≡ₚ [0; 1; 2; 3; 4; 5; 6]) ranks ∧
    length cnt = 7%nat ∧
    (Z.of_nat ((shape frame).1 * (shape frame).2) < UINT16 →
     zsum cnt = Z.of_nat ((shape frame).1 * (shape frame).2)).
Proof.
  intros Hr Hq.
  destruct (count_pass frame Hr Hq) as (mat & prev & E1 & Hm).
  destruct (rank_rows_perm mat Hm) as (ranks & E2 & Hl & Hp).
  destruct (rank_pass frame ranks Hr Hq Hl Hp)
    as (out & cnt & prev' & E3 & Ho & Hoq & Hc & Hsum).
  exists out, ranks, cnt. split; [|auto 10].
  unfold compute_markov. destruct (shape frame) as [h w]. simpl in *.
  rewrite E1. simpl. rewrite E2. simpl. rewrite E3. reflexivity.
Qed.

(** C5: for every quantized frame [compute_markov] returns, and every one
    of the seven rows of its rank matrix is a permutation of 0..6. *)
Theorem rank_rows_are_permutations (frame : grid Z) :
  rect frame → quantized frame →
  ∃ out ranks cnt,
    compute_markov frame = Some (out, ranks, cnt) ∧
    length ranks = 7%nat ∧
    Forall (fun row => row ≡ₚ [0; 1; 2; 3; 4; 5; 6]) ranks.
Proof.
  intros Hr Hq.
  destruct (compute_markov_spec frame Hr Hq)
    as (out & ranks & cnt & E & _ & _ & Hl & Hp & _).
  exists out, ranks, cnt. auto.
Qed.

Lemma example_frame_rect : rect [[0; 1; 2]; [3; 1; 0]].
Proof. unfold rect. simpl. repeat (constructor; [reflexivity|]). constructor. Defined.

Lemma example_frame_quantized : quantized [[0; 1; 2]; [3; 1; 0]].
Proof.
  unfold quantized.
  repeat (constructor; [repeat (constructor; [lia|]); constructor|]).
  constructor.
Defined.

Lemma rank_rows_are_permutations_witness :
  rect [[0; 1; 2]; [3; 1; 0]] ∧ quantized [[0; 1; 2]; [3; 1; 0]] ∧
  ∃ out ranks cnt,
    compute_markov [[0; 1; 2]; [3; 1; 0]] = Some (out, ranks, cnt) ∧
    length ranks = 7%nat ∧
    Forall (fun row => row ≡ₚ [0; 1; 2; 3; 4; 5; 6]) ranks.
Proof.
  split; [exact example_frame_rect|]. split; [exact example_frame_quantized|].
  exact (rank_rows_are_permutations _ example_frame_rect example_frame_quantized).
Defined.

(** C6, as the code has it: the histogram cells are [uint16], so for every
    quantized frame of fewer than 65536 pixels (the 22x80 frames of the
    program among them) the seven counts sum to [height * width]. *)
Theorem histogram_sum (frame : grid Z) :
  rect frame → quantized frame →
  Z.of_nat ((shape frame).1 * (shape frame).2) < UINT16 →
  ∃ out ranks cnt,
    compute_markov frame = Some (out, ranks, cnt) ∧
    length cnt = 7%nat ∧
    zsum cnt = Z.of_nat ((shape frame).1 * (shape frame).2).
Proof.
  intros Hr Hq Hlt.
  destruct (compute_markov_spec frame Hr Hq)
    as (out & ranks & cnt & E & _ & _ & _ & _ & Hc & Hsum).
  exists out, ranks, cnt. auto.
Qed.

Lemma histogram_sum_witness :
  rect [[0; 1; 2]; [3; 1; 0]] ∧ quantized [[0; 1; 2]; [3; 1; 0]] ∧
  Z.of_nat ((shape [[0; 1; 2]; [3; 1; 0]]).1 * (shape [[0; 1; 2]; [3; 1; 0]]).2)
    < UINT16 ∧
  ∃ out ranks cnt,
    compute_markov [[0; 1; 2]; [3; 1; 0]] = Some (out, ranks, cnt) ∧
    length cnt = 7%nat ∧
    zsum cnt =
      Z.of_nat ((shape [[0; 1; 2]; [3; 1; 0]]).1 * (shape [[0; 1; 2]; [3; 1; 0]]).2).
Proof.
  split; [exact example_frame_rect|]. split; [exact example_frame_quantized|].
  split; [reflexivity|].
  apply (histogram_sum _ example_frame_rect example_frame_quantized).
  reflexivity.
Defined.

(** ** A uniform frame of 65536 pixels *)

Lemma uniform_cell h w y x :
  (y < h)%nat → (x < w)%nat →
  get2 (replicate h (replicate w 0)) y x = Some 0.
Proof.
  intros Hy Hx. unfold get2.
  rewrite (lookup_replicate_2 h (replicate w 0) y Hy). simpl.
  apply lookup_replicate_2. assumption.
Qed.

Lemma add16_succ k :
  add16 (Z.of_nat k mod UINT16) 1 = Z.of_nat (S k) mod UINT16.
Proof.
  unfold add16. rewrite Nat2Z.inj_succ, Z.add_mod_idemp_l by discriminate.
  reflexivity.
Qed.

(** On a frame of symbol 0 only the cell [mat[0, 0]] counts, modulo
    65536. *)
Lemma uniform_count_pass h w :
  for_loop (count_step (replicate h (replicate w 0)))
           (zeros2 NUMCHARS NUMCHARS, 0) (raster h w)
    = Some ((Z.of_nat (h * w) mod UINT16 :: replicate 6 0)
              :: replicate 6 (replicate 7 0), 0).
Proof.
  destruct (for_loop_count (count_step (replicate h (replicate w 0)))
              (fun k st => st = ((Z.of_nat k mod UINT16 :: replicate 6 0)
                                   :: replicate 6 (replicate 7 0), 0))
              (fun yx => (yx.1 < h)%nat ∧ (yx.2 < w)%nat)
              (raster h w) (zeros2 NUMCHARS NUMCHARS, 0))
    as (st & E & Hst).
  - intros k st [y x] _ -> [Hy Hx]. simpl in Hy, Hx.
    eexists. split; [|reflexivity].
    unfold count_step. cbn [fst snd].
    rewrite (uniform_cell h w y x Hy Hx). rewrite <- add16_succ. reflexivity.
  - reflexivity.
  - apply raster_bounds.
  - rewrite E, Hst, raster_length. reflexivity.
Qed.

(** When the pixel count is a multiple of 65536 the count of the one rank
    in use wraps to 0. *)
Lemma uniform_rank_pass h w :
  ∃ out,
    for_loop (rank_step (replicate h (replicate w 0))
                        (replicate 7 [6; 5; 4; 3; 2; 1; 0]))
             (zeros2 h w, replicate NUMCHARS 0, 0) (raster h w)
      = Some (out, replicate 6 0 ++ [Z.of_nat (h * w) mod UINT16], 0).
Proof.
  destruct (for_loop_count
              (rank_step (replicate h (replicate w 0))
                         (replicate 7 [6; 5; 4; 3; 2; 1; 0]))
              (fun k st => has_shape h w st.1.1 ∧
                           st.1.2 = replicate 6 0 ++ [Z.of_nat k mod UINT16] ∧
                           st.2 = 0)
              (fun yx => (yx.1 < h)%nat ∧ (yx.2 < w)%nat)
              (raster h w) (zeros2 h w, replicate NUMCHARS 0, 0))
    as ([[out cnt] prev] & E & Ho & Hc & Hp).
  - intros k [[out cnt] prev] [y x] _ (Ho & Hc & Hp) [Hy Hx].
    simpl in Ho, Hc, Hp, Hy, Hx. subst cnt prev.
    destruct (set2_in h w out y x 6 Ho Hy Hx) as (out' & Eo & Ho' & Eg).
    exists (out', replicate 6 0 ++ [Z.of_nat (S k) mod UINT16], 0).
    split; [|simpl; auto].
    unfold rank_step. cbn [fst snd].
    rewrite (uniform_cell h w y x Hy Hx). cbn [mbind option_bind].
    change (get2z (replicate 7 [6; 5; 4; 3; 2; 1; 0]) 0 0) with (Some 6).
    cbn [mbind option_bind]. change (int8_cast 6) with 6.
    rewrite Eo. cbn [mbind option_bind].
    rewrite Eg. cbn [mbind option_bind].
    rewrite <- add16_succ. reflexivity.
  - simpl. split; [apply zeros2_shape|]. split; reflexivity.
  - apply raster_bounds.
  - simpl in Hc, Hp. subst cnt prev. exists out.
    rewrite E, raster_length. reflexivity.
Qed.

Lemma uniform_frame_histogram h w :
  Z.of_nat (S h * w) mod UINT16 = 0 →
  ∃ out ranks,
    compute_markov (replicate (S h) (replicate w 0))
      = Some (out, ranks, [0; 0; 0; 0; 0; 0; 0]).
Proof.
  intros Hm. destruct (uniform_rank_pass (S h) w) as (out & E).
  exists out, (replicate 7 [6; 5; 4; 3; 2; 1; 0]).
  unfold compute_markov.
  assert (Hs : shape (replicate (S h) (replicate w 0)) = (S h, w)).
  { unfold shape. rewrite length_replicate. simpl.
    rewrite length_replicate. reflexivity. }
  rewrite Hs, uniform_count_pass, Hm.
  cbn [mbind option_bind].
  change (rank_rows ((0 :: replicate 6 0) :: replicate 6 (replicate 7 0)))
    with (Some (replicate 7 [6; 5; 4; 3; 2; 1; 0])).
  cbn [mbind option_bind]. rewrite E, Hm. reflexivity.
Qed.

(** C6 as stated fails: on the 256x256 frame of symbol 0 every pixel has
    the same rank, its [uint16] count wraps to 0 at the 65536th pixel, and
    the histogram sums to 0. *)
Lemma histogram_sum_counterexample :
  ∃ out ranks,
    compute_markov (replicate 256 (replicate 256 0))
      = Some (out, ranks, [0; 0; 0; 0; 0; 0; 0]) ∧
    zsum [0; 0; 0; 0; 0; 0; 0] ≠ 256 * 256.
Proof.
  destruct (uniform_frame_histogram 255 256) as (out & ranks & E).
  - vm_compute. reflexivity.
  - exists out, ranks. split; [exact E | discriminate].
Qed.

(** ** encode_matrix *)

Lemma arrangements_complete n : ∀ (pool l : list Z),
  length l = n → NoDup l → (∀ x, x ∈ l → x ∈ pool) →
  l ∈ arrangements n pool.
Proof.
  induction n as [|n IH]; intros pool l Hlen Hnd Hsub.
  - destruct l; [|discriminate]. simpl. constructor.
  - destruct l as [|a l]; [discriminate|]. simpl in Hlen.
    apply NoDup_cons in Hnd as [Ha Hnd]. simpl.
    apply list_elem_of_bind. exists a. split.
    + apply list_elem_of_fmap. exists l. split; [reflexivity|].
      apply IH; [lia|assumption|].
      intros x Hx. apply list_elem_of_filter. split.
      * intros ->. contradiction.
      * apply Hsub. constructor. assumption.
    + apply Hsub. constructor.
Qed.

Lemma rank_row_listed (row : list Z) :
  row ≡ₚ [0; 1; 2; 3; 4; 5; 6] →
  row ∈ arrangements 7 [0; 1; 2; 3; 4; 5; 6].
Proof.
  intros Hp. apply arrangements_complete.
  - rewrite (Permutation_length Hp). reflexivity.
  - rewrite Hp. apply (bool_decide_unpack _). reflexivity.
  - intros x Hx. rewrite <- Hp. assumption.
Qed.

(** The 5040 rows, each encoded and decoded. *)
Lemma all_rows_round_trip :
  forallb row_round_trip (arrangements 7 [0; 1; 2; 3; 4; 5; 6]) = true.
Proof. vm_compute. reflexivity. Qed.

Lemma rank_row_round_trip (row : list Z) :
  row ≡ₚ [0; 1; 2; 3; 4; 5; 6] →
  ∃ e, row_encoding row = Some e ∧ 0 <= e <= 5039 ∧ decode_row e = row.
Proof.
  intros Hp. pose proof all_rows_round_trip as H.
  rewrite forallb_forall in H.
  specialize (H row (proj1 (list_elem_of_In _ _) (rank_row_listed row Hp))).
  unfold row_round_trip in H.
  destruct (row_encoding row) as [e|]; [|discriminate].
  apply andb_true_iff in H as [H H3]. apply andb_true_iff in H as [H1 H2].
  apply Z.leb_le in H1, H2. apply bool_decide_eq_true in H3.
  exists e. auto.
Qed.

(** C7: for every row that is a permutation of 0..6, the integer computed
    by [encode_matrix] lies in [0, 5039]; it is written as two bytes, the
    high byte first; decoding it gives the row back, so two different
    rows never have the same integer. *)
Theorem row_encoding_round_trip (row : list Z) :
  row ≡ₚ [0; 1; 2; 3; 4; 5; 6] →
  ∃ e, row_encoding row = Some e ∧
       0 <= e <= 5039 ∧
       encode_matrix [row] = Some [e / 256; e mod 256] ∧
       0 <= e / 256 < 256 ∧ 0 <= e mod 256 < 256 ∧
       (e / 256) * 256 + e mod 256 = e ∧
       decode_row e = row ∧
       ∀ row', row' ≡ₚ [0; 1; 2; 3; 4; 5; 6] →
               row_encoding row' = Some e → row' = row.
Proof.
  intros Hp. destruct (rank_row_round_trip row Hp) as (e & E & He & Hd).
  exists e. split; [assumption|]. split; [assumption|].
  pose proof (Z.div_mod e 256 ltac:(lia)) as Hdm.
  pose proof (Z.mod_pos_bound e 256 ltac:(lia)) as Hm.
  split.
  { unfold encode_matrix. simpl. rewrite E. simpl.
    replace (e - e mod 256) with (e / 256 * 256) by lia.
    rewrite Z.div_mul by lia. reflexivity. }
  split; [lia|]. split; [lia|]. split; [lia|]. split; [assumption|].
  intros row' Hp' E'.
  destruct (rank_row_round_trip row' Hp') as (e' & E'' & _ & Hd').
  congruence.
Qed.

Lemma row_encoding_round_trip_witness :
  [6; 5; 4; 3; 2; 1; 0] ≡ₚ [0; 1; 2; 3; 4; 5; 6] ∧
  ∃ e, row_encoding [6; 5; 4; 3; 2; 1; 0] = Some e ∧
       0 <= e <= 5039 ∧
       encode_matrix [[6; 5; 4; 3; 2; 1; 0]] = Some [e / 256; e mod 256] ∧
       0 <= e / 256 < 256 ∧ 0 <= e mod 256 < 256 ∧
       (e / 256) * 256 + e mod 256 = e ∧
       decode_row e = [6; 5; 4; 3; 2; 1; 0] ∧
       ∀ row', row' ≡ₚ [0; 1; 2; 3; 4; 5; 6] →
               row_encoding row' = Some e → row' = [6; 5; 4; 3; 2; 1; 0].
Proof.
  split; [exact (reverse_Permutation [0; 1; 2; 3; 4; 5; 6])|].
  apply (row_encoding_round_trip [6; 5; 4; 3; 2; 1; 0]).
  exact (reverse_Permutation [0; 1; 2; 3; 4; 5; 6]).
Defined.

(** ** convert_huffman *)

Lemma row_cells {A : Type} (r : list A) :
  (fun x => r !! x) <$> seq 0 (length r) = Some <$> r.
Proof.
  apply list_eq. intros i. rewrite !list_lookup_fmap.
  destruct (decide (i < length r)%nat) as [Hi|Hi].
  - rewrite lookup_seq_lt by assumption. simpl.
    destruct (lookup_lt_is_Some_2 r i Hi) as [v Hv]. rewrite Hv. reflexivity.
  - rewrite lookup_seq_ge by lia. simpl.
    rewrite (proj2 (lookup_ge_None r i)) by lia. reflexivity.
Qed.

Lemma raster_cells_from {A : Type} w (l : grid A) : ∀ pre : grid A,
  Forall (fun r => length r = w) l →
  (seq (length pre) (length l) ≫=
     fun y => (fun x => get2 (pre ++ l) y x) <$> seq 0 w) = Some <$> mjoin l.
Proof.
  induction l as [|r l IH]; intros pre Hl; [reflexivity|].
  apply Forall_cons in Hl as [Hr Hl]. simpl.
  rewrite fmap_app. f_equal.
  - rewrite <- Hr, <- row_cells. apply list_fmap_ext. intros _ x _.
    unfold get2. rewrite lookup_app_r by lia.
    rewrite Nat.sub_diag. reflexivity.
  - specialize (IH (pre ++ [r]) Hl).
    rewrite length_app, <- app_assoc in IH. simpl in IH.
    rewrite Nat.add_1_r in IH. exact IH.
Qed.

Lemma fmap_bind_list {A B C : Type} (f : B → C) (g : A → list B) (l : list A) :
  f <$> (l ≫= g) = l ≫= fun a => f <$> g a.
Proof.
  induction l as [|a l IH]; [reflexivity|].
  rewrite !bind_cons, fmap_app, IH. reflexivity.
Qed.

(** The two nested loops read the cells of a rectangular array row after
    row. *)
Lemma raster_cells {A : Type} (a : grid A) :
  rect a →
  (fun yx => get2 a yx.1 yx.2) <$> raster (shape a).1 (shape a).2
    = Some <$> mjoin a.
Proof.
  intros Hr. unfold raster. rewrite fmap_bind_list.
  rewrite <- (raster_cells_from (shape a).2 a [] Hr). simpl.
  apply list_bind_ext; [|reflexivity].
  intros y. rewrite <- list_fmap_compose. reflexivity.
Qed.

Lemma append_loop {A B : Type} (g : A → option Z) (f : Z → option (list B))
    (l : list A) : ∀ (vs : list Z) (ws : list (list B)) (s : list B),
  g <$> l = Some <$> vs → mapM f vs = Some ws →
  for_loop (fun out a => v ← g a; c ← f v; Some (out ++ c)) s l
    = Some (s ++ mjoin ws).
Proof.
  induction l as [|a l IH]; intros vs ws s Hg Hf.
  - destruct vs; [|discriminate]. injection Hf as <-. simpl.
    rewrite app_nil_r. reflexivity.
  - destruct vs as [|v vs]; [discriminate|]. simpl in Hg.
    injection Hg as Hv Hg. simpl in Hf.
    destruct (f v) as [c|] eqn:Ec; [|discriminate]. simpl in Hf.
    destruct (mapM f vs) as [ws'|] eqn:Ews; [|discriminate].
    injection Hf as <-. cbn [for_loop]. rewrite Hv. simpl. rewrite Ec. simpl.
    rewrite (IH vs ws' (s ++ c) Hg Ews), app_assoc. reflexivity.
Qed.

Lemma pack_byte_msb (byte : pystr) :
  length byte = 8%nat → pack_byte byte = Some (msb_first byte).
Proof.
  intros H.
  do 8 (destruct byte as [|? byte]; [discriminate|]).
  destruct byte; [|discriminate].
  unfold pack_byte, msb_first. simpl.
  repeat match goal with |- context [Ascii.eqb ?a ?b] =>
    destruct (Ascii.eqb a b) end; reflexivity.
Qed.

Lemma range_step_octets m :
  range_step (m * 8) 8 = (fun k => (k * 8)%nat) <$> seq 0 m.
Proof.
  unfold range_step. f_equal. f_equal.
  replace (m * 8 + 8 - 1)%nat with (7 + m * 8)%nat by lia.
  rewrite Nat.div_add by lia. reflexivity.
Qed.

Lemma pack_octets (out : pystr) m :
  length out = (m * 8)%nat →
  mapM (fun i => pack_byte (take 8 (drop i out))) (range_step (length out) 8)
    = Some ((fun k => msb_first (take 8 (drop (k * 8) out))) <$> seq 0 m).
Proof.
  intros Hlen. rewrite Hlen, range_step_octets.
  apply mapM_Some. apply Forall2_fmap. apply Forall_Forall2_diag.
  apply Forall_forall. intros k Hk. apply elem_of_seq in Hk.
  apply pack_byte_msb. rewrite length_take, length_drop. lia.
Qed.

Lemma mjoin_rect_length {A : Type} (a : grid A) :
  rect a → length (mjoin a) = ((shape a).1 * (shape a).2)%nat.
Proof.
  intros Hr. rewrite <- (length_fmap Some), <- (raster_cells a Hr).
  rewrite length_fmap. apply raster_length.
Qed.

(** C10: [convert_huffman] loops over the shape of the module-level
    [frame]. When that shape is the shape of [markov_frame] and every cell
    has a code word, it appends the [height * width] code words of the
    cells in raster order, pads with fewer than eight ['0'] characters to
    a multiple of eight, and returns one byte per octet, most significant
    bit first. *)
Theorem convert_huffman_spec (frame markov_frame : grid Z)
    (cds ws : list pystr) :
  shape frame = shape markov_frame → rect markov_frame →
  mapM (codeword cds) (mjoin markov_frame) = Some ws →
  ∃ pad,
    length ws = ((shape markov_frame).1 * (shape markov_frame).2)%nat ∧
    (pad < 8)%nat ∧
    (length (mjoin ws ++ replicate pad "0"%char) mod 8 = 0)%nat ∧
    convert_huffman frame markov_frame cds =
      Some ((fun k => msb_first
                        (take 8 (drop (k * 8)
                                      (mjoin ws ++ replicate pad "0"%char))))
              <$> seq 0 (length (mjoin ws ++ replicate pad "0"%char) / 8)).
Proof.
  intros Hs Hr Hws.
  exists ((8 - length (mjoin ws) mod 8) mod 8)%nat.
  set (pad := ((8 - length (mjoin ws) mod 8) mod 8)%nat).
  set (bits := mjoin ws ++ replicate pad "0"%char).
  assert (Hpad : (pad < 8)%nat) by (apply Nat.mod_upper_bound; lia).
  assert (Hlen : (length bits = length bits / 8 * 8)%nat).
  { assert (Hm : (length bits mod 8 = 0)%nat).
    { unfold bits. rewrite length_app, length_replicate. unfold pad.
      pose proof (Nat.mod_upper_bound (length (mjoin ws)) 8 ltac:(lia)).
      pose proof (Nat.div_mod_eq (length (mjoin ws)) 8).
      destruct (decide (length (mjoin ws) mod 8 = 0)%nat) as [E|E].
      - rewrite E. simpl. rewrite Nat.add_0_r. assumption.
      - rewrite (Nat.mod_small (8 - _) 8) by lia.
        replace (length (mjoin ws) + (8 - length (mjoin ws) mod 8))%nat
          with ((1 + length (mjoin ws) / 8) * 8)%nat by lia.
        apply Nat.Div0.mod_mul. }
    pose proof (Nat.div_mod_eq (length bits) 8). lia. }
  split.
  { rewrite <- (mjoin_rect_length _ Hr). symmetry.
    eapply length_mapM. eassumption. }
  split; [assumption|]. split.
  { rewrite Hlen. apply Nat.Div0.mod_mul. }
  unfold convert_huffman. rewrite Hs.
  destruct (shape markov_frame) as [h w] eqn:Es.
  pose proof (raster_cells markov_frame Hr) as Hcells.
  rewrite Es in Hcells. simpl in Hcells.
  rewrite (append_loop _ (codeword cds) _ _ _ [] Hcells Hws). simpl.
  fold pad. fold bits. apply pack_octets. assumption.
Qed.

Lemma convert_huffman_spec_witness :
  shape [[1; 0; 0]; [0; 0; 1]] = shape [[1; 0; 0]; [0; 0; 1]] ∧
  rect [[1; 0; 0]; [0; 0; 1]] ∧
  mapM (codeword [["0"]; ["1"]]%char) (mjoin [[1; 0; 0]; [0; 0; 1]])
    = Some ([["1"]; ["0"]; ["0"]; ["0"]; ["0"]; ["1"]]%char) ∧
  ∃ pad,
    length ([["1"]; ["0"]; ["0"]; ["0"]; ["0"]; ["1"]]%char) = (2 * 3)%nat ∧
    (pad < 8)%nat ∧
    (length (mjoin ([["1"]; ["0"]; ["0"]; ["0"]; ["0"]; ["1"]]%char) ++
             replicate pad "0"%char) mod 8 = 0)%nat ∧
    convert_huffman [[1; 0; 0]; [0; 0; 1]] [[1; 0; 0]; [0; 0; 1]]
                    ([["0"]; ["1"]]%char) =
      Some ((fun k => msb_first
                        (take 8 (drop (k * 8)
                           (mjoin ([["1"]; ["0"]; ["0"]; ["0"]; ["0"]; ["1"]]%char)
                            ++ replicate pad "0"%char))))
              <$> seq 0 (length (mjoin ([["1"]; ["0"]; ["0"]; ["0"]; ["0"];
                                         ["1"]]%char)
                                 ++ replicate pad "0"%char) / 8)).
Proof.
  split; [reflexivity|].
  assert (Hr : rect [[1; 0; 0]; [0; 0; 1]]).
  { unfold rect. simpl. repeat (constructor; [reflexivity|]). constructor. }
  split; [exact Hr|]. split; [reflexivity|].
  exact (convert_huffman_spec [[1; 0; 0]; [0; 0; 1]] [[1; 0; 0]; [0; 0; 1]]
           ([["0"]; ["1"]]%char) _ eq_refl Hr eq_refl).
Defined.

(** The shape of the module-level [frame] is all that [convert_huffman]
    reads of it. *)
Lemma convert_huffman_reads_shape (frame frame' markov_frame : grid Z) cds :
  shape frame = shape frame' →
  convert_huffman frame markov_frame cds
    = convert_huffman frame' markov_frame cds.
Proof. intros H. unfold convert_huffman. rewrite H. reflexivity. Qed.

(** When the module-level [frame] is wider than the argument, the loop
    indexes the argument out of bounds. *)
Lemma convert_huffman_wider_global_raises :
  convert_huffman [[0; 0]] [[0]] ([["0"]]%char) = None.
Proof. reflexivity. Qed.

(** When it is narrower, the cells beyond its width are left out and the
    call returns all the same. *)
Lemma convert_huffman_narrower_global_truncates :
  convert_huffman [[0]] [[0; 1]] ([["0"]; ["1"]]%char) = Some [0] ∧
  convert_huffman [[0; 1]] [[0; 1]] ([["0"]; ["1"]]%char) = Some [64].
Proof. split; reflexivity. Qed.

(** In the main loop the two shapes agree: the rank-symbol frame that
    [compute_markov] returns has the shape of its argument. *)
Lemma main_loop_shapes_agree (frame out ranks : grid Z) cnt :
  rect frame → quantized frame →
  compute_markov frame = Some (out, ranks, cnt) →
  shape out = shape frame ∧ rect out.
Proof.
  intros Hr Hq E.
  destruct (compute_markov_spec frame Hr Hq)
    as (out' & ranks' & cnt' & E' & [Hh Hrows] & _).
  rewrite E in E'. injection E' as <- <- <-.
  assert (Hs : shape out = shape frame).
  { unfold shape at 1. destruct out as [|r out].
    - destruct frame; [reflexivity | discriminate].
    - apply Forall_cons in Hrows as [Hlr _]. rewrite Hh, Hlr.
      destruct (shape frame). reflexivity. }
  split; [assumption|]. unfold rect. rewrite Hs. assumption.
Qed.

(** ** process_frame *)

Lemma replicate_shape {A : Type} h w (v : A) :
  has_shape h w (replicate h (replicate w v)).
Proof.
  split.
  - apply length_replicate.
  - apply Forall_replicate. apply length_replicate.
Qed.

Lemma set2_other {A : Type} (a a' : grid A) y x (v : A) y' x' :
  set2 a y x v = Some a' → (y', x') ≠ (y, x) →
  get2 a' y' x' = get2 a y' x'.
Proof.
  unfold set2, get2. intros H Hne.
  destruct (a !! y) as [r|] eqn:Er; [|discriminate]. simpl in H.
  destruct (r !! x) as [v0|] eqn:Ev; [|discriminate]. simpl in H.
  injection H as <-.
  destruct (decide (y' = y)) as [->|Hy].
  - rewrite list_lookup_insert_eq by (eapply lookup_lt_Some; eassumption).
    rewrite Er. simpl. apply list_lookup_insert_ne. congruence.
  - rewrite list_lookup_insert_ne by congruence. reflexivity.
Qed.

Section DisperserFacts.
Context {F : Type}.
Variable flit : Q → F.
Variables fadd fsub fmul fdiv : F → F → F.
Variable f_int : F → Z.

Lemma add_at_in h w (g : grid F) y x (d : F) :
  has_shape h w g → (y < h)%nat → (x < w)%nat →
  ∃ g' v, get2 g y x = Some v ∧
          add_at fadd g y x d = Some g' ∧ has_shape h w g' ∧
          get2 g' y x = Some (fadd v d) ∧
          ∀ y' x', (y', x') ≠ (y, x) → get2 g' y' x' = get2 g y' x'.
Proof.
  intros Hg Hy Hx.
  destruct (get2_in h w g y x Hg Hy Hx) as (r & v & _ & _ & Ev).
  destruct (set2_in h w g y x (fadd v d) Hg Hy Hx) as (g' & Es & Hg' & Eg).
  exists g', v. unfold add_at. rewrite Ev. simpl.
  split; [reflexivity|]. split; [assumption|]. split; [assumption|].
  split; [assumption|].
  intros y' x' Hne. eapply set2_other; eassumption.
Qed.

Lemma level_in_table (v : F) :
  ∃ lv, LEVELS flit !! Z.to_nat (Z.min 6 (Z.max 0 (f_int v))) = Some lv.
Proof.
  apply lookup_lt_is_Some_2. unfold LEVELS. rewrite length_map. simpl. lia.
Qed.

(** C4, what the code does in column 1: the guard of the below-left
    share is [(x - 1) > 0], which is false at [x = 1], so the cell below
    and to the left of a cell of column 1, which lies inside the grid,
    gets no share of the error. *)
Theorem below_left_skipped_in_column_1 (reduced : grid F) (out : grid Z)
    (y : nat) :
  has_shape HEIGHT WIDTH reduced → has_shape HEIGHT WIDTH out →
  (y + 1 < HEIGHT)%nat →
  ∃ reduced' out',
    process_cell flit fadd fsub fmul fdiv f_int (reduced, out) (y, 1%nat)
      = Some (reduced', out') ∧
    is_Some (get2 reduced (y + 1) 0) ∧
    get2 reduced' (y + 1) 0 = get2 reduced (y + 1) 0.
Proof.
  intros Hr Ho Hy.
  assert (Hw : (2 < WIDTH)%nat) by (vm_compute; lia).
  destruct (get2_in _ _ reduced y 1 Hr) as (r & v & _ & _ & Ev); [lia..|].
  destruct (level_in_table v) as [lv Elv].
  set (err16 := fdiv (fsub v lv) (flit 16)).
  destruct (add_at_in _ _ reduced y 2 (fmul (flit 7) err16) Hr)
    as (r1 & ? & _ & E1 & H1 & _ & F1); [lia..|].
  destruct (add_at_in _ _ r1 (y + 1) 1 (fmul (flit 5) err16) H1)
    as (r2 & ? & _ & E2 & H2 & _ & F2); [lia..|].
  destruct (add_at_in _ _ r2 (y + 1) 2 (fmul (flit 1) err16) H2)
    as (r3 & ? & _ & E3 & H3 & _ & F3); [lia..|].
  destruct (set2_in _ _ out y 1 (Z.min 6 (Z.max 0 (f_int v))) Ho)
    as (out' & Eo & _); [lia..|].
  exists r3, out'. split; [|split].
  - unfold process_cell. rewrite Ev. simpl. rewrite Elv. simpl.
    fold err16.
    change (1 + 1 <? WIDTH)%nat with true. cbv iota.
    change (1 + 1)%nat with 2%nat. rewrite E1. simpl.
    destruct (Nat.ltb_spec (y + 1) HEIGHT) as [_|Hge]; [|lia].
    rewrite E2. simpl.
    change (1 + 1 <? WIDTH)%nat with true. cbv iota.
    change (1 + 1)%nat with 2%nat. rewrite E3. simpl.
    rewrite Eo. reflexivity.
  - destruct (get2_in _ _ reduced (y + 1) 0 Hr) as (? & v0 & _ & _ & E0);
      [lia..|]. rewrite E0. eexists. reflexivity.
  - rewrite F3, F2, F1; [reflexivity|..]; intros [=]; lia.
Qed.

(** From column 2 on the below-left share is paid: the cell below and to
    the left gets 3/16 of the error. *)
Lemma below_left_share_from_column_2 (reduced : grid F) (out : grid Z)
    (y x : nat) :
  has_shape HEIGHT WIDTH reduced → has_shape HEIGHT WIDTH out →
  (y + 1 < HEIGHT)%nat → (2 <= x)%nat → (x + 1 < WIDTH)%nat →
  ∃ reduced' out' v lv u,
    process_cell flit fadd fsub fmul fdiv f_int (reduced, out) (y, x)
      = Some (reduced', out') ∧
    get2 reduced y x = Some v ∧
    LEVELS flit !! Z.to_nat (Z.min 6 (Z.max 0 (f_int v))) = Some lv ∧
    get2 reduced (y + 1) (x - 1) = Some u ∧
    get2 reduced' (y + 1) (x - 1)
      = Some (fadd u (fmul (flit 3) (fdiv (fsub v lv) (flit 16)))).
Proof.
  intros Hr Ho Hy Hx Hx'.
  destruct (get2_in _ _ reduced y x Hr) as (r & v & _ & _ & Ev); [lia..|].
  destruct (level_in_table v) as [lv Elv].
  set (err16 := fdiv (fsub v lv) (flit 16)).
  destruct (add_at_in _ _ reduced y (x + 1) (fmul (flit 7) err16) Hr)
    as (r1 & ? & _ & E1 & H1 & _ & F1); [lia..|].
  destruct (add_at_in _ _ r1 (y + 1) x (fmul (flit 5) err16) H1)
    as (r2 & ? & _ & E2 & H2 & _ & F2); [lia..|].
  destruct (add_at_in _ _ r2 (y + 1) (x + 1) (fmul (flit 1) err16) H2)
    as (r3 & ? & _ & E3 & H3 & _ & F3); [lia..|].
  destruct (add_at_in _ _ r3 (y + 1) (x - 1) (fmul (flit 3) err16) H3)
    as (r4 & u & Eu & E4 & H4 & G4 & _); [lia..|].
  destruct (set2_in _ _ out y x (Z.min 6 (Z.max 0 (f_int v))) Ho)
    as (out' & Eo & _); [lia..|].
  exists r4, out', v, lv, u. split; [|split; [|split; [|split]]];
    try assumption.
  - unfold process_cell. rewrite Ev. simpl. rewrite Elv. simpl.
    fold err16.
    destruct (Nat.ltb_spec (x + 1) WIDTH) as [_|Hge]; [|lia].
    rewrite E1. simpl.
    destruct (Nat.ltb_spec (y + 1) HEIGHT) as [_|Hge]; [|lia].
    rewrite E2. simpl. rewrite E3. simpl.
    destruct (Z.ltb_spec 0 (Z.of_nat x - 1)) as [_|Hge]; [|lia].
    rewrite E4. simpl. rewrite Eo. reflexivity.
  - rewrite <- Eu, F3, F2, F1; [reflexivity|..]; intros [=]; lia.
Qed.
End DisperserFacts.

Lemma below_left_skipped_in_column_1_witness :
  has_shape HEIGHT WIDTH (replicate HEIGHT (replicate WIDTH (3 # 1)%Q)) ∧
  has_shape HEIGHT WIDTH (zeros2 HEIGHT WIDTH) ∧
  (0 + 1 < HEIGHT)%nat ∧
  ∃ reduced' out',
    process_cell (fun q => q) Qplus Qminus Qmult Qdiv Qfloor
                 (replicate HEIGHT (replicate WIDTH (3 # 1)%Q),
                  zeros2 HEIGHT WIDTH) (0%nat, 1%nat)
      = Some (reduced', out') ∧
    is_Some (get2 (replicate HEIGHT (replicate WIDTH (3 # 1)%Q)) (0 + 1) 0) ∧
    get2 reduced' (0 + 1) 0
      = get2 (replicate HEIGHT (replicate WIDTH (3 # 1)%Q)) (0 + 1) 0.
Proof.
  split; [apply replicate_shape|]. split; [apply zeros2_shape|].
  split; [vm_compute; lia|].
  apply (below_left_skipped_in_column_1 (fun q => q) Qplus Qminus Qmult Qdiv
           Qfloor _ _ 0%nat (replicate_shape _ _ _) (zeros2_shape _ _)).
  vm_compute. lia.
Defined.

(** ** The record of one frame *)

Lemma encode_matrix_bytes (ranks : grid Z) :
  Forall (fun row => row ≡ₚ [0; 1; 2; 3; 4; 5; 6]) ranks →
  ∃ bytes, encode_matrix ranks = Some bytes ∧
           length bytes = (2 * length ranks)%nat ∧
           Forall (fun b => 0 <= b < 256) bytes.
Proof.
  intros Hp. unfold encode_matrix.
  destruct (for_loop_count
              (fun out row =>
                 encoding ← row_encoding row;
                 let low_byte := encoding mod 256 in
                 let high_byte := (encoding - low_byte) / 256 in
                 Some (out ++ [high_byte; low_byte]))
              (fun k out => length out = (2 * k)%nat ∧
                            Forall (fun b => 0 <= b < 256) out)
              (fun row => row ≡ₚ [0; 1; 2; 3; 4; 5; 6]) ranks [])
    as (bytes & E & Hl & Hb).
  - intros k out row _ [Hl Hb] Hrow.
    destruct (rank_row_round_trip row Hrow) as (e & Ee & He & _).
    rewrite Ee. simpl. eexists. split; [reflexivity|].
    pose proof (Z.div_mod e 256 ltac:(lia)) as Hdm.
    pose proof (Z.mod_pos_bound e 256 ltac:(lia)) as Hm.
    replace (e - e mod 256) with (e / 256 * 256) by lia.
    rewrite Z.div_mul by lia. split.
    + rewrite length_app. simpl. lia.
    + apply Forall_app. split; [assumption|].
      repeat constructor; lia.
  - split; [reflexivity | constructor].
  - assumption.
  - exists bytes. auto.
Qed.

(** The value of [convert_huffman] when the shapes agree, with the
    padding written as the code computes it. *)
Lemma convert_huffman_value (frame markov_frame : grid Z)
    (cds ws : list pystr) :
  shape frame = shape markov_frame → rect markov_frame →
  mapM (codeword cds) (mjoin markov_frame) = Some ws →
  (length (mjoin ws ++
           replicate ((8 - length (mjoin ws) mod 8) mod 8) "0"%char)
     mod 8 = 0)%nat ∧
  convert_huffman frame markov_frame cds =
    Some ((fun k =>
             msb_first
               (take 8 (drop (k * 8)
                  (mjoin ws ++
                   replicate ((8 - length (mjoin ws) mod 8) mod 8) "0"%char))))
            <$> seq 0 (length (mjoin ws ++
                               replicate ((8 - length (mjoin ws) mod 8) mod 8)
                                         "0"%char) / 8)).
Proof.
  intros Hs Hr Hws.
  set (pad := ((8 - length (mjoin ws) mod 8) mod 8)%nat).
  set (bits := mjoin ws ++ replicate pad "0"%char).
  assert (Hm : (length bits mod 8 = 0)%nat).
  { unfold bits. rewrite length_app, length_replicate. unfold pad.
    pose proof (Nat.mod_upper_bound (length (mjoin ws)) 8 ltac:(lia)).
    pose proof (Nat.div_mod_eq (length (mjoin ws)) 8).
    destruct (decide (length (mjoin ws) mod 8 = 0)%nat) as [E|E].
    - rewrite E. simpl. rewrite Nat.add_0_r. assumption.
    - rewrite (Nat.mod_small (8 - _) 8) by lia.
      replace (length (mjoin ws) + (8 - length (mjoin ws) mod 8))%nat
        with ((1 + length (mjoin ws) / 8) * 8)%nat by lia.
      apply Nat.Div0.mod_mul. }
  split; [assumption|].
  assert (Hlen : (length bits = length bits / 8 * 8)%nat).
  { pose proof (Nat.div_mod_eq (length bits) 8). lia. }
  unfold convert_huffman. rewrite Hs.
  destruct (shape markov_frame) as [h w] eqn:Es.
  pose proof (raster_cells markov_frame Hr) as Hcells.
  rewrite Es in Hcells. simpl in Hcells.
  rewrite (append_loop _ (codeword cds) _ _ _ [] Hcells Hws). simpl.
  fold pad. fold bits. apply pack_octets. assumption.
Qed.

(** Every quantized frame gets a record: 14 bytes for the rank matrix, 6
    for the tree, and the packed code words. *)
Lemma frame_record_total (frame : grid Z) :
  rect frame → quantized frame →
  ∃ matrix_data tree_data chars,
    frame_record frame = Some (matrix_data, tree_data, chars) ∧
    length matrix_data = 14%nat ∧ length tree_data = 6%nat.
Proof.
  intros Hr Hq.
  destruct (compute_markov_spec frame Hr Hq)
    as (out & ranks & cnt & E & _ & Hoq & Hl & Hp & Hc & _).
  destruct (main_loop_shapes_agree frame out ranks cnt Hr Hq E) as [Hs Hro].
  destruct (compute_huffman_final cnt) as (cds & t & Eh & Lc & Lt & _); [lia|].
  rewrite Hc in Lc, Lt.
  destruct (mapM_each (codeword cds) (fun _ => True) (mjoin out))
    as (ws & Ews & _).
  { eapply Forall_impl; [apply Forall_join; exact Hoq|]. simpl.
    intros v Hv. unfold codeword.
    rewrite Lc, (py_index_nonneg 7 v) by lia. simpl.
    destruct (lookup_lt_is_Some_2 cds (Z.to_nat v)) as [c Ecw]; [lia|].
    exists c. auto. }
  destruct (convert_huffman_value frame out cds ws (eq_sym Hs) Hro Ews)
    as (_ & Ec).
  destruct (encode_matrix_bytes ranks Hp) as (md & Em & Lm & _).
  eexists md, (encode_tree t), _.
  split; [|split].
  - unfold frame_record. rewrite E. simpl. rewrite Eh. simpl.
    rewrite Ec. simpl. rewrite Em. reflexivity.
  - lia.
  - unfold encode_tree. rewrite length_fmap, length_drop, Lt. reflexivity.
Qed.

(** ** More on the result of [compute_huffman] *)

Lemma walk_extend n t t' node bits s :
  walk n t node bits = Some s → walk n (t ++ t') node bits = Some s.
Proof.
  revert node. induction bits as [|b bits IH]; intros node H; simpl in *.
  - assumption.
  - destruct (node <? n)%nat; [discriminate|].
    destruct (t !! node) as [lr|] eqn:E; [|discriminate]. simpl in H.
    rewrite (lookup_app_l_Some _ _ _ _ E). simpl.
    destruct (Ascii.eqb b "0"); [apply IH; assumption|].
    destruct (Ascii.eqb b "1"); [apply IH; assumption|discriminate].
Qed.

Lemma children_app t1 t2 : children (t1 ++ t2) = children t1 ++ children t2.
Proof. unfold children. apply bind_app. Qed.

Lemma huffman_start_inv2 (cnts : list Z) :
  hinv2 (length cnts) (huffman_start cnts).
Proof.
  assert (Hcw : ∀ s, cw (codes (huffman_start cnts)) s = []).
  { intros s. unfold cw, huffman_start. simpl. rewrite list_lookup_fmap.
    destruct (cnts !! s); reflexivity. }
  assert (Hlt : length (tree (huffman_start cnts)) = length cnts).
  { unfold huffman_start. simpl. apply length_imap. }
  constructor.
  - intros s. rewrite Hcw. constructor.
  - intros s. rewrite Hcw, Hlt. simpl. lia.
  - rewrite Hlt, drop_ge by lia.
    change (children []) with (@nil nat). rewrite app_nil_r.
    unfold huffman_start. simpl. rewrite sorted_reverse_perm.
    change (e_tree <$> sizes (seed cnts) ≡ₚ seq 0 (length cnts)).
    rewrite seed_ids. reflexivity.
  - intros e s He Hs. rewrite Hcw.
    unfold huffman_start in He. simpl in He. rewrite sorted_reverse_perm in He.
    apply (seed_entry cnts) in He as (i & c & Hc & ->).
    unfold e_chars in Hs. simpl in Hs. apply list_elem_of_singleton in Hs.
    subst s. reflexivity.
Qed.

Lemma merge_step_inv2 n st st' :
  hinv n st → hinv2 n st → (1 < length (sizes st))%nat →
  merge_step st = Some st' → hinv2 n st'.
Proof.
  intros Hinv H2 Hlen E. destruct (pop_two _ Hlen) as (rest & l & r & Hs).
  destruct (merge_step_spec n st rest l r Hinv Hs)
    as (cs' & E' & _ & Hl & Hr & Ho).
  rewrite E in E'. injection E' as ->.
  assert (Hn : (n <= length (tree st))%nat).
  { pose proof (inv_depth _ _ H2 0%nat). lia. }
  assert (Hcases : ∀ s, cw cs' s = cw (codes st) s ∨
                        ∃ b, is_bit b ∧ cw cs' s = b :: cw (codes st) s).
  { intros s. destruct (decide (s ∈ e_chars l)) as [Hsl|Hsl].
    - right. exists "0"%char. split; [left; reflexivity | auto].
    - destruct (decide (s ∈ e_chars r)) as [Hsr|Hsr].
      + right. exists "1"%char. split; [right; reflexivity | auto].
      + left. auto. }
  pose proof (inv_path _ _ H2) as Hpath. rewrite Hs in Hpath.
  constructor; simpl.
  - intros s. destruct (Hcases s) as [->|(b & Hb & ->)].
    + apply (inv_bits _ _ H2).
    + constructor; [assumption | apply (inv_bits _ _ H2)].
  - intros s. pose proof (inv_depth _ _ H2 s) as Hd.
    rewrite length_app. simpl.
    destruct (Hcases s) as [->|(b & Hb & ->)]; simpl; lia.
  - rewrite reinsert_perm, length_app. simpl.
    rewrite drop_app_le by assumption. rewrite children_app.
    pose proof (inv_parent _ _ H2) as Hp. rewrite Hs in Hp.
    rewrite fmap_app, <- app_assoc in Hp. simpl in Hp.
    rewrite Nat.add_1_r, seq_S. simpl. rewrite <- Hp.
    unfold e_tree at 1. simpl.
    change (children [(e_tree l, e_tree r)]) with [e_tree l; e_tree r].
    rewrite <- Permutation_cons_append. constructor.
    apply Permutation_app_head.
    apply (Permutation_app_comm _ [e_tree l; e_tree r]).
  - intros e s He Hse. rewrite reinsert_perm in He.
    apply elem_of_cons in He as [->|He].
    + unfold e_tree at 1. unfold e_chars in Hse. simpl in Hse. simpl.
      destruct (Nat.ltb_spec (length (tree st)) n) as [Hlt|_]; [lia|].
      apply elem_of_app in Hse as [Hsl|Hsr].
      * rewrite (Hl s Hsl). simpl.
        destruct (Nat.ltb_spec (length (tree st)) n) as [Hlt|_]; [lia|].
        rewrite lookup_app_r, Nat.sub_diag by lia. simpl.
        apply walk_extend. apply Hpath; [|assumption].
        rewrite elem_of_app, !elem_of_cons. auto.
      * rewrite (Hr s Hsr). simpl.
        destruct (Nat.ltb_spec (length (tree st)) n) as [Hlt|_]; [lia|].
        rewrite lookup_app_r, Nat.sub_diag by lia. simpl.
        apply walk_extend. apply Hpath; [|assumption].
        rewrite elem_of_app, !elem_of_cons. auto.
    + pose proof (inv_part _ _ Hinv) as Hpart. rewrite Hs in Hpart.
      rewrite fmap_app, join_app in Hpart. simpl in Hpart.
      rewrite app_nil_r in Hpart.
      destruct (part_split _ _ _ _ Hpart) as (_ & _ & _ & _ & _ & Hdisj).
      destruct (Hdisj e s He Hse) as [Hnl Hnr].
      rewrite (Ho s Hnl Hnr). apply walk_extend. apply Hpath; [|assumption].
      rewrite elem_of_app. auto.
Qed.

Lemma reachable_inv2 cnts st : reachable cnts st → hinv2 (length cnts) st.
Proof.
  induction 1 as [|st st' Hr IH Hlen E].
  - apply huffman_start_inv2.
  - eapply merge_step_inv2; try eassumption. apply reachable_inv. assumption.
Qed.

Lemma huffman_loop_reachable cnts fuel : ∀ st st',
  reachable cnts st → huffman_loop fuel st = Some st' →
  reachable cnts st' ∧ (length (sizes st') <= 1)%nat.
Proof.
  induction fuel as [|fuel IH]; intros st st' Hr E; simpl in E.
  - destruct (Nat.ltb_spec 1 (length (sizes st))); [discriminate|].
    injection E as <-. split; [assumption | lia].
  - destruct (Nat.ltb_spec 1 (length (sizes st))) as [Hlt|Hge].
    + destruct (merge_step st) as [st1|] eqn:E1; [|discriminate]. simpl in E.
      apply (IH st1 st'); [|assumption].
      eapply reach_step; eassumption.
    + injection E as <-. split; [assumption | lia].
Qed.

(** The result of [compute_huffman] is the last state that the loop
    reaches. *)
Lemma compute_huffman_reachable cnts cds t :
  compute_huffman cnts = Some (cds, t) →
  ∃ st, reachable cnts st ∧ codes st = cds ∧ tree st = t ∧
        (length (sizes st) <= 1)%nat.
Proof.
  unfold compute_huffman. intros E.
  destruct (huffman_loop (length cnts) (huffman_start cnts)) as [st|] eqn:El;
    [|discriminate].
  injection E as <- <-.
  destruct (huffman_loop_reachable cnts _ _ _ (reach_start cnts) El) as [Hr Hl].
  exists st. auto.
Qed.

(** X1: whatever the number [n] of counts, [compute_huffman] returns [n]
    code words and a tree of [2n - 1] nodes (two empty lists for an empty
    histogram); for [n >= 1] the code is prefix-free and its Kraft sum over
    the [n] symbols is 1. *)
Theorem compute_huffman_any_size (cnts : list Z) :
  ∃ cds t,
    compute_huffman cnts = Some (cds, t) ∧
    length cds = length cnts ∧
    length t = (2 * length cnts - 1)%nat ∧
    ((1 <= length cnts)%nat →
     prefix_free_on cds (seq 0 (length cnts)) ∧
     (kraft cds (seq 0 (length cnts)) == 1)%Q).
Proof.
  destruct (decide (1 <= length cnts)%nat) as [Hn|Hn].
  - destruct (compute_huffman_final cnts Hn)
      as (cds & t & E & Lc & Lt & [K P] & _).
    exists cds, t. auto.
  - destruct cnts; [|simpl in Hn; lia].
    exists [], []. repeat split; try reflexivity; simpl in *; lia.
Qed.

Lemma final_state (cnts : list Z) :
  (1 <= length cnts)%nat →
  ∃ st e, compute_huffman cnts = Some (codes st, tree st) ∧
          hinv (length cnts) st ∧ hinv2 (length cnts) st ∧
          sizes st = [e] ∧ e_chars e ≡ₚ seq 0 (length cnts) ∧
          length (tree st) = (2 * length cnts - 1)%nat ∧
          e_tree e = (2 * length cnts - 2)%nat ∧
          children (drop (length cnts) (tree st))
            ≡ₚ seq 0 (2 * length cnts - 2).
Proof.
  intros Hn. destruct (compute_huffman_total cnts) as (st0 & E0 & _).
  destruct (compute_huffman_reachable cnts _ _ E0) as (st & Hr & Ec & Et & Hl).
  pose proof (reachable_inv _ _ Hr) as Hinv.
  pose proof (reachable_inv2 _ _ Hr) as H2.
  pose proof (inv_part _ _ Hinv) as Hp.
  pose proof (inv_len _ _ Hinv) as Hlen.
  pose proof (inv_parent _ _ H2) as Hpar.
  destruct (sizes st) as [|e [|e' rest]] eqn:Es.
  - simpl in Hp. apply Permutation_length in Hp.
    rewrite length_seq in Hp. simpl in Hp. lia.
  - simpl in Hp, Hlen, Hpar. rewrite app_nil_r in Hp.
    assert (Hlt : length (tree st) = (2 * length cnts - 1)%nat) by lia.
    assert (Hch : Forall (fun x => (x < 2 * length cnts - 2)%nat)
                    (children (drop (length cnts) (tree st)))).
    { apply Forall_forall. intros x Hx. unfold children in Hx.
      apply list_elem_of_bind in Hx as ([a b] & Hx & Hlr).
      apply list_elem_of_lookup in Hlr as (i & Hi).
      rewrite lookup_drop in Hi.
      pose proof (lookup_lt_Some _ _ _ Hi) as Hb.
      destruct (inv_tree _ _ Hinv _ _ _ Hi ltac:(lia)) as [Ha Hb'].
      simpl in Hx. repeat (apply elem_of_cons in Hx as [->|Hx]; [lia|]).
      inversion Hx. }
    assert (Hroot : e_tree e = (2 * length cnts - 2)%nat).
    { assert (Hin : (2 * length cnts - 2)%nat
                      ∈ e_tree e :: children (drop (length cnts) (tree st))).
      { rewrite Hpar. apply elem_of_seq. lia. }
      apply elem_of_cons in Hin as [Heq|Hin]; [congruence|].
      rewrite Forall_forall in Hch. specialize (Hch _ Hin). lia. }
    rewrite <- Ec, <- Et in E0. exists st, e. split; [assumption|].
    split; [assumption|]. split; [assumption|]. split; [exact Es|].
    split; [assumption|]. split; [assumption|]. split; [assumption|].
    rewrite Hroot, Hlt in Hpar.
    replace (2 * length cnts - 1)%nat with (S (2 * length cnts - 2)) in Hpar
      by lia.
    rewrite seq_S in Hpar. simpl in Hpar.
    rewrite <- Permutation_cons_append in Hpar.
    eapply Permutation_cons_inv. eassumption.
  - simpl in Hl. lia.
Qed.

(** The characters and the lengths of the code words. *)
Lemma code_words_short (cnts : list Z) :
  (2 <= length cnts)%nat →
  ∃ cds t,
    compute_huffman cnts = Some (cds, t) ∧
    Forall (fun c => Forall is_bit c ∧
                     (1 <= length c <= length cnts - 1)%nat) cds.
Proof.
  intros Hn.
  destruct (final_state cnts ltac:(lia))
    as (st & e & E & Hinv & H2 & Es & Hp & Hlt & _).
  exists (codes st), (tree st). split; [assumption|].
  destruct (compute_huffman_final cnts ltac:(lia))
    as (cds & t & E' & _ & _ & Hg & _).
  rewrite E in E'. injection E' as <- <-.
  apply Forall_lookup. intros s c Hc.
  assert (Hcw : cw (codes st) s = c) by (unfold cw; rewrite Hc; reflexivity).
  assert (Hs : (s < length cnts)%nat).
  { rewrite <- (inv_codes _ _ Hinv). eapply lookup_lt_Some. eassumption. }
  rewrite <- Hcw. split; [apply (inv_bits _ _ H2)|].
  pose proof (inv_depth _ _ H2 s) as Hd.
  pose proof (group_ok_nonempty _ _ s Hn Hs Hg) as Hne.
  destruct (cw (codes st) s); [congruence|]. simpl in *. lia.
Qed.

(** X2: for a histogram of [n >= 2] counts every code word is made of the
    characters ['0'] and ['1'] only and has between 1 and [n - 1] of them
    (between 1 and 6 bits for the seven rank symbols). *)
Theorem code_words_are_short_bit_strings (cnts : list Z) :
  (2 <= length cnts)%nat →
  ∃ cds t,
    compute_huffman cnts = Some (cds, t) ∧
    Forall (fun c => Forall is_bit c ∧
                     (1 <= length c <= length cnts - 1)%nat) cds.
Proof. apply code_words_short. Qed.

Lemma code_words_are_short_bit_strings_witness :
  (2 <= length [4; 0; 0; 0; 0; 0; 0])%nat ∧
  ∃ cds t,
    compute_huffman [4; 0; 0; 0; 0; 0; 0] = Some (cds, t) ∧
    Forall (fun c => Forall is_bit c ∧
                     (1 <= length c <= length [4; 0; 0; 0; 0; 0; 0] - 1)%nat)
           cds.
Proof.
  split; [simpl; lia|].
  apply (code_words_are_short_bit_strings [4; 0; 0; 0; 0; 0; 0]). simpl. lia.
Defined.

(** X3: in the tree of a histogram of [n >= 1] counts every node but the
    last is named exactly once as a child of an internal node, and the
    children of a node have smaller ids than the node: the list is a binary
    tree whose root is its last entry, node [2n - 2]. *)
Theorem tree_is_a_binary_tree (cnts : list Z) :
  (1 <= length cnts)%nat →
  ∃ cds t,
    compute_huffman cnts = Some (cds, t) ∧
    length t = (2 * length cnts - 1)%nat ∧
    children (drop (length cnts) t) ≡ₚ seq 0 (2 * length cnts - 2) ∧
    (∀ k, (k < length cnts)%nat → t !! k = Some (k, k)) ∧
    (∀ k l r, t !! k = Some (l, r) → (length cnts <= k)%nat →
              (l < k)%nat ∧ (r < k)%nat).
Proof.
  intros Hn.
  destruct (final_state cnts Hn)
    as (st & e & E & Hinv & H2 & Es & Hp & Hlt & Hroot & Hch).
  exists (codes st), (tree st). split; [assumption|].
  split; [assumption|]. split; [assumption|].
  split; [apply (inv_leaves _ _ Hinv) | apply (inv_tree _ _ Hinv)].
Qed.

Lemma tree_is_a_binary_tree_witness :
  (1 <= length [4; 0; 0; 0; 0; 0; 0])%nat ∧
  ∃ cds t,
    compute_huffman [4; 0; 0; 0; 0; 0; 0] = Some (cds, t) ∧
    length t = (2 * length [4; 0; 0; 0; 0; 0; 0]%Z - 1)%nat ∧
    children (drop (length [4; 0; 0; 0; 0; 0; 0]%Z) t)
      ≡ₚ seq 0 (2 * length [4; 0; 0; 0; 0; 0; 0]%Z - 2) ∧
    (∀ k, (k < length [4; 0; 0; 0; 0; 0; 0]%Z)%nat → t !! k = Some (k, k)) ∧
    (∀ k l r, t !! k = Some (l, r) →
              (length [4; 0; 0; 0; 0; 0; 0]%Z <= k)%nat →
              (l < k)%nat ∧ (r < k)%nat).
Proof.
  split; [simpl; lia|].
  apply (tree_is_a_binary_tree [4; 0; 0; 0; 0; 0; 0]). simpl. lia.
Defined.

(** X4: the code word of a symbol is its path in the tree: starting at the
    root (the last node) and going left on ['0'] and right on ['1'], the
    code word of symbol [s] ends at leaf [s]. *)
Theorem code_word_is_tree_path (cnts : list Z) (s : nat) :
  (s < length cnts)%nat →
  ∃ cds t,
    compute_huffman cnts = Some (cds, t) ∧
    walk (length cnts) t (length t - 1) (cw cds s) = Some s.
Proof.
  intros Hs.
  destruct (final_state cnts ltac:(lia))
    as (st & e & E & Hinv & H2 & Es & Hp & Hlt & Hroot & _).
  exists (codes st), (tree st). split; [assumption|].
  replace (length (tree st) - 1)%nat with (e_tree e) by lia.
  apply (inv_path _ _ H2).
  - rewrite Es. constructor.
  - rewrite Hp. apply elem_of_seq. lia.
Qed.

Lemma code_word_is_tree_path_witness :
  (3 < length [4; 0; 0; 0; 0; 0; 0])%nat ∧
  ∃ cds t,
    compute_huffman [4; 0; 0; 0; 0; 0; 0] = Some (cds, t) ∧
    walk (length [4; 0; 0; 0; 0; 0; 0]%Z) t (length t - 1) (cw cds 3) = Some 3%nat.
Proof.
  split; [simpl; lia|].
  apply (code_word_is_tree_path [4; 0; 0; 0; 0; 0; 0] 3). simpl. lia.
Defined.

(** A prefix-free code is uniquely decodable when the number of symbols is
    known, whatever follows the code words. *)
Lemma prefix_code_unique cds (S : list nat) :
  prefix_free_on cds S →
  ∀ (syms1 syms2 : list nat) (p1 p2 : pystr),
    Forall (fun s => s ∈ S) syms1 → Forall (fun s => s ∈ S) syms2 →
    length syms1 = length syms2 →
    mjoin (cw cds <$> syms1) ++ p1 = mjoin (cw cds <$> syms2) ++ p2 →
    syms1 = syms2.
Proof.
  intros Hpf. induction syms1 as [|a syms1 IH]; intros [|b syms2] p1 p2 H1 H2 Hl E;
    try discriminate; [reflexivity|].
  apply Forall_cons in H1 as [Ha H1]. apply Forall_cons in H2 as [Hb H2].
  simpl in E, Hl. rewrite <- !app_assoc in E.
  assert (Hab : a = b).
  { destruct (decide (a = b)) as [|Hne]; [assumption|]. exfalso.
    match type of E with ?X = _ =>
      destruct (prefix_weak_total (cw cds a) (cw cds b) X) as [Hp|Hp]
    end.
    - eexists. reflexivity.
    - eexists. exact E.
    - exact (Hpf a b Ha Hb Hne Hp).
    - exact (Hpf b a Hb Ha (not_eq_sym Hne) Hp). }
  subst b. f_equal. apply app_inv_head in E.
  apply (IH syms2 p1 p2); [assumption|assumption|lia|assumption].
Qed.

(** X5: the code of a histogram is uniquely decodable: two sequences of the
    same number of symbols whose code words, written one after the other
    and followed by anything (the padding), give the same string are the
    same sequence. *)
Theorem code_is_uniquely_decodable (cnts : list Z) :
  (1 <= length cnts)%nat →
  ∃ cds t,
    compute_huffman cnts = Some (cds, t) ∧
    ∀ (syms1 syms2 : list nat) (p1 p2 : pystr),
      Forall (fun s => (s < length cnts)%nat) syms1 →
      Forall (fun s => (s < length cnts)%nat) syms2 →
      length syms1 = length syms2 →
      mjoin (cw cds <$> syms1) ++ p1 = mjoin (cw cds <$> syms2) ++ p2 →
      syms1 = syms2.
Proof.
  intros Hn.
  destruct (compute_huffman_final cnts Hn) as (cds & t & E & _ & _ & [_ P] & _).
  exists cds, t. split; [assumption|].
  intros syms1 syms2 p1 p2 H1 H2 Hl Heq.
  apply (prefix_code_unique cds (seq 0 (length cnts)) P syms1 syms2 p1 p2);
    try assumption.
  - eapply Forall_impl; [exact H1|]. simpl. intros s Hs.
    apply elem_of_seq. lia.
  - eapply Forall_impl; [exact H2|]. simpl. intros s Hs.
    apply elem_of_seq. lia.
Qed.

Lemma code_is_uniquely_decodable_witness :
  (1 <= length [4; 0; 0; 0; 0; 0; 0])%nat ∧
  ∃ cds t,
    compute_huffman [4; 0; 0; 0; 0; 0; 0] = Some (cds, t) ∧
    ∀ (syms1 syms2 : list nat) (p1 p2 : pystr),
      Forall (fun s => (s < length [4; 0; 0; 0; 0; 0; 0]%Z)%nat) syms1 →
      Forall (fun s => (s < length [4; 0; 0; 0; 0; 0; 0]%Z)%nat) syms2 →
      length syms1 = length syms2 →
      mjoin (cw cds <$> syms1) ++ p1 = mjoin (cw cds <$> syms2) ++ p2 →
      syms1 = syms2.
Proof.
  split; [simpl; lia|].
  apply (code_is_uniquely_decodable [4; 0; 0; 0; 0; 0; 0]). simpl. lia.
Defined.

(** ** More on [encode_matrix] *)

(** A loop raises when its body raises on one of the items, whatever the
    state then is, provided the states before keep an invariant. *)
Lemma for_loop_raises {S A : Type} (body : S → A → option S)
    (I : S → Prop) (l1 l2 : list A) (a : A) : ∀ s,
  (∀ s b s', I s → body s b = Some s' → I s') →
  (∀ s, I s → body s a = None) →
  I s → for_loop body s (l1 ++ a :: l2) = None.
Proof.
  intros s Hstep Hfail. revert s.
  induction l1 as [|b l1 IH]; intros s Hs; simpl.
  - rewrite (Hfail s Hs). reflexivity.
  - destruct (body s b) as [s'|] eqn:E; [|reflexivity]. simpl.
    apply IH. eapply Hstep; eassumption.
Qed.

Lemma py_list_index_None {A : Type} `{EqDecision A} (l : list A) (v : A) :
  v ∉ l → py_list_index l v = None.
Proof.
  induction l as [|x l IH]; intros H; simpl; [reflexivity|].
  apply not_elem_of_cons in H as [Hne H].
  destruct (decide (x = v)); [congruence|]. rewrite (IH H). reflexivity.
Qed.

Lemma row_encoding_raises (row : list Z) (k : nat) :
  (k < 7)%nat → Z.of_nat k ∉ row → row_encoding row = None.
Proof.
  intros Hk Hnot. unfold row_encoding.
  change (length CHARSET) with 7%nat.
  assert (Hsplit : seq 0 7 = seq 0 k ++ k :: seq (S k) (7 - S k)).
  { replace 7%nat with (k + S (7 - S k))%nat at 1 by lia.
    rewrite seq_app. reflexivity. }
  rewrite Hsplit at 2.
  rewrite (for_loop_raises (lehmer_step row) (fun _ => True)); auto.
  intros [[e f] idxs] _. unfold lehmer_step.
  rewrite (py_list_index_None row (Z.of_nat k) Hnot). reflexivity.
Qed.

(** X6: [encode_matrix] raises ([ValueError] of [list.index]) as soon as
    one row of the matrix lacks one of the ranks 0..6. *)
Theorem encode_matrix_raises_on_missing_rank (ranks : grid Z) (row : list Z)
    (k : nat) :
  row ∈ ranks → (k < 7)%nat → (Z.of_nat k ∉ row) →
  encode_matrix ranks = None.
Proof.
  intros Hrow Hk Hnot.
  apply list_elem_of_split in Hrow as (l1 & l2 & ->).
  unfold encode_matrix.
  apply (for_loop_raises _ (fun _ => True)); auto.
  intros out _. rewrite (row_encoding_raises row k Hk Hnot). reflexivity.
Qed.

Lemma encode_matrix_raises_on_missing_rank_witness :
  [0; 1; 2; 3; 4; 5; 5] ∈ [[0; 1; 2; 3; 4; 5; 6]; [0; 1; 2; 3; 4; 5; 5]] ∧
  (6 < 7)%nat ∧ (Z.of_nat 6 ∉ [0; 1; 2; 3; 4; 5; 5]) ∧
  encode_matrix [[0; 1; 2; 3; 4; 5; 6]; [0; 1; 2; 3; 4; 5; 5]] = None.
Proof.
  assert (H1 : [0; 1; 2; 3; 4; 5; 5]
                 ∈ [[0; 1; 2; 3; 4; 5; 6]; [0; 1; 2; 3; 4; 5; 5]]).
  { apply (bool_decide_unpack _). reflexivity. }
  assert (H2 : Z.of_nat 6 ∉ [0; 1; 2; 3; 4; 5; 5]).
  { apply (bool_decide_unpack _). reflexivity. }
  split; [exact H1|]. split; [lia|]. split; [exact H2|].
  exact (encode_matrix_raises_on_missing_rank _ _ 6 H1 ltac:(lia) H2).
Defined.

Lemma encode_matrix_from (ranks : grid Z) : ∀ (acc : list Z),
  Forall (fun row => row ≡ₚ [0; 1; 2; 3; 4; 5; 6]) ranks →
  ∃ bytes, for_loop (fun out row =>
                       encoding ← row_encoding row;
                       let low_byte := encoding mod 256 in
                       let high_byte := (encoding - low_byte) / 256 in
                       Some (out ++ [high_byte; low_byte])) acc ranks
             = Some (acc ++ bytes) ∧
           length bytes = (2 * length ranks)%nat ∧
           Forall (fun b => 0 <= b < 256) bytes ∧
           decode_matrix bytes = ranks.
Proof.
  induction ranks as [|row ranks IH]; intros acc Hp.
  - exists []. simpl. rewrite app_nil_r. auto.
  - apply Forall_cons in Hp as [Hrow Hp].
    destruct (rank_row_round_trip row Hrow) as (e & Ee & He & Hd).
    pose proof (Z.div_mod e 256 ltac:(lia)) as Hdm.
    pose proof (Z.mod_pos_bound e 256 ltac:(lia)) as Hm.
    assert (Hhi : (e - e mod 256) / 256 = e / 256).
    { replace (e - e mod 256) with (e / 256 * 256) by lia.
      apply Z.div_mul. lia. }
    destruct (IH (acc ++ [e / 256; e mod 256]) Hp) as (bytes & E & Hl & Hb & Hr).
    exists ([e / 256; e mod 256] ++ bytes).
    split; [|split; [|split]].
    + cbn [for_loop]. rewrite Ee. cbn [mbind option_bind].
      cbv zeta. rewrite Hhi, app_assoc. exact E.
    + simpl. lia.
    + repeat constructor; try lia. assumption.
    + cbn [app decode_matrix].
      replace (e / 256 * 256 + e mod 256) with e by lia.
      rewrite Hd, Hr. reflexivity.
Qed.

(** X7: for a matrix whose rows are permutations of 0..6, [encode_matrix]
    returns two bytes per row (14 for the 7 rows of a rank matrix), each
    in 0..255, and reading them back, two by two, gives the matrix: the
    serialization loses nothing. *)
Theorem encode_matrix_round_trip (ranks : grid Z) :
  Forall (fun row => row ≡ₚ [0; 1; 2; 3; 4; 5; 6]) ranks →
  ∃ bytes, encode_matrix ranks = Some bytes ∧
           length bytes = (2 * length ranks)%nat ∧
           Forall (fun b => 0 <= b < 256) bytes ∧
           decode_matrix bytes = ranks.
Proof.
  intros Hp. destruct (encode_matrix_from ranks [] Hp) as (bytes & E & H).
  exists bytes. split; [exact E | exact H].
Qed.

Lemma encode_matrix_round_trip_witness :
  Forall (fun row => row ≡ₚ [0; 1; 2; 3; 4; 5; 6])
         [[6; 5; 4; 3; 2; 1; 0]; [0; 1; 2; 3; 4; 5; 6]] ∧
  ∃ bytes,
    encode_matrix [[6; 5; 4; 3; 2; 1; 0]; [0; 1; 2; 3; 4; 5; 6]] = Some bytes ∧
    length bytes = (2 * length [[6; 5; 4; 3; 2; 1; 0]; [0; 1; 2; 3; 4; 5; 6]])%nat ∧
    Forall (fun b => 0 <= b < 256) bytes ∧
    decode_matrix bytes = [[6; 5; 4; 3; 2; 1; 0]; [0; 1; 2; 3; 4; 5; 6]].
Proof.
  assert (H : Forall (fun row => row ≡ₚ [0; 1; 2; 3; 4; 5; 6])
                [[6; 5; 4; 3; 2; 1; 0]; [0; 1; 2; 3; 4; 5; 6]]).
  { constructor; [exact (reverse_Permutation [0; 1; 2; 3; 4; 5; 6])|].
    constructor; [reflexivity | constructor]. }
  split; [exact H|]. exact (encode_matrix_round_trip _ H).
Defined.

(** The 5040 integers, each decoded and encoded. *)
Lemma all_integers_round_trip :
  forallb integer_round_trip (seqZ 0 5040) = true.
Proof. vm_compute. reflexivity. Qed.

(** X8: every integer of [0, 5039] is the code of a rank row: the row it
    decodes to is a permutation of 0..6 and [row_encoding] maps that row
    back to the integer. With the round trip in the other direction, rank
    rows and the integers 0..5039 correspond one to one. *)
Theorem every_integer_is_a_row_code (e : Z) :
  0 <= e <= 5039 →
  decode_row e ≡ₚ [0; 1; 2; 3; 4; 5; 6] ∧
  row_encoding (decode_row e) = Some e.
Proof.
  intros He. pose proof all_integers_round_trip as H.
  rewrite forallb_forall in H.
  assert (Hin : In e (seqZ 0 5040)).
  { apply list_elem_of_In, elem_of_seqZ. lia. }
  specialize (H e Hin). unfold integer_round_trip in H. cbv zeta in H.
  apply andb_true_iff in H as [H H3]. apply andb_true_iff in H as [H1 H2].
  apply Nat.eqb_eq in H1.
  destruct (row_encoding (decode_row e)) as [e'|]; [|discriminate].
  apply Z.eqb_eq in H3. subst e'. split; [|reflexivity].
  symmetry. apply NoDup_Permutation_bis.
  - apply NoDup_ListNoDup. apply (bool_decide_unpack _). reflexivity.
  - rewrite H1. reflexivity.
  - intros k Hk. rewrite forallb_forall in H2. specialize (H2 k Hk).
    apply existsb_exists in H2 as (v & Hv & Hkv).
    apply Z.eqb_eq in Hkv. subst v. assumption.
Qed.

Lemma every_integer_is_a_row_code_witness :
  0 <= 5039 <= 5039 ∧
  decode_row 5039 ≡ₚ [0; 1; 2; 3; 4; 5; 6] ∧
  row_encoding (decode_row 5039) = Some 5039.
Proof.
  split; [lia|]. apply (every_integer_is_a_row_code 5039). lia.
Defined.

(** ** The tree and the code table *)

Lemma children_lookup (t : list (nat * nat)) : ∀ i l r,
  t !! i = Some (l, r) →
  children t !! (2 * i)%nat = Some l ∧ children t !! (2 * i + 1)%nat = Some r.
Proof.
  induction t as [|a t IH]; intros i l r H; [discriminate|].
  destruct i as [|i].
  - injection H as ->. split; reflexivity.
  - simpl in H. destruct (IH i l r H) as [Hl Hr].
    replace (2 * S i)%nat with (S (S (2 * i))) by lia.
    replace (S (S (2 * i)) + 1)%nat with (S (S (2 * i + 1))) by lia.
    split; assumption.
Qed.

Lemma walk_snoc n t node bits b :
  walk n t node (bits ++ [b]) = p ← walk n t node bits; walk n t p [b].
Proof.
  revert node. induction bits as [|c bits IH]; intros node; simpl.
  - reflexivity.
  - destruct (node <? n)%nat; [reflexivity|].
    destruct (t !! node) as [lr|]; [|reflexivity]. simpl.
    destruct (Ascii.eqb c "0"); [apply IH|].
    destruct (Ascii.eqb c "1"); [apply IH | reflexivity].
Qed.

(** One step down the tree: where it starts, which way it goes. *)
Lemma walk_step n t p b s :
  walk n t p [b] = Some s →
  ∃ side, (side < 2)%nat ∧ (n <= p)%nat ∧
          b = (if decide (side = 0%nat) then "0" else "1")%char ∧
          children (drop n t) !! (2 * (p - n) + side)%nat = Some s.
Proof.
  simpl. destruct (Nat.ltb_spec p n) as [|Hp]; [discriminate|].
  destruct (t !! p) as [[l r]|] eqn:E; [|discriminate]. simpl.
  assert (Hd : drop n t !! (p - n)%nat = Some (l, r)).
  { rewrite lookup_drop. replace (n + (p - n))%nat with p by lia. assumption. }
  destruct (children_lookup _ _ _ _ Hd) as [Hl Hr].
  destruct (Ascii.eqb_spec b "0") as [->|_].
  - intros [= <-]. exists 0%nat. rewrite Nat.add_0_r. repeat split; auto; lia.
  - destruct (Ascii.eqb_spec b "1") as [->|_]; [|discriminate].
    intros [= <-]. exists 1%nat. repeat split; auto; lia.
Qed.

(** In a tree where no node is named twice as a child and the root is
    never named, two paths from the root to the same node are the same. *)
Lemma walk_unique n t root :
  NoDup (children (drop n t)) → root ∉ children (drop n t) →
  ∀ b1 b2 s, walk n t root b1 = Some s → walk n t root b2 = Some s → b1 = b2.
Proof.
  intros Hnd Hroot.
  assert (Hnot : ∀ bits b, walk n t root (bits ++ [b]) ≠ Some root).
  { intros bits b H. rewrite walk_snoc in H.
    destruct (walk n t root bits) as [p|]; [|discriminate]. simpl in H.
    apply walk_step in H as (side & _ & _ & _ & H).
    apply Hroot. eapply list_elem_of_lookup_2. eassumption. }
  induction b1 as [|x b1 IH] using rev_ind; intros b2 s H1 H2.
  - simpl in H1. injection H1 as <-.
    destruct b2 as [|y b2 _] using rev_ind; [reflexivity|].
    exfalso. exact (Hnot _ _ H2).
  - destruct b2 as [|y b2 _] using rev_ind.
    + simpl in H2. injection H2 as <-. exfalso. exact (Hnot _ _ H1).
    + rewrite walk_snoc in H1, H2.
      destruct (walk n t root b1) as [p1|] eqn:E1; [|discriminate].
      destruct (walk n t root b2) as [p2|] eqn:E2; [|discriminate].
      simpl in H1, H2.
      apply walk_step in H1 as (s1 & Hs1 & Hp1 & -> & Hc1).
      apply walk_step in H2 as (s2 & Hs2 & Hp2 & -> & Hc2).
      pose proof (NoDup_lookup _ _ _ _ Hnd Hc1 Hc2) as Heq.
      assert (p1 = p2 ∧ s1 = s2) as [-> ->] by lia.
      rewrite (IH b2 p2 eq_refl E2). reflexivity.
Qed.

Lemma fmap_inj_on {A B : Type} (f : A → B) (P : A → Prop) (l1 : list A) :
  (∀ x y, P x → P y → f x = f y → x = y) →
  ∀ l2, Forall P l1 → Forall P l2 → f <$> l1 = f <$> l2 → l1 = l2.
Proof.
  intros Hinj. induction l1 as [|x l1 IH]; intros [|y l2] H1 H2 E;
    try discriminate; [reflexivity|].
  apply Forall_cons in H1 as [Hx H1]. apply Forall_cons in H2 as [Hy H2].
  simpl in E. injection E as Exy E.
  rewrite (Hinj x y Hx Hy Exy), (IH l2 H1 H2 E). reflexivity.
Qed.

(** The facts on a result of [compute_huffman] that the next theorems
    use. *)
Lemma result_facts (cnts : list Z) cds t :
  (1 <= length cnts)%nat → compute_huffman cnts = Some (cds, t) →
  length cds = length cnts ∧
  length t = (2 * length cnts - 1)%nat ∧
  children (drop (length cnts) t) ≡ₚ seq 0 (2 * length cnts - 2) ∧
  (∀ k, (k < length cnts)%nat → t !! k = Some (k, k)) ∧
  (∀ k l r, t !! k = Some (l, r) → (length cnts <= k)%nat →
            (l < k)%nat ∧ (r < k)%nat) ∧
  (∀ s, (s < length cnts)%nat →
        walk (length cnts) t (2 * length cnts - 2) (cw cds s) = Some s).
Proof.
  intros Hn E.
  destruct (final_state cnts Hn)
    as (st & e & E' & Hinv & H2 & Es & Hp & Hlt & Hroot & Hch).
  rewrite E in E'. injection E' as -> ->.
  split; [apply (inv_codes _ _ Hinv)|]. split; [assumption|].
  split; [assumption|]. split; [apply (inv_leaves _ _ Hinv)|].
  split; [apply (inv_tree _ _ Hinv)|].
  intros s Hs. rewrite <- Hroot. apply (inv_path _ _ H2).
  - rewrite Es. constructor.
  - rewrite Hp. apply elem_of_seq. lia.
Qed.

(** Two histograms of the same size with the same tree have the same
    code words. *)
Lemma same_tree_same_codes (cnts1 cnts2 : list Z) cds1 cds2 t :
  length cnts1 = length cnts2 →
  compute_huffman cnts1 = Some (cds1, t) →
  compute_huffman cnts2 = Some (cds2, t) →
  cds1 = cds2.
Proof.
  intros Hlen E1 E2.
  destruct (decide (1 <= length cnts1)%nat) as [Hn|Hn].
  - destruct (result_facts cnts1 cds1 t Hn E1) as (L1 & Lt & Hch & _ & _ & W1).
    destruct (result_facts cnts2 cds2 t ltac:(lia) E2)
      as (L2 & _ & _ & _ & _ & W2).
    rewrite <- Hlen in L2, W2.
    assert (Hnd : NoDup (children (drop (length cnts1) t))).
    { rewrite Hch. apply NoDup_seq. }
    assert (Hroot : (2 * length cnts1 - 2)%nat
                      ∉ children (drop (length cnts1) t)).
    { rewrite Hch. intros H. apply elem_of_seq in H. lia. }
    apply list_eq. intros s.
    destruct (decide (s < length cnts1)%nat) as [Hs|Hs].
    + pose proof (walk_unique _ _ _ Hnd Hroot _ _ _ (W1 s Hs) (W2 s Hs)) as Hcw.
      unfold cw in Hcw.
      destruct (lookup_lt_is_Some_2 cds1 s ltac:(lia)) as [c1 Hc1].
      destruct (lookup_lt_is_Some_2 cds2 s ltac:(lia)) as [c2 Hc2].
      rewrite Hc1, Hc2 in Hcw. simpl in Hcw. rewrite Hc1, Hc2, Hcw.
      reflexivity.
    + rewrite (proj2 (lookup_ge_None cds1 s)) by lia.
      rewrite (proj2 (lookup_ge_None cds2 s)) by lia. reflexivity.
  - destruct cnts1; [|simpl in Hn; lia]. destruct cnts2; [|discriminate].
    rewrite E1 in E2. injection E2 as ->. reflexivity.
Qed.

(** X9: the code table is a function of the tree: two histograms of the
    same number of counts that give the same tree give the same code
    words, so the serialized tree is all a reader needs to rebuild them. *)
Theorem codes_determined_by_tree (cnts1 cnts2 : list Z) cds1 cds2 t :
  length cnts1 = length cnts2 →
  compute_huffman cnts1 = Some (cds1, t) →
  compute_huffman cnts2 = Some (cds2, t) →
  cds1 = cds2.
Proof. apply same_tree_same_codes. Qed.

Lemma nine_ones_huffman :
  compute_huffman [9; 1; 1; 1; 1; 1; 1] =
    Some ([["0"]; ["1"; "0"; "1"; "1"]; ["1"; "0"; "1"; "0"];
           ["1"; "0"; "0"; "1"]; ["1"; "0"; "0"; "0"]; ["1"; "1"; "1"];
           ["1"; "1"; "0"]]%char,
          [(0, 0); (1, 1); (2, 2); (3, 3); (4, 4); (5, 5); (6, 6);
           (2, 1); (4, 3); (6, 5); (8, 7); (10, 9); (0, 11)]%nat).
Proof. vm_compute. reflexivity. Qed.

Lemma codes_determined_by_tree_witness :
  ∃ cds t,
    length [4; 0; 0; 0; 0; 0; 0] = length [9; 1; 1; 1; 1; 1; 1] ∧
    compute_huffman [4; 0; 0; 0; 0; 0; 0] = Some (cds, t) ∧
    compute_huffman [9; 1; 1; 1; 1; 1; 1] = Some (cds, t) ∧
    cds = cds.
Proof.
  eexists _, _. split; [reflexivity|].
  split; [exact uniform_frame_huffman|].
  split; [exact nine_ones_huffman|].
  exact (codes_determined_by_tree _ _ _ _ _ eq_refl uniform_frame_huffman
           nine_ones_huffman).
Defined.

(** Seven-count histograms with the same tree bytes have the same tree
    and the same code table. *)
Lemma same_bytes_same_tree (cnts1 cnts2 : list Z) cds1 cds2 t1 t2 :
  length cnts1 = 7%nat → length cnts2 = 7%nat →
  compute_huffman cnts1 = Some (cds1, t1) →
  compute_huffman cnts2 = Some (cds2, t2) →
  encode_tree t1 = encode_tree t2 →
  t1 = t2 ∧ cds1 = cds2.
Proof.
  intros L1 L2 E1 E2 Henc.
  destruct (result_facts cnts1 cds1 t1 ltac:(lia) E1)
    as (_ & Lt1 & _ & Hleaf1 & Htree1 & _).
  destruct (result_facts cnts2 cds2 t2 ltac:(lia) E2)
    as (_ & Lt2 & _ & Hleaf2 & Htree2 & _).
  rewrite L1 in *. rewrite L2 in *.
  assert (Hsmall : ∀ t, length t = 13%nat →
            (∀ k l r, t !! k = Some (l, r) → (7 <= k)%nat →
                      (l < k)%nat ∧ (r < k)%nat) →
            Forall (fun lr : nat * nat => (lr.2 < 16)%nat) (drop 7 t)).
  { intros t Lt Ht. apply Forall_lookup. intros i [l r] Hi.
    rewrite lookup_drop in Hi. pose proof (lookup_lt_Some _ _ _ Hi).
    destruct (Ht _ _ _ Hi ltac:(lia)). simpl. lia. }
  assert (Hdrop : drop 7 t1 = drop 7 t2).
  { apply (fmap_inj_on (fun '(l, r) => Z.of_nat l * 16 + Z.of_nat r)
             (fun lr => (lr.2 < 16)%nat)).
    - intros [l r] [l' r'] Hr Hr' Heq. simpl in *.
      assert (l = l' ∧ r = r') as [-> ->] by lia. reflexivity.
    - apply Hsmall; assumption.
    - apply Hsmall; assumption.
    - exact Henc. }
  assert (Htake : take 7 t1 = take 7 t2).
  { apply list_eq. intros k.
    destruct (decide (k < 7)%nat) as [Hk|Hk].
    - rewrite !lookup_take_lt by assumption.
      rewrite (Hleaf1 k Hk), (Hleaf2 k Hk). reflexivity.
    - rewrite !lookup_take_ge by lia. reflexivity. }
  assert (Ht : t1 = t2).
  { rewrite <- (take_drop 7 t1), <- (take_drop 7 t2), Htake, Hdrop.
    reflexivity. }
  split; [assumption|]. subst t2.
  apply (same_tree_same_codes cnts1 cnts2 cds1 cds2 t1); congruence.
Qed.

(** X10: [encode_tree] loses nothing on the trees of seven counts: two
    histograms whose serialized trees are equal have the same tree, and
    with it the same code table. *)
Theorem encode_tree_injective (cnts1 cnts2 : list Z) cds1 cds2 t1 t2 :
  length cnts1 = 7%nat → length cnts2 = 7%nat →
  compute_huffman cnts1 = Some (cds1, t1) →
  compute_huffman cnts2 = Some (cds2, t2) →
  encode_tree t1 = encode_tree t2 →
  t1 = t2 ∧ cds1 = cds2.
Proof. apply same_bytes_same_tree. Qed.

Lemma encode_tree_injective_witness :
  ∃ cds t,
    length [4; 0; 0; 0; 0; 0; 0] = 7%nat ∧
    length [9; 1; 1; 1; 1; 1; 1] = 7%nat ∧
    compute_huffman [4; 0; 0; 0; 0; 0; 0] = Some (cds, t) ∧
    compute_huffman [9; 1; 1; 1; 1; 1; 1] = Some (cds, t) ∧
    encode_tree t = encode_tree t ∧
    t = t ∧ cds = cds.
Proof.
  eexists _, _. split; [reflexivity|]. split; [reflexivity|].
  split; [exact uniform_frame_huffman|]. split; [exact nine_ones_huffman|].
  split; [reflexivity|].
  exact (encode_tree_injective [4; 0; 0; 0; 0; 0; 0] [9; 1; 1; 1; 1; 1; 1]
           _ _ _ _ eq_refl eq_refl
           uniform_frame_huffman nine_ones_huffman eq_refl).
Defined.

(** ** More on [compute_markov] *)

Lemma for_loop_indexed_from {S A : Type} (body : S → A → option S)
    (I : nat → S → Prop) (l : list A) : ∀ (pre : list A) (s : S),
  (∀ k s a, (pre ++ l) !! k = Some a → (length pre <= k)%nat → I k s →
            ∃ s', body s a = Some s' ∧ I (Datatypes.S k) s') →
  I (length pre) s →
  ∃ s', for_loop body s l = Some s' ∧ I (length (pre ++ l)) s'.
Proof.
  induction l as [|a l IH]; intros pre s Hstep Hs.
  - exists s. rewrite app_nil_r. auto.
  - destruct (Hstep (length pre) s a) as (s1 & E1 & Hs1); [|lia|assumption|].
    { rewrite lookup_app_r, Nat.sub_diag by lia. reflexivity. }
    destruct (IH (pre ++ [a]) s1) as (s2 & E2 & Hs2).
    + intros k s' b Hk Hle. rewrite <- app_assoc in Hk. apply Hstep.
      * exact Hk.
      * rewrite length_app in Hle. simpl in Hle. lia.
    + rewrite length_app. simpl. rewrite Nat.add_1_r. assumption.
    + exists s2. simpl. rewrite E1. simpl. split; [assumption|].
      rewrite <- app_assoc in Hs2. exact Hs2.
Qed.

(** A loop whose body, on the [k]-th item of the list, takes the
    invariant from [k] to [k+1] runs to the end. *)
Lemma for_loop_indexed {S A : Type} (body : S → A → option S)
    (I : nat → S → Prop) (l : list A) (s : S) :
  (∀ k s a, l !! k = Some a → I k s →
            ∃ s', body s a = Some s' ∧ I (Datatypes.S k) s') →
  I 0%nat s →
  ∃ s', for_loop body s l = Some s' ∧ I (length l) s'.
Proof.
  intros Hstep Hs.
  apply (for_loop_indexed_from body I l [] s); [|assumption].
  intros k s' a Hk _. apply Hstep. assumption.
Qed.

Lemma raster_NoDup h w : NoDup (raster h w).
Proof.
  unfold raster. apply NoDup_bind.
  - intros y1 y2 [y x] _ _ H1 H2.
    apply list_elem_of_fmap in H1 as (x1 & [= -> ->] & _).
    apply list_elem_of_fmap in H2 as (x2 & [= -> _] & _). reflexivity.
  - intros y _. apply NoDup_fmap_2_strong; [|apply NoDup_seq].
    intros x1 x2 _ _ [= ->]. reflexivity.
  - apply NoDup_seq.
Qed.

(** The cell that the [k]-th step of the scan reads. *)
Lemma raster_cell_at {A : Type} (a : grid A) k yx :
  rect a → raster (shape a).1 (shape a).2 !! k = Some yx →
  ∃ v, mjoin a !! k = Some v ∧ get2 a yx.1 yx.2 = Some v.
Proof.
  intros Hr Hk. pose proof (raster_cells a Hr) as Hc.
  apply (f_equal (fun l => l !! k)) in Hc.
  rewrite !list_lookup_fmap, Hk in Hc. simpl in Hc.
  destruct (mjoin a !! k) as [v|]; [|discriminate].
  exists v. split; [reflexivity|]. simpl in Hc. congruence.
Qed.

Lemma prev_cell_S (cells : list Z) k v :
  cells !! k = Some v → prev_cell cells (S k) = v.
Proof. intros H. simpl. rewrite H. reflexivity. Qed.

Lemma rank_stream_lookup (ranks : grid Z) (cells : list Z) k v :
  cells !! k = Some v →
  rank_stream ranks cells !! k
    = Some (default 0 (get2z ranks (prev_cell cells k) v)).
Proof.
  intros H. unfold rank_stream. rewrite list_lookup_imap, H. reflexivity.
Qed.

Lemma rank_stream_length ranks cells :
  length (rank_stream ranks cells) = length cells.
Proof. apply length_imap. Qed.

Lemma histogram_of_length l : length (histogram_of l) = 7%nat.
Proof. reflexivity. Qed.

Lemma histogram_of_lookup l r :
  0 <= r < 7 →
  histogram_of l !! Z.to_nat r
    = Some (Z.of_nat (length (filter (fun v => v = r) l))).
Proof.
  intros H.
  assert (Hc : r = 0 ∨ r = 1 ∨ r = 2 ∨ r = 3 ∨ r = 4 ∨ r = 5 ∨ r = 6) by lia.
  destruct Hc as [->|[->|[->|[->|[->|[->| ->]]]]]]; reflexivity.
Qed.

Lemma histogram_of_snoc l r :
  0 <= r < 7 →
  histogram_of (l ++ [r])
    = <[Z.to_nat r := Z.of_nat (length (filter (fun v => v = r) l)) + 1]>
        (histogram_of l).
Proof.
  intros H. unfold histogram_of.
  assert (Hc : r = 0 ∨ r = 1 ∨ r = 2 ∨ r = 3 ∨ r = 4 ∨ r = 5 ∨ r = 6) by lia.
  destruct Hc as [->|[->|[->|[->|[->|[->| ->]]]]]]; simpl;
    rewrite !filter_app, !length_app; simpl;
    repeat (f_equal; try lia).
Qed.

(** The second scan, cell by cell: the ranks written into [out] and the
    counts. *)
Lemma rank_pass_exact (frame ranks : grid Z) :
  rect frame → quantized frame →
  length ranks = 7%nat →
  Forall (fun row => row ≡ₚ [0; 1; 2; 3; 4; 5; 6]) ranks →
  ∃ out cnt prev,
    for_loop (rank_step frame ranks)
             (zeros2 (shape frame).1 (shape frame).2, replicate NUMCHARS 0, 0)
             (raster (shape frame).1 (shape frame).2) = Some (out, cnt, prev) ∧
    has_shape (shape frame).1 (shape frame).2 out ∧
    mjoin out = rank_stream ranks (mjoin frame) ∧
    (Z.of_nat ((shape frame).1 * (shape frame).2) < UINT16 →
     cnt = histogram_of (rank_stream ranks (mjoin frame))).
Proof.
  intros Hr Hq Hl Hp.
  set (h := (shape frame).1). set (w := (shape frame).2).
  set (cells := mjoin frame). set (rs := rank_stream ranks cells).
  assert (Hcells : ∀ k v, cells !! k = Some v → 0 <= v < 7).
  { intros k v Hk. apply list_elem_of_lookup_2 in Hk.
    apply list_elem_of_join in Hk as (row & Hv & Hrow).
    unfold quantized in Hq. rewrite Forall_forall in Hq.
    specialize (Hq row Hrow). rewrite Forall_forall in Hq. auto. }
  destruct (for_loop_indexed (rank_step frame ranks)
              (fun k st =>
                 has_shape h w st.1.1 ∧ st.2 = prev_cell cells k ∧
                 0 <= st.2 < 7 ∧ length st.1.2 = 7%nat ∧
                 (∀ i yx, (i < k)%nat → raster h w !! i = Some yx →
                          get2 st.1.1 yx.1 yx.2 = rs !! i) ∧
                 (Z.of_nat k < UINT16 → st.1.2 = histogram_of (take k rs)))
              (raster h w)
              (zeros2 h w, replicate NUMCHARS 0, 0))
    as ([[out cnt] prev] & E & Ho & _ & _ & _ & Hout & Hcnt).
  - intros k [[out cnt] prev] [y x] Hk (Ho & Hprev & Hpr & Hc & Hout & Hcnt).
    simpl in Ho, Hprev, Hpr, Hc, Hout, Hcnt.
    destruct (raster_cell_at frame k (y, x) Hr Hk) as (v & Hv & Ev).
    simpl in Ev. fold cells in Hv.
    pose proof (Hcells k v Hv) as Hvr.
    destruct (ranks_cell ranks prev v Hl Hp Hpr Hvr) as (r & Er & Hrr).
    assert (Hrs : rs !! k = Some r).
    { unfold rs. rewrite (rank_stream_lookup ranks cells k v Hv).
      rewrite <- Hprev, Er. reflexivity. }
    pose proof (raster_bounds h w) as Hb. rewrite Forall_forall in Hb.
    destruct (Hb (y, x) (list_elem_of_lookup_2 _ _ _ Hk)) as [Hy Hx].
    simpl in Hy, Hx.
    destruct (set2_in h w out y x (int8_cast r) Ho Hy Hx)
      as (out' & Eo & Ho' & Eg).
    rewrite (int8_cast_small r Hrr) in Eo, Eg.
    destruct (incr16_1_in cnt r Hc Hrr) as (c & Ec & Ei).
    eexists (out', _, v). unfold rank_step. simpl.
    rewrite Ev. simpl. rewrite Er. simpl.
    rewrite (int8_cast_small r Hrr), Eo. simpl. rewrite Eg. simpl.
    rewrite Ei. simpl. split; [reflexivity|].
    split; [assumption|].
    split; [symmetry; apply (prev_cell_S cells k v Hv)|].
    split; [assumption|]. split; [rewrite length_insert; assumption|].
    split.
    + intros i [y' x'] Hi Hyx. simpl.
      destruct (decide (i = k)) as [->|Hne].
      * rewrite Hk in Hyx. injection Hyx as <- <-. rewrite Eg, Hrs.
        reflexivity.
      * rewrite (set2_other out out' y x r y' x' Eo).
        -- apply (Hout i (y', x')); [lia | assumption].
        -- intros Heq. apply Hne.
           apply (NoDup_lookup _ i k (y', x') (raster_NoDup h w)); congruence.
    + intros Hlt. rewrite (take_S_r rs k r Hrs).
      rewrite (histogram_of_snoc _ r Hrr).
      assert (Hck : cnt = histogram_of (take k rs)) by (apply Hcnt; lia).
      rewrite <- Hck. f_equal.
      rewrite Hck, (histogram_of_lookup _ r Hrr) in Ec. injection Ec as <-.
      pose proof (length_filter (fun v => v = r) (take k rs)) as Hf.
      pose proof (length_take_le rs k) as Ht.
      unfold add16. apply Z.mod_small. unfold UINT16 in *.
      rewrite length_take in Hf. lia.
  - simpl. split; [apply zeros2_shape|]. split; [reflexivity|].
    split; [lia|]. split; [reflexivity|]. split.
    + intros i yx Hi. lia.
    + intros _. reflexivity.
  - simpl in Ho, Hout, Hcnt. rewrite raster_length in Hout, Hcnt.
    assert (Hlen : length cells = (h * w)%nat).
    { apply (mjoin_rect_length frame Hr). }
    exists out, cnt, prev. split; [assumption|]. split; [assumption|].
    assert (Hro : rect out ∧ shape out = (h, w)).
    { destruct Ho as [Hh Hw]. destruct out as [|r0 out].
      - simpl in Hh. split; [constructor|].
        unfold shape. simpl.
        assert (cells = []) as Hnil.
        { apply nil_length_inv. rewrite Hlen, <- Hh. reflexivity. }
        destruct frame as [|f0 frame]; [reflexivity|]. simpl in Hh.
        unfold h in Hh. simpl in Hh. discriminate.
      - pose proof Hw as Hw'. apply Forall_cons in Hw' as [Hr0 _].
        assert (Hs : shape (r0 :: out) = (h, w)).
        { unfold shape. rewrite Hh, Hr0. reflexivity. }
        split; [|assumption]. unfold rect. rewrite Hs. assumption. }
    destruct Hro as [Hro Hso].
    assert (Hmj : mjoin out = rs).
    { assert (Hs : Some <$> mjoin out = Some <$> rs).
      { rewrite <- (raster_cells out Hro), Hso. simpl.
        apply list_eq. intros i. rewrite !list_lookup_fmap.
        destruct (raster h w !! i) as [yx|] eqn:Ei; simpl.
        - rewrite (Hout i yx); [|eapply lookup_lt_Some in Ei;
                                  rewrite raster_length in Ei; assumption
                                 |assumption].
          pose proof (lookup_lt_Some _ _ _ Ei) as Hi.
          rewrite raster_length in Hi.
          destruct (lookup_lt_is_Some_2 rs i) as [r Hri].
          { unfold rs. rewrite rank_stream_length, Hlen. assumption. }
          rewrite Hri. reflexivity.
        - apply lookup_ge_None in Ei. rewrite raster_length in Ei.
          rewrite (proj2 (lookup_ge_None rs i)); [reflexivity|].
          unfold rs. rewrite rank_stream_length, Hlen. assumption. }
      apply (inj (fmap Some)) in Hs. assumption. }
    split; [assumption|].
    intros Hlt. rewrite (Hcnt Hlt). f_equal. apply take_ge.
    unfold rs. rewrite rank_stream_length, Hlen. lia.
Qed.

(** What [compute_markov] returns on a quantized frame, cell by cell. *)
Lemma compute_markov_exact (frame : grid Z) :
  rect frame → quantized frame →
  ∃ out ranks cnt,
    compute_markov frame = Some (out, ranks, cnt) ∧
    has_shape (shape frame).1 (shape frame).2 out ∧
    length ranks = 7%nat ∧
    Forall (fun row => row ≡ₚ [0; 1; 2; 3; 4; 5; 6]) ranks ∧
    mjoin out = rank_stream ranks (mjoin frame) ∧
    (Z.of_nat ((shape frame).1 * (shape frame).2) < UINT16 →
     cnt = histogram_of (mjoin out)).
Proof.
  intros Hr Hq.
  destruct (count_pass frame Hr Hq) as (mat & prev & E1 & Hm).
  destruct (rank_rows_perm mat Hm) as (ranks & E2 & Hl & Hp).
  destruct (rank_pass_exact frame ranks Hr Hq Hl Hp)
    as (out & cnt & prev' & E3 & Ho & Hmj & Hcnt).
  exists out, ranks, cnt. split.
  - unfold compute_markov. destruct (shape frame) as [h w]. simpl in *.
    rewrite E1. simpl. rewrite E2. simpl. rewrite E3. reflexivity.
  - split; [assumption|]. split; [assumption|]. split; [assumption|].
    split; [assumption|]. intros Hlt. rewrite Hmj. auto.
Qed.

Lemma quantized_cells (frame : grid Z) k v :
  quantized frame → mjoin frame !! k = Some v → 0 <= v < 7.
Proof.
  intros Hq Hk. apply list_elem_of_lookup_2 in Hk.
  apply list_elem_of_join in Hk as (row & Hv & Hrow).
  unfold quantized in Hq. rewrite Forall_forall in Hq.
  specialize (Hq row Hrow). rewrite Forall_forall in Hq. auto.
Qed.

Lemma prev_cell_range (cells : list Z) k :
  Forall (fun v => 0 <= v < 7) cells → 0 <= prev_cell cells k < 7.
Proof.
  intros H. destruct k as [|k]; simpl; [lia|].
  destruct (cells !! k) as [v|] eqn:E; simpl; [|lia].
  rewrite Forall_forall in H. apply H. eapply list_elem_of_lookup_2.
  eassumption.
Qed.

Lemma quantized_join (frame : grid Z) :
  quantized frame → Forall (fun v => 0 <= v < 7) (mjoin frame).
Proof. intros Hq. apply Forall_join. exact Hq. Qed.

(** X11: [compute_markov] returns a frame of the shape of its argument
    whose cell number [i], in raster order, is [ranks[p, v]], where [v] is
    cell [i] of the argument and [p] the cell before it (0 for the first
    cell): the rank of each pixel given the pixel before. *)
Theorem rank_frame_cells (frame : grid Z) :
  rect frame → quantized frame →
  ∃ out ranks cnt,
    compute_markov frame = Some (out, ranks, cnt) ∧
    shape out = shape frame ∧
    ∀ i v, mjoin frame !! i = Some v →
           ∃ r, get2z ranks (prev_cell (mjoin frame) i) v = Some r ∧
                0 <= r < 7 ∧ mjoin out !! i = Some r.
Proof.
  intros Hr Hq.
  destruct (compute_markov_exact frame Hr Hq)
    as (out & ranks & cnt & E & Ho & Hl & Hp & Hmj & _).
  exists out, ranks, cnt. split; [assumption|].
  split; [apply (main_loop_shapes_agree frame out ranks cnt Hr Hq E)|].
  intros i v Hv.
  pose proof (quantized_cells frame i v Hq Hv) as Hvr.
  pose proof (prev_cell_range (mjoin frame) i (quantized_join frame Hq)) as Hpr.
  destruct (ranks_cell ranks _ v Hl Hp Hpr Hvr) as (r & Er & Hrr).
  exists r. split; [assumption|]. split; [assumption|].
  rewrite Hmj, (rank_stream_lookup ranks _ i v Hv), Er. reflexivity.
Qed.

Lemma rank_frame_cells_witness :
  rect [[0; 1; 2]; [3; 1; 0]] ∧ quantized [[0; 1; 2]; [3; 1; 0]] ∧
  ∃ out ranks cnt,
    compute_markov [[0; 1; 2]; [3; 1; 0]] = Some (out, ranks, cnt) ∧
    shape out = shape [[0; 1; 2]; [3; 1; 0]] ∧
    ∀ i v, mjoin [[0; 1; 2]; [3; 1; 0]] !! i = Some v →
           ∃ r, get2z ranks (prev_cell (mjoin [[0; 1; 2]; [3; 1; 0]]) i) v
                  = Some r ∧
                0 <= r < 7 ∧ mjoin out !! i = Some r.
Proof.
  split; [exact example_frame_rect|]. split; [exact example_frame_quantized|].
  exact (rank_frame_cells _ example_frame_rect example_frame_quantized).
Defined.

(** X12: for a quantized frame of fewer than 65536 pixels the histogram
    that [compute_markov] returns counts the cells of the returned frame:
    its entry [r] is the number of cells equal to [r]. *)
Theorem histogram_counts_ranks (frame : grid Z) :
  rect frame → quantized frame →
  Z.of_nat ((shape frame).1 * (shape frame).2) < UINT16 →
  ∃ out ranks cnt,
    compute_markov frame = Some (out, ranks, cnt) ∧
    cnt = histogram_of (mjoin out).
Proof.
  intros Hr Hq Hlt.
  destruct (compute_markov_exact frame Hr Hq)
    as (out & ranks & cnt & E & _ & _ & _ & _ & Hcnt).
  exists out, ranks, cnt. auto.
Qed.

Lemma histogram_counts_ranks_witness :
  rect [[0; 1; 2]; [3; 1; 0]] ∧ quantized [[0; 1; 2]; [3; 1; 0]] ∧
  Z.of_nat ((shape [[0; 1; 2]; [3; 1; 0]]).1 * (shape [[0; 1; 2]; [3; 1; 0]]).2)
    < UINT16 ∧
  ∃ out ranks cnt,
    compute_markov [[0; 1; 2]; [3; 1; 0]] = Some (out, ranks, cnt) ∧
    cnt = histogram_of (mjoin out).
Proof.
  split; [exact example_frame_rect|]. split; [exact example_frame_quantized|].
  split; [reflexivity|].
  apply (histogram_counts_ranks _ example_frame_rect example_frame_quantized).
  reflexivity.
Defined.

Lemma get2z_nonneg (ranks : grid Z) p v :
  length ranks = 7%nat →
  Forall (fun row => row ≡ₚ [0; 1; 2; 3; 4; 5; 6]) ranks →
  0 <= p < 7 → 0 <= v < 7 →
  ∃ row, ranks !! Z.to_nat p = Some row ∧ NoDup row ∧
         get2z ranks p v = row !! Z.to_nat v.
Proof.
  intros Hl Hp Hpr Hvr.
  destruct (lookup_lt_is_Some_2 ranks (Z.to_nat p)) as [row Hrow]; [lia|].
  rewrite Forall_forall in Hp.
  pose proof (Hp row (list_elem_of_lookup_2 _ _ _ Hrow)) as Hperm.
  pose proof (Permutation_length Hperm) as Hlen. simpl in Hlen.
  exists row. split; [assumption|]. split.
  - rewrite Hperm. apply (bool_decide_unpack _). reflexivity.
  - unfold get2z. rewrite Hl, (py_index_nonneg 7 p) by lia. simpl.
    rewrite Hrow. simpl. rewrite Hlen, (py_index_nonneg 7 v) by lia.
    reflexivity.
Qed.

(** The ranks and the rank matrix determine the cells. *)
Lemma rank_stream_inj (ranks : grid Z) (cells1 cells2 : list Z) :
  length ranks = 7%nat →
  Forall (fun row => row ≡ₚ [0; 1; 2; 3; 4; 5; 6]) ranks →
  Forall (fun v => 0 <= v < 7) cells1 → Forall (fun v => 0 <= v < 7) cells2 →
  rank_stream ranks cells1 = rank_stream ranks cells2 → cells1 = cells2.
Proof.
  intros Hl Hp H1 H2 E.
  assert (Hlen : length cells1 = length cells2).
  { rewrite <- (rank_stream_length ranks cells1), E. apply rank_stream_length. }
  assert (Htake : ∀ k, take k cells1 = take k cells2).
  { induction k as [|k IH]; [reflexivity|].
    destruct (cells1 !! k) as [v1|] eqn:E1.
    - destruct (lookup_lt_is_Some_2 cells2 k) as [v2 E2].
      { apply lookup_lt_Some in E1. lia. }
      rewrite (take_S_r _ _ _ E1), (take_S_r _ _ _ E2), IH. f_equal. f_equal.
      assert (Hprev : prev_cell cells1 k = prev_cell cells2 k).
      { destruct k as [|j]; [reflexivity|]. simpl.
        assert (Hj : take (S j) cells1 !! j = take (S j) cells2 !! j)
          by (rewrite IH; reflexivity).
        rewrite !lookup_take_lt in Hj by lia. rewrite Hj. reflexivity. }
      pose proof (f_equal (fun l => l !! k) E) as Ek. simpl in Ek.
      rewrite (rank_stream_lookup _ _ _ _ E1),
        (rank_stream_lookup _ _ _ _ E2), <- Hprev in Ek.
      assert (Hv1 : 0 <= v1 < 7).
      { rewrite Forall_forall in H1. apply H1.
        eapply list_elem_of_lookup_2. eassumption. }
      assert (Hv2 : 0 <= v2 < 7).
      { rewrite Forall_forall in H2. apply H2.
        eapply list_elem_of_lookup_2. eassumption. }
      pose proof (prev_cell_range cells1 k H1) as Hpr.
      destruct (get2z_nonneg ranks _ v1 Hl Hp Hpr Hv1) as (row & Hrow & Hnd & G1).
      destruct (get2z_nonneg ranks _ v2 Hl Hp Hpr Hv2) as (row' & Hrow' & _ & G2).
      rewrite Hrow in Hrow'. injection Hrow' as <-.
      destruct (ranks_cell ranks _ v1 Hl Hp Hpr Hv1) as (r1 & Er1 & _).
      destruct (ranks_cell ranks _ v2 Hl Hp Hpr Hv2) as (r2 & Er2 & _).
      rewrite Er1, Er2 in Ek. simpl in Ek. injection Ek as <-.
      rewrite G1 in Er1. rewrite G2 in Er2.
      pose proof (NoDup_lookup _ _ _ _ Hnd Er1 Er2). lia.
    - apply lookup_ge_None in E1.
      rewrite !take_ge by lia.
      rewrite <- (take_ge cells1 k), <- (take_ge cells2 k) by lia. exact IH. }
  rewrite <- (take_ge cells1 (length cells1)) by lia.
  rewrite <- (take_ge cells2 (length cells1)) by lia. apply Htake.
Qed.

(** Two grids of the same shape with the same cells in raster order are
    the same grid. *)
Lemma grid_eq_of_join {A : Type} h w (a : grid A) : ∀ b : grid A,
  has_shape h w a → has_shape h w b → mjoin a = mjoin b → a = b.
Proof.
  revert h. induction a as [|r a IH]; intros h b [Ha Hwa] [Hb Hwb] E.
  - destruct b; [reflexivity|]. simpl in *. lia.
  - destruct b as [|r' b]; [simpl in *; lia|].
    apply Forall_cons in Hwa as [Hr Hwa]. apply Forall_cons in Hwb as [Hr' Hwb].
    simpl in E. apply app_inj_1 in E as [-> E]; [|lia].
    f_equal. apply (IH (length a) b); [split; auto|split; auto|assumption].
    simpl in *. lia.
Qed.

Lemma frames_of_same_ranks (f1 f2 out ranks : grid Z) c1 c2 :
  rect f1 → quantized f1 → rect f2 → quantized f2 →
  compute_markov f1 = Some (out, ranks, c1) →
  compute_markov f2 = Some (out, ranks, c2) →
  f1 = f2.
Proof.
  intros Hr1 Hq1 Hr2 Hq2 E1 E2.
  destruct (compute_markov_exact f1 Hr1 Hq1)
    as (o1 & r1 & k1 & E1' & _ & Hl & Hp & Hmj1 & _).
  rewrite E1 in E1'. injection E1' as <- <- <-.
  destruct (compute_markov_exact f2 Hr2 Hq2)
    as (o2 & r2 & k2 & E2' & _ & _ & _ & Hmj2 & _).
  rewrite E2 in E2'. injection E2' as <- <- <-.
  destruct (main_loop_shapes_agree f1 out ranks c1 Hr1 Hq1 E1) as [Hs1 _].
  destruct (main_loop_shapes_agree f2 out ranks c2 Hr2 Hq2 E2) as [Hs2 _].
  assert (Hcells : mjoin f1 = mjoin f2).
  { apply (rank_stream_inj ranks); try assumption.
    - apply quantized_join. assumption.
    - apply quantized_join. assumption.
    - congruence. }
  pose proof (rect_has_shape f1 Hr1) as Hh1.
  pose proof (rect_has_shape f2 Hr2) as Hh2.
  rewrite <- Hs2, Hs1 in Hh2.
  exact (grid_eq_of_join _ _ f1 f2 Hh1 Hh2 Hcells).
Qed.

(** X13: the rank transform loses nothing: two quantized frames for which
    [compute_markov] returns the same rank matrix and the same rank-symbol
    frame are the same frame. *)
Theorem rank_transform_injective (f1 f2 out ranks : grid Z) c1 c2 :
  rect f1 → quantized f1 → rect f2 → quantized f2 →
  compute_markov f1 = Some (out, ranks, c1) →
  compute_markov f2 = Some (out, ranks, c2) →
  f1 = f2.
Proof. apply frames_of_same_ranks. Qed.

Lemma example_frame_markov :
  compute_markov [[0; 1; 2]; [3; 1; 0]] =
    Some ([[1; 0; 0]; [0; 0; 1]],
          [[1; 0; 6; 5; 4; 3; 2]; [1; 6; 0; 5; 4; 3; 2];
           [6; 5; 4; 0; 3; 2; 1]; [6; 0; 5; 4; 3; 2; 1];
           [6; 5; 4; 3; 2; 1; 0]; [6; 5; 4; 3; 2; 1; 0];
           [6; 5; 4; 3; 2; 1; 0]],
          [4; 2; 0; 0; 0; 0; 0]).
Proof. vm_compute. reflexivity. Qed.

Lemma rank_transform_injective_witness :
  rect [[0; 1; 2]; [3; 1; 0]] ∧ quantized [[0; 1; 2]; [3; 1; 0]] ∧
  rect [[0; 1; 2]; [3; 1; 0]] ∧ quantized [[0; 1; 2]; [3; 1; 0]] ∧
  ∃ out ranks cnt,
    compute_markov [[0; 1; 2]; [3; 1; 0]] = Some (out, ranks, cnt) ∧
    compute_markov [[0; 1; 2]; [3; 1; 0]] = Some (out, ranks, cnt) ∧
    [[0; 1; 2]; [3; 1; 0]] = [[0; 1; 2]; [3; 1; 0]].
Proof.
  split; [exact example_frame_rect|]. split; [exact example_frame_quantized|].
  split; [exact example_frame_rect|]. split; [exact example_frame_quantized|].
  eexists _, _, _. split; [exact example_frame_markov|].
  split; [exact example_frame_markov|].
  exact (rank_transform_injective _ _ _ _ _ _
           example_frame_rect example_frame_quantized
           example_frame_rect example_frame_quantized
           example_frame_markov example_frame_markov).
Defined.

Lemma py_index_None n i :
  i < - Z.of_nat n ∨ Z.of_nat n <= i → py_index n i = None.
Proof.
  intros H. unfold py_index.
  destruct (Z.leb_spec 0 i), (Z.ltb_spec i (Z.of_nat n)),
    (Z.leb_spec (- Z.of_nat n) i), (Z.ltb_spec i 0); simpl;
    try reflexivity; lia.
Qed.

Lemma incr16_2_shape (mat mat' : grid Z) i j :
  has_shape 7 7 mat → incr16_2 mat i j = Some mat' → has_shape 7 7 mat'.
Proof.
  intros Hm. unfold incr16_2. intros H.
  destruct (py_index (length mat) i) as [i'|]; [|discriminate]. simpl in H.
  destruct (mat !! i') as [row|] eqn:Er; [|discriminate]. simpl in H.
  destruct (py_index (length row) j) as [j'|]; [|discriminate]. simpl in H.
  destruct (row !! j') as [v|]; [|discriminate]. simpl in H.
  injection H as <-. apply has_shape_insert; [assumption|].
  rewrite length_insert. destruct Hm as [_ Hw]. rewrite Forall_forall in Hw.
  apply Hw. eapply list_elem_of_lookup_2. eassumption.
Qed.

(** X14: [compute_markov] raises ([IndexError], in the first scan) on a
    frame that has a cell below -7 or above 6. *)
Theorem compute_markov_raises_on_bad_cell (frame : grid Z) (y x : nat) (v : Z) :
  rect frame → get2 frame y x = Some v → v < -7 ∨ 7 <= v →
  compute_markov frame = None.
Proof.
  intros Hr Hv Hbad.
  assert (Hin : (y, x) ∈ raster (shape frame).1 (shape frame).2).
  { unfold get2 in Hv. destruct (frame !! y) as [row|] eqn:Ey; [|discriminate].
    simpl in Hv. unfold raster. apply list_elem_of_bind. exists y. split.
    - apply list_elem_of_fmap. exists x. split; [reflexivity|].
      apply elem_of_seq. apply lookup_lt_Some in Hv.
      unfold rect in Hr. rewrite Forall_forall in Hr.
      rewrite (Hr row (list_elem_of_lookup_2 _ _ _ Ey)) in Hv. lia.
    - apply elem_of_seq. apply lookup_lt_Some in Ey. simpl. lia. }
  apply list_elem_of_split in Hin as (l1 & l2 & Hsplit).
  unfold compute_markov. destruct (shape frame) as [h w]. simpl in Hsplit.
  rewrite Hsplit.
  rewrite (for_loop_raises (count_step frame) (fun st => has_shape 7 7 st.1)).
  - reflexivity.
  - intros [mat prev] [y' x'] [mat' prev'] Hm. unfold count_step. simpl.
    destruct (get2 frame y' x') as [c|]; [|discriminate]. simpl.
    destruct (incr16_2 mat prev c) as [m|] eqn:Em; [|discriminate]. simpl.
    intros [= <- <-]. eapply incr16_2_shape; eassumption.
  - intros [mat prev] Hm. unfold count_step. simpl in *. rewrite Hv. simpl.
    unfold incr16_2.
    destruct (py_index (length mat) prev) as [i'|]; [|reflexivity]. simpl.
    destruct (mat !! i') as [row|] eqn:Er; [|reflexivity]. simpl.
    destruct Hm as [_ Hw]. rewrite Forall_forall in Hw.
    rewrite (Hw row (list_elem_of_lookup_2 _ _ _ Er)).
    rewrite (py_index_None 7 v) by lia. reflexivity.
  - apply zeros2_shape.
Qed.

Lemma compute_markov_raises_on_bad_cell_witness :
  rect [[0; 7]] ∧ get2 [[0; 7]] 0 1 = Some 7 ∧ (7 < -7 ∨ 7 <= 7) ∧
  compute_markov [[0; 7]] = None.
Proof.
  assert (Hr : rect [[0; 7]]).
  { unfold rect. simpl. repeat (constructor; [reflexivity|]). constructor. }
  split; [exact Hr|]. split; [reflexivity|]. split; [lia|].
  apply (compute_markov_raises_on_bad_cell [[0; 7]] 0 1 7 Hr eq_refl). lia.
Defined.

(** ** More on [convert_huffman] *)

Lemma msb_first_byte (byte : pystr) :
  length byte = 8%nat → 0 <= msb_first byte < 256.
Proof.
  intros H.
  do 8 (destruct byte as [|? byte]; [discriminate|]).
  destruct byte; [|discriminate].
  unfold msb_first. simpl.
  repeat match goal with |- context [Ascii.eqb ?a ?b] =>
    destruct (Ascii.eqb a b) end; simpl; lia.
Qed.

Lemma byte_bits_msb_first (byte : pystr) :
  length byte = 8%nat → Forall is_bit byte →
  byte_bits (msb_first byte) = byte.
Proof.
  intros H Hb.
  do 8 (destruct byte as [|? byte]; [discriminate|]).
  destruct byte; [|discriminate].
  repeat match goal with H : Forall is_bit (_ :: _) |- _ =>
    apply Forall_cons in H as [[->| ->] H] end; reflexivity.
Qed.

Lemma octets_join {A : Type} m : ∀ l : list A,
  length l = (m * 8)%nat →
  mjoin ((fun k => take 8 (drop (k * 8) l)) <$> seq 0 m) = l.
Proof.
  induction m as [|m IH]; intros l Hl.
  - destruct l; [reflexivity | discriminate].
  - rewrite seq_S, fmap_app, join_app. simpl. rewrite app_nil_r.
    transitivity (take (m * 8) l ++ drop (m * 8) l); [|apply take_drop].
    f_equal.
    + rewrite <- (IH (take (m * 8) l)) by (rewrite length_take; lia).
      f_equal. apply list_fmap_ext. intros i k Hk.
      apply lookup_seq in Hk as [-> Hk]. simpl.
      rewrite !take_drop_commute, take_take.
      f_equal. f_equal. lia.
    + apply take_ge. rewrite length_drop. lia.
Qed.

Lemma octets_forall {A : Type} (P : A → Prop) (l : list A) k :
  Forall P l → Forall P (take 8 (drop (k * 8) l)).
Proof. intros H. apply Forall_take, Forall_drop. assumption. Qed.

Lemma join_length_bounds {A : Type} (a b : nat) (ws : list (list A)) :
  Forall (fun c => (a <= length c <= b)%nat) ws →
  (a * length ws <= length (mjoin ws) <= b * length ws)%nat.
Proof.
  induction 1 as [|c ws Hc Hws IH]; simpl; [lia|].
  rewrite length_app. lia.
Qed.

(** The value of [convert_huffman], its length and the range of its
    items. *)
Lemma convert_huffman_bytes (frame markov_frame : grid Z) (cds ws : list pystr) :
  shape frame = shape markov_frame → rect markov_frame →
  mapM (codeword cds) (mjoin markov_frame) = Some ws →
  ∃ out pad,
    convert_huffman frame markov_frame cds = Some out ∧
    (pad < 8)%nat ∧
    (length (mjoin ws) + pad = 8 * length out)%nat ∧
    Forall (fun b => 0 <= b < 256) out ∧
    (Forall (Forall is_bit) ws →
     mjoin (byte_bits <$> out) = mjoin ws ++ replicate pad "0"%char).
Proof.
  intros Hs Hr Hws.
  destruct (convert_huffman_value frame markov_frame cds ws Hs Hr Hws)
    as [Hm E].
  set (pad := ((8 - length (mjoin ws) mod 8) mod 8)%nat) in *.
  set (bits := mjoin ws ++ replicate pad "0"%char) in *.
  assert (Hlen : (length bits = length bits / 8 * 8)%nat).
  { pose proof (Nat.div_mod_eq (length bits) 8). lia. }
  eexists _, pad. split; [exact E|].
  split; [apply Nat.mod_upper_bound; lia|].
  split.
  { rewrite length_fmap, length_seq.
    unfold bits in Hlen at 1. rewrite length_app, length_replicate in Hlen.
    lia. }
  split.
  { apply Forall_fmap, Forall_forall. intros k Hk. apply elem_of_seq in Hk.
    simpl. apply msb_first_byte. rewrite length_take, length_drop. lia. }
  intros Hbits.
  assert (Hall : Forall is_bit bits).
  { unfold bits. apply Forall_app. split.
    - apply Forall_join. assumption.
    - apply Forall_replicate. left. reflexivity. }
  rewrite <- list_fmap_compose.
  etransitivity; [|exact (octets_join (length bits / 8) bits Hlen)].
  f_equal. apply list_fmap_ext. intros i k Hk.
  apply lookup_seq in Hk as [-> Hk]. simpl.
  apply byte_bits_msb_first.
  - rewrite length_take, length_drop. lia.
  - apply octets_forall. assumption.
Qed.

(** X15: when the shapes agree and every cell has a code word,
    [convert_huffman] returns [ceil(n / 8)] values for the [n] characters
    of the code words, each of them a byte (0..255), so [bytearray] takes
    them. *)
Theorem convert_huffman_returns_bytes (frame markov_frame : grid Z)
    (cds ws : list pystr) :
  shape frame = shape markov_frame → rect markov_frame →
  mapM (codeword cds) (mjoin markov_frame) = Some ws →
  ∃ out,
    convert_huffman frame markov_frame cds = Some out ∧
    length out = ((length (mjoin ws) + 7) / 8)%nat ∧
    Forall (fun b => 0 <= b < 256) out.
Proof.
  intros Hs Hr Hws.
  destruct (convert_huffman_bytes frame markov_frame cds ws Hs Hr Hws)
    as (out & pad & E & Hpad & Hlen & Hb & _).
  exists out. split; [assumption|]. split; [|assumption].
  apply (Nat.div_unique _ 8 _ (7 - pad)); lia.
Qed.

Lemma example_codewords :
  mapM (codeword [["0"]; ["1"]]%char) (mjoin [[1; 0; 0]; [0; 0; 1]])
    = Some ([["1"]; ["0"]; ["0"]; ["0"]; ["0"]; ["1"]]%char).
Proof. reflexivity. Qed.

Lemma example_rank_frame_rect : rect [[1; 0; 0]; [0; 0; 1]].
Proof. unfold rect. simpl. repeat (constructor; [reflexivity|]). constructor. Defined.

Lemma convert_huffman_returns_bytes_witness :
  shape [[1; 0; 0]; [0; 0; 1]] = shape [[1; 0; 0]; [0; 0; 1]] ∧
  rect [[1; 0; 0]; [0; 0; 1]] ∧
  mapM (codeword [["0"]; ["1"]]%char) (mjoin [[1; 0; 0]; [0; 0; 1]])
    = Some ([["1"]; ["0"]; ["0"]; ["0"]; ["0"]; ["1"]]%char) ∧
  ∃ out,
    convert_huffman [[1; 0; 0]; [0; 0; 1]] [[1; 0; 0]; [0; 0; 1]]
                    ([["0"]; ["1"]]%char) = Some out ∧
    length out
      = ((length (mjoin ([["1"]; ["0"]; ["0"]; ["0"]; ["0"]; ["1"]]%char)) + 7)
         / 8)%nat ∧
    Forall (fun b => 0 <= b < 256) out.
Proof.
  split; [reflexivity|]. split; [exact example_rank_frame_rect|].
  split; [exact example_codewords|].
  exact (convert_huffman_returns_bytes _ _ _ _ eq_refl example_rank_frame_rect
           example_codewords).
Defined.

(** X16: the packing loses nothing: when the code words are strings of
    ['0'] and ['1'], writing each returned byte as eight bits, most
    significant first, gives back the code words of the cells in raster
    order, followed by fewer than eight ['0'] of padding. *)
Theorem convert_huffman_unpacks (frame markov_frame : grid Z)
    (cds ws : list pystr) :
  shape frame = shape markov_frame → rect markov_frame →
  mapM (codeword cds) (mjoin markov_frame) = Some ws →
  Forall (Forall is_bit) ws →
  ∃ out pad,
    convert_huffman frame markov_frame cds = Some out ∧
    (pad < 8)%nat ∧
    mjoin (byte_bits <$> out) = mjoin ws ++ replicate pad "0"%char.
Proof.
  intros Hs Hr Hws Hbits.
  destruct (convert_huffman_bytes frame markov_frame cds ws Hs Hr Hws)
    as (out & pad & E & Hpad & _ & _ & Hu).
  exists out, pad. auto.
Qed.

Lemma example_codewords_bits :
  Forall (Forall is_bit) ([["1"]; ["0"]; ["0"]; ["0"]; ["0"]; ["1"]]%char).
Proof.
  repeat (constructor;
          [repeat (constructor; [(left; reflexivity) || (right; reflexivity)|]);
           constructor|]).
  constructor.
Defined.

Lemma convert_huffman_unpacks_witness :
  shape [[1; 0; 0]; [0; 0; 1]] = shape [[1; 0; 0]; [0; 0; 1]] ∧
  rect [[1; 0; 0]; [0; 0; 1]] ∧
  mapM (codeword [["0"]; ["1"]]%char) (mjoin [[1; 0; 0]; [0; 0; 1]])
    = Some ([["1"]; ["0"]; ["0"]; ["0"]; ["0"]; ["1"]]%char) ∧
  Forall (Forall is_bit) ([["1"]; ["0"]; ["0"]; ["0"]; ["0"]; ["1"]]%char) ∧
  ∃ out pad,
    convert_huffman [[1; 0; 0]; [0; 0; 1]] [[1; 0; 0]; [0; 0; 1]]
                    ([["0"]; ["1"]]%char) = Some out ∧
    (pad < 8)%nat ∧
    mjoin (byte_bits <$> out)
      = mjoin ([["1"]; ["0"]; ["0"]; ["0"]; ["0"]; ["1"]]%char)
        ++ replicate pad "0"%char.
Proof.
  split; [reflexivity|]. split; [exact example_rank_frame_rect|].
  split; [exact example_codewords|]. split; [exact example_codewords_bits|].
  exact (convert_huffman_unpacks _ _ _ _ eq_refl example_rank_frame_rect
           example_codewords example_codewords_bits).
Defined.

(** X17: [convert_huffman] raises when the shapes agree and some cell of
    the rank-symbol frame has no code word (its value is not an index of
    [codes]). *)
Theorem convert_huffman_raises_on_bad_cell (frame markov_frame : grid Z)
    (cds : list pystr) (y x : nat) (v : Z) :
  shape frame = shape markov_frame → rect markov_frame →
  get2 markov_frame y x = Some v → codeword cds v = None →
  convert_huffman frame markov_frame cds = None.
Proof.
  intros Hs Hr Hv Hc.
  assert (Hin : (y, x) ∈ raster (shape markov_frame).1 (shape markov_frame).2).
  { unfold get2 in Hv.
    destruct (markov_frame !! y) as [row|] eqn:Ey; [|discriminate].
    simpl in Hv. unfold raster. apply list_elem_of_bind. exists y. split.
    - apply list_elem_of_fmap. exists x. split; [reflexivity|].
      apply elem_of_seq. apply lookup_lt_Some in Hv.
      unfold rect in Hr. rewrite Forall_forall in Hr.
      rewrite (Hr row (list_elem_of_lookup_2 _ _ _ Ey)) in Hv. lia.
    - apply elem_of_seq. apply lookup_lt_Some in Ey. simpl. lia. }
  apply list_elem_of_split in Hin as (l1 & l2 & Hsplit).
  unfold convert_huffman. rewrite Hs.
  destruct (shape markov_frame) as [h w]. simpl in Hsplit. rewrite Hsplit.
  rewrite (for_loop_raises _ (fun _ => True)); auto.
  intros out _. simpl. rewrite Hv. simpl. rewrite Hc. reflexivity.
Qed.

Lemma convert_huffman_raises_on_bad_cell_witness :
  shape [[0; 2]] = shape [[0; 2]] ∧ rect [[0; 2]] ∧
  get2 [[0; 2]] 0 1 = Some 2 ∧ codeword ([["0"]; ["1"]]%char) 2 = None ∧
  convert_huffman [[0; 2]] [[0; 2]] ([["0"]; ["1"]]%char) = None.
Proof.
  assert (Hr : rect [[0; 2]]).
  { unfold rect. simpl. repeat (constructor; [reflexivity|]). constructor. }
  split; [reflexivity|]. split; [exact Hr|]. split; [reflexivity|].
  split; [reflexivity|].
  exact (convert_huffman_raises_on_bad_cell [[0; 2]] [[0; 2]]
           ([["0"]; ["1"]]%char) 0 1 2 eq_refl Hr eq_refl eq_refl).
Defined.

(** ** The record of one frame, end to end *)

Lemma mapM_codeword (cds : list pystr) (cells : list Z) :
  length cds = 7%nat → Forall (fun v => 0 <= v < 7) cells →
  mapM (codeword cds) cells = Some (cw cds <$> (Z.to_nat <$> cells)).
Proof.
  intros Hl Hc. apply mapM_Some. rewrite <- list_fmap_compose.
  apply Forall2_fmap_r. apply Forall_Forall2_diag.
  eapply Forall_impl; [exact Hc|]. simpl. intros v Hv.
  unfold codeword, cw. rewrite Hl, (py_index_nonneg 7 v) by lia. simpl.
  destruct (lookup_lt_is_Some_2 cds (Z.to_nat v)) as [c Ec]; [lia|].
  rewrite Ec. reflexivity.
Qed.

(** The bytes of a tree of thirteen nodes. *)
Lemma encode_tree_bytes (cnts : list Z) cds t :
  length cnts = 7%nat → compute_huffman cnts = Some (cds, t) →
  Forall (fun b => 0 <= b < 256) (encode_tree t).
Proof.
  intros L E.
  destruct (result_facts cnts cds t ltac:(lia) E) as (_ & Lt & _ & _ & Ht & _).
  rewrite L in *. unfold encode_tree. apply Forall_map, Forall_lookup.
  intros i [l r] Hi. change NUMCHARS with 7%nat in Hi.
  rewrite lookup_drop in Hi. pose proof (lookup_lt_Some _ _ _ Hi).
  destruct (Ht _ _ _ Hi ltac:(lia)). lia.
Qed.

(** The parts of the record of a quantized frame. *)
Lemma frame_record_parts (frame : grid Z) :
  rect frame → quantized frame →
  ∃ out ranks cnt cds t chars md pad,
    compute_markov frame = Some (out, ranks, cnt) ∧
    compute_huffman cnt = Some (cds, t) ∧
    length cnt = 7%nat ∧
    encode_matrix ranks = Some md ∧ decode_matrix md = ranks ∧
    length md = 14%nat ∧
    convert_huffman frame out cds = Some chars ∧
    frame_record frame = Some (md, encode_tree t, chars) ∧
    shape out = shape frame ∧ rect out ∧ quantized out ∧
    (pad < 8)%nat ∧
    (length (mjoin (cw cds <$> (Z.to_nat <$> mjoin out))) + pad
       = 8 * length chars)%nat ∧
    mjoin (byte_bits <$> chars)
      = mjoin (cw cds <$> (Z.to_nat <$> mjoin out)) ++ replicate pad "0"%char ∧
    Forall (fun c => (1 <= length c <= 6)%nat)
           (cw cds <$> (Z.to_nat <$> mjoin out)) ∧
    Forall (fun b => 0 <= b < 256) md ∧
    Forall (fun b => 0 <= b < 256) (encode_tree t) ∧
    Forall (fun b => 0 <= b < 256) chars.
Proof.
  intros Hr Hq.
  destruct (compute_markov_spec frame Hr Hq)
    as (out & ranks & cnt & E & _ & Hoq & Hl & Hp & Hc & _).
  destruct (main_loop_shapes_agree frame out ranks cnt Hr Hq E) as [Hs Hro].
  destruct (code_words_short cnt ltac:(lia)) as (cds & t & Eh & Hcw).
  destruct (compute_huffman_final cnt ltac:(lia)) as (cds' & t' & Eh' & Lc & _).
  rewrite Eh in Eh'. injection Eh' as <- <-. rewrite Hc in Lc, Hcw.
  pose proof (mapM_codeword cds (mjoin out) Lc (quantized_join out Hoq)) as Ews.
  set (ws := cw cds <$> (Z.to_nat <$> mjoin out)) in *.
  assert (Hws : Forall (fun c => Forall is_bit c ∧ (1 <= length c <= 6)%nat) ws).
  { unfold ws. apply Forall_fmap, Forall_fmap, Forall_forall.
    intros v Hv. simpl.
    pose proof (quantized_join out Hoq) as Hall. rewrite Forall_forall in Hall.
    specialize (Hall v Hv).
    destruct (lookup_lt_is_Some_2 cds (Z.to_nat v)) as [c Ec]; [lia|].
    unfold cw. rewrite Ec. simpl. rewrite Forall_forall in Hcw.
    apply (Hcw c). eapply list_elem_of_lookup_2. eassumption. }
  destruct (convert_huffman_bytes frame out cds ws (eq_sym Hs) Hro Ews)
    as (chars & pad & Ec & Hpad & Hlen & Hbc & Hu).
  destruct (encode_matrix_from ranks [] Hp) as (md & Em0 & Lm & Hbm & Hd).
  assert (Em : encode_matrix ranks = Some md) by exact Em0.
  exists out, ranks, cnt, cds, t, chars, md, pad.
  split; [assumption|]. split; [assumption|]. split; [assumption|].
  split; [exact Em|]. split; [assumption|]. split; [lia|].
  split; [assumption|]. split.
  { unfold frame_record. rewrite E. simpl. rewrite Eh. simpl.
    rewrite Ec. simpl. rewrite Em. reflexivity. }
  split; [assumption|]. split; [assumption|]. split; [assumption|].
  split; [assumption|]. split; [assumption|]. split.
  { apply Hu. eapply Forall_impl; [exact Hws|]. simpl. tauto. }
  split.
  { eapply Forall_impl; [exact Hws|]. simpl. tauto. }
  split; [assumption|]. split; [|assumption].
  eapply encode_tree_bytes; eassumption.
Qed.

(** The sizes of the three parts of a record. *)
Lemma frame_record_bounds (frame : grid Z) :
  rect frame → quantized frame →
  ∃ matrix_data tree_data chars,
    frame_record frame = Some (matrix_data, tree_data, chars) ∧
    length matrix_data = 14%nat ∧ length tree_data = 6%nat ∧
    (((shape frame).1 * (shape frame).2 + 7) / 8 <= length chars
       <= (6 * ((shape frame).1 * (shape frame).2) + 7) / 8)%nat.
Proof.
  intros Hr Hq.
  destruct (frame_record_parts frame Hr Hq)
    as (out & ranks & cnt & cds & t & chars & md & pad & E & Eh & Hc & Em & _
        & Lm & Ec & Er & Hs & Hro & Hoq & Hpad & Hlen & _ & Hws & _).
  exists md, (encode_tree t), chars. split; [assumption|].
  split; [assumption|]. split.
  { destruct (compute_huffman_final cnt ltac:(lia)) as (cds' & t' & Eh' & _ & Lt & _).
    rewrite Eh in Eh'. injection Eh' as <- <-.
    unfold encode_tree. rewrite length_fmap, length_drop, Lt, Hc. reflexivity. }
  pose proof (join_length_bounds 1 6 _ Hws) as Hb.
  rewrite !length_fmap, (mjoin_rect_length out Hro), Hs in Hb.
  set (n := ((shape frame).1 * (shape frame).2)%nat) in *.
  split.
  - assert ((n + 7) / 8 < S (length chars))%nat; [|lia].
    apply Nat.Div0.div_lt_upper_bound. lia.
  - apply Nat.div_le_lower_bound; lia.
Qed.

(** X18: the record of a quantized frame of [height * width] pixels has 14
    bytes for the rank matrix, 6 for the tree, and between
    [ceil(height*width/8)] and [ceil(6*height*width/8)] bytes of packed
    code words: every pixel costs between one and six bits. *)
Theorem frame_record_size (frame : grid Z) :
  rect frame → quantized frame →
  ∃ matrix_data tree_data chars,
    frame_record frame = Some (matrix_data, tree_data, chars) ∧
    length matrix_data = 14%nat ∧ length tree_data = 6%nat ∧
    (((shape frame).1 * (shape frame).2 + 7) / 8 <= length chars
       <= (6 * ((shape frame).1 * (shape frame).2) + 7) / 8)%nat.
Proof. apply frame_record_bounds. Qed.

Lemma frame_record_size_witness :
  rect [[0; 1; 2]; [3; 1; 0]] ∧ quantized [[0; 1; 2]; [3; 1; 0]] ∧
  ∃ matrix_data tree_data chars,
    frame_record [[0; 1; 2]; [3; 1; 0]]
      = Some (matrix_data, tree_data, chars) ∧
    length matrix_data = 14%nat ∧ length tree_data = 6%nat ∧
    (((shape [[0; 1; 2]; [3; 1; 0]]).1 * (shape [[0; 1; 2]; [3; 1; 0]]).2 + 7)
       / 8 <= length chars
     <= (6 * ((shape [[0; 1; 2]; [3; 1; 0]]).1 *
              (shape [[0; 1; 2]; [3; 1; 0]]).2) + 7) / 8)%nat.
Proof.
  split; [exact example_frame_rect|]. split; [exact example_frame_quantized|].
  exact (frame_record_size _ example_frame_rect example_frame_quantized).
Defined.

(** X19: the codec is lossless: two quantized frames of the same shape
    with the same record (rank-matrix bytes, tree bytes and packed code
    words) are the same frame. *)
Theorem frame_record_injective (f1 f2 : grid Z) :
  rect f1 → quantized f1 → rect f2 → quantized f2 →
  shape f1 = shape f2 →
  frame_record f1 = frame_record f2 →
  f1 = f2.
Proof.
  intros Hr1 Hq1 Hr2 Hq2 Hshape Hrec.
  destruct (frame_record_parts f1 Hr1 Hq1)
    as (out1 & ranks1 & cnt1 & cds1 & t1 & chars1 & md1 & pad1 & E1 & Eh1 & Hc1
        & _ & Hd1 & _ & _ & Er1 & Hs1 & Hro1 & Hoq1 & _ & Hlen1 & Hu1 & _).
  destruct (frame_record_parts f2 Hr2 Hq2)
    as (out2 & ranks2 & cnt2 & cds2 & t2 & chars2 & md2 & pad2 & E2 & Eh2 & Hc2
        & _ & Hd2 & _ & _ & Er2 & Hs2 & Hro2 & Hoq2 & _ & Hlen2 & Hu2 & _).
  rewrite Er1, Er2 in Hrec. injection Hrec as Hmd Htd Hchars.
  subst md2 chars2.
  assert (Hranks : ranks1 = ranks2) by congruence. subst ranks2.
  destruct (same_bytes_same_tree cnt1 cnt2 cds1 cds2 t1 t2 Hc1 Hc2 Eh1 Eh2 Htd)
    as [-> ->].
  rewrite Hu1 in Hu2.
  destruct (compute_huffman_final cnt1 ltac:(lia))
    as (cds' & t' & Eh' & Lc & _ & [_ Hpf] & _).
  rewrite Eh1 in Eh'. injection Eh' as <- <-. rewrite Hc1 in Lc, Hpf.
  assert (Hsyms : Z.to_nat <$> mjoin out1 = Z.to_nat <$> mjoin out2).
  { apply (prefix_code_unique cds2 (seq 0 7) Hpf _ _
             (replicate pad1 "0"%char) (replicate pad2 "0"%char));
      [| | |exact Hu2].
    - apply Forall_fmap. eapply Forall_impl; [exact (quantized_join out1 Hoq1)|].
      intros v Hv. cbv beta in Hv. change (Z.to_nat v ∈ seq 0 7).
      apply elem_of_seq. lia.
    - apply Forall_fmap. eapply Forall_impl; [exact (quantized_join out2 Hoq2)|].
      intros v Hv. cbv beta in Hv. change (Z.to_nat v ∈ seq 0 7).
      apply elem_of_seq. lia.
    - rewrite !length_fmap, (mjoin_rect_length out1 Hro1),
        (mjoin_rect_length out2 Hro2), Hs1, Hs2, Hshape. reflexivity. }
  assert (Hcells : mjoin out1 = mjoin out2).
  { apply (fmap_inj_on Z.to_nat (fun v => 0 <= v < 7));
      [|apply quantized_join; assumption|apply quantized_join; assumption
       |assumption].
    intros a b Ha Hb Hab. lia. }
  assert (Hout : out1 = out2).
  { apply (grid_eq_of_join (shape f1).1 (shape f1).2); [| |assumption].
    - rewrite <- Hs1. apply rect_has_shape. assumption.
    - rewrite Hshape, <- Hs2. apply rect_has_shape. assumption. }
  subst out2.
  rewrite <- Hd1 in E1.
  exact (frames_of_same_ranks f1 f2 out1 _ cnt1 cnt2 Hr1 Hq1 Hr2 Hq2 E1 E2).
Qed.

Lemma frame_record_injective_witness :
  rect [[0; 1; 2]; [3; 1; 0]] ∧ quantized [[0; 1; 2]; [3; 1; 0]] ∧
  rect [[0; 1; 2]; [3; 1; 0]] ∧ quantized [[0; 1; 2]; [3; 1; 0]] ∧
  shape [[0; 1; 2]; [3; 1; 0]] = shape [[0; 1; 2]; [3; 1; 0]] ∧
  frame_record [[0; 1; 2]; [3; 1; 0]] = frame_record [[0; 1; 2]; [3; 1; 0]] ∧
  [[0; 1; 2]; [3; 1; 0]] = [[0; 1; 2]; [3; 1; 0]].
Proof.
  split; [exact example_frame_rect|]. split; [exact example_frame_quantized|].
  split; [exact example_frame_rect|]. split; [exact example_frame_quantized|].
  split; [reflexivity|]. split; [reflexivity|].
  exact (frame_record_injective _ _ example_frame_rect example_frame_quantized
           example_frame_rect example_frame_quantized eq_refl eq_refl).
Defined.

(** ** Running the dithering over a frame *)

Lemma get2_out {A : Type} h w (a : grid A) y x :
  has_shape h w a → (h <= y)%nat ∨ (w <= x)%nat → get2 a y x = None.
Proof.
  intros [Hh Hw] Hout. unfold get2.
  destruct (a !! y) as [r|] eqn:Er; [|reflexivity]. simpl.
  apply lookup_ge_None_2.
  rewrite Forall_forall in Hw.
  rewrite (Hw r (list_elem_of_lookup_2 _ _ _ Er)).
  apply lookup_lt_Some in Er. lia.
Qed.

Lemma set2_shape {A : Type} h w (a a' : grid A) y x (v : A) :
  set2 a y x v = Some a' → has_shape h w a → has_shape h w a'.
Proof.
  unfold set2. intros H Ha.
  destruct (a !! y) as [r|] eqn:Er; [|discriminate]. simpl in H.
  destruct (r !! x) as [v0|] eqn:Ev; [|discriminate]. simpl in H.
  injection H as <-. apply has_shape_insert; [assumption|].
  rewrite length_insert. destruct Ha as [_ Hw].
  rewrite Forall_forall in Hw. apply Hw.
  eapply list_elem_of_lookup_2. eassumption.
Qed.

Lemma raster_elem h w y x :
  (y < h)%nat → (x < w)%nat → (y, x) ∈ raster h w.
Proof.
  intros Hy Hx. unfold raster. apply list_elem_of_bind. exists y. split.
  - apply list_elem_of_fmap. exists x. split; [reflexivity|].
    apply elem_of_seq. lia.
  - apply elem_of_seq. lia.
Qed.

Section DisperserRun.
Context {F : Type}.
Variable flit : Q → F.
Variable f_of_int : Z → F.
Variables fadd fsub fmul fdiv : F → F → F.
Variable f_int : F → Z.

Lemma add_at_shape h w (g g' : grid F) y x (d : F) :
  add_at fadd g y x d = Some g' → has_shape h w g → has_shape h w g'.
Proof.
  unfold add_at. intros H Hg.
  destruct (get2 g y x) as [v|]; [|discriminate]. simpl in H.
  eapply set2_shape; eassumption.
Qed.

Lemma add_at_out h w (g : grid F) y x (d : F) :
  has_shape h w g → (h <= y)%nat ∨ (w <= x)%nat →
  add_at fadd g y x d = None.
Proof.
  intros Hg Hout. unfold add_at. rewrite (get2_out h w g y x Hg Hout).
  reflexivity.
Qed.

(** A guarded [+=] on a cell inside the grid. *)
Lemma guarded_add_at h w (g : grid F) (b : bool) y x (d : F) :
  has_shape h w g → (b = true → (y < h)%nat ∧ (x < w)%nat) →
  ∃ g', (if b then add_at fadd g y x d else Some g) = Some g' ∧
        has_shape h w g' ∧
        ∀ y' x', (y', x') ≠ (y, x) → get2 g' y' x' = get2 g y' x'.
Proof.
  intros Hg Hb. destruct b.
  - destruct (Hb eq_refl) as [Hy Hx].
    destruct (add_at_in fadd h w g y x d Hg Hy Hx)
      as (g' & v & _ & E & Hg' & _ & Hf).
    exists g'. auto.
  - exists g. auto.
Qed.

(** One step of the two loops on a cell of the output grid: it succeeds,
    keeps the shapes, writes the clamped level of the cell to [out] and
    touches [reduced] only at the right neighbour and at the three cells
    below. *)
Lemma process_cell_in h w (reduced : grid F) (out : grid Z) (y x : nat) :
  has_shape h w reduced → (HEIGHT <= h)%nat → (WIDTH <= w)%nat →
  has_shape HEIGHT WIDTH out → quantized out →
  (y < HEIGHT)%nat → (x < WIDTH)%nat →
  ∃ reduced' out' v,
    get2 reduced y x = Some v ∧
    process_cell flit fadd fsub fmul fdiv f_int (reduced, out) (y, x)
      = Some (reduced', out') ∧
    has_shape h w reduced' ∧ has_shape HEIGHT WIDTH out' ∧ quantized out' ∧
    get2 out' y x = Some (Z.min 6 (Z.max 0 (f_int v))) ∧
    (∀ y' x', (y', x') ≠ (y, x) → get2 out' y' x' = get2 out y' x') ∧
    (∀ y' x', (y', x') ≠ (y, (x + 1)%nat) → (y', x') ≠ ((y + 1)%nat, x) →
              (y', x') ≠ ((y + 1)%nat, (x + 1)%nat) →
              (y', x') ≠ ((y + 1)%nat, (x - 1)%nat) →
              get2 reduced' y' x' = get2 reduced y' x').
Proof.
  intros Hr Hh Hw Ho Hq Hy Hx.
  destruct (get2_in h w reduced y x Hr) as (r & v & _ & _ & Ev); [lia..|].
  destruct (level_in_table flit f_int v) as [lv Elv].
  set (err16 := fdiv (fsub v lv) (flit 16)).
  destruct (guarded_add_at h w reduced (x + 1 <? WIDTH)%nat y (x + 1)
              (fmul (flit 7) err16) Hr) as (r1 & E1 & H1 & F1).
  { intros Hb. apply Nat.ltb_lt in Hb. lia. }
  assert (∃ r4,
    (if (y + 1 <? HEIGHT)%nat then
       reduced ← add_at fadd r1 (y + 1) x (fmul (flit 5) err16);
       reduced ← (if (x + 1 <? WIDTH)%nat
                  then add_at fadd reduced (y + 1) (x + 1)
                              (fmul (flit 1) err16)
                  else Some reduced);
       if 0 <? Z.of_nat x - 1
       then add_at fadd reduced (y + 1) (x - 1) (fmul (flit 3) err16)
       else Some reduced
     else Some r1) = Some r4 ∧ has_shape h w r4 ∧
    ∀ y' x', (y', x') ≠ ((y + 1)%nat, x) →
             (y', x') ≠ ((y + 1)%nat, (x + 1)%nat) →
             (y', x') ≠ ((y + 1)%nat, (x - 1)%nat) →
             get2 r4 y' x' = get2 r1 y' x') as (r4 & E4 & H4 & F4).
  { destruct (Nat.ltb_spec (y + 1) HEIGHT) as [Hy1|Hy1]; [|exists r1; auto].
    destruct (add_at_in fadd h w r1 (y + 1) x (fmul (flit 5) err16) H1)
      as (r2 & ? & _ & E2 & H2 & _ & F2); [lia..|].
    destruct (guarded_add_at h w r2 (x + 1 <? WIDTH)%nat (y + 1) (x + 1)
                (fmul (flit 1) err16) H2) as (r3 & E3 & H3 & F3).
    { intros Hb. apply Nat.ltb_lt in Hb. lia. }
    destruct (guarded_add_at h w r3 (0 <? Z.of_nat x - 1) (y + 1) (x - 1)
                (fmul (flit 3) err16) H3) as (r4 & E4 & H4 & F4).
    { intros Hb. apply Z.ltb_lt in Hb. lia. }
    exists r4. rewrite E2. simpl. rewrite E3. simpl.
    split; [assumption|]. split; [assumption|].
    intros y' x' N1 N2 N3. rewrite F4, F3, F2 by assumption. reflexivity. }
  destruct (set2_in _ _ out y x (Z.min 6 (Z.max 0 (f_int v))) Ho Hy Hx)
    as (out' & Eo & Ho' & Go).
  exists r4, out', v. split; [assumption|]. split.
  { unfold process_cell. rewrite Ev. simpl. rewrite Elv. simpl.
    fold err16. rewrite E1. simpl. rewrite E4. simpl. rewrite Eo.
    reflexivity. }
  split; [assumption|]. split; [assumption|]. split.
  { eapply set2_quantized; [eassumption|assumption|lia]. }
  split; [assumption|]. split.
  { intros y' x' Hne. eapply set2_other; eassumption. }
  intros y' x' N1 N2 N3 N4. rewrite F4, F1 by assumption. reflexivity.
Qed.

(** A step that returns keeps the shape of [reduced]. *)
Lemma process_cell_shape h w (st st' : grid F * grid Z) (yx : nat * nat) :
  process_cell flit fadd fsub fmul fdiv f_int st yx = Some st' →
  has_shape h w st.1 → has_shape h w st'.1.
Proof.
  destruct st as [reduced out], yx as [y x]. unfold process_cell.
  intros H Hr. simpl in Hr.
  destruct (get2 reduced y x) as [v|]; [|discriminate]. simpl in H.
  destruct (LEVELS flit !! Z.to_nat (Z.min 6 (Z.max 0 (f_int v))))
    as [lv|]; [|discriminate]. simpl in H.
  set (err16 := fdiv (fsub v lv) (flit 16)) in H.
  destruct (if (x + 1 <? WIDTH)%nat
            then add_at fadd reduced y (x + 1) (fmul (flit 7) err16)
            else Some reduced) as [r1|] eqn:E1; [|discriminate].
  simpl in H.
  assert (H1 : has_shape h w r1).
  { destruct (x + 1 <? WIDTH)%nat.
    - eapply add_at_shape; eassumption.
    - injection E1 as <-. assumption. }
  match type of H with
  | (?X ≫= _) = _ => destruct X as [r4|] eqn:E4; [|discriminate]
  end.
  simpl in H.
  assert (H4 : has_shape h w r4).
  { destruct (y + 1 <? HEIGHT)%nat; [|injection E4 as <-; assumption].
    destruct (add_at fadd r1 (y + 1) x (fmul (flit 5) err16))
      as [r2|] eqn:E2; [|discriminate]. simpl in E4.
    pose proof (add_at_shape _ _ _ _ _ _ _ E2 H1) as H2.
    destruct (if (x + 1 <? WIDTH)%nat
              then add_at fadd r2 (y + 1) (x + 1) (fmul (flit 1) err16)
              else Some r2) as [r3|] eqn:E3; [|discriminate].
    simpl in E4.
    assert (H3 : has_shape h w r3).
    { destruct (x + 1 <? WIDTH)%nat.
      - eapply add_at_shape; eassumption.
      - injection E3 as <-. assumption. }
    destruct (0 <? Z.of_nat x - 1).
    - eapply add_at_shape; eassumption.
    - injection E4 as <-. assumption. }
  destruct (set2 out y x (Z.min 6 (Z.max 0 (f_int v)))) as [out'|];
    [|discriminate].
  simpl in H. injection H as <-. assumption.
Qed.

(** On a grid that is too small some cell of the loops raises. *)
Lemma process_cell_raises h w :
  (h < HEIGHT)%nat ∨ (w < WIDTH)%nat →
  ∃ y x, (y < HEIGHT)%nat ∧ (x < WIDTH)%nat ∧
    ∀ st : grid F * grid Z, has_shape h w st.1 →
      process_cell flit fadd fsub fmul fdiv f_int st (y, x) = None.
Proof.
  assert (HH : (2 <= HEIGHT)%nat) by (vm_compute; lia).
  assert (HW : (2 <= WIDTH)%nat) by (vm_compute; lia).
  intros Hsmall.
  destruct (decide (h = 0%nat ∨ w = 0%nat)) as [Hz|Hnz].
  { exists 0%nat, 0%nat. split; [lia|]. split; [lia|].
    intros [reduced out] Hr. simpl in Hr. unfold process_cell.
    rewrite (get2_out h w reduced 0 0 Hr) by lia. reflexivity. }
  destruct (decide (w < WIDTH)%nat) as [Hw|Hw].
  - exists 0%nat, (w - 1)%nat. split; [lia|]. split; [lia|].
    intros [reduced out] Hr. simpl in Hr. unfold process_cell.
    destruct (get2_in h w reduced 0 (w - 1) Hr) as (r & v & _ & _ & Ev);
      [lia..|].
    rewrite Ev. simpl.
    destruct (level_in_table flit f_int v) as [lv ->]. simpl.
    destruct (Nat.ltb_spec (w - 1 + 1) WIDTH) as [_|Hge]; [|lia].
    rewrite (add_at_out h w reduced 0 (w - 1 + 1) _ Hr) by lia. reflexivity.
  - exists (h - 1)%nat, 0%nat. split; [lia|]. split; [lia|].
    intros [reduced out] Hr. simpl in Hr. unfold process_cell.
    destruct (get2_in h w reduced (h - 1) 0 Hr) as (r & v & _ & _ & Ev);
      [lia..|].
    rewrite Ev. simpl.
    destruct (level_in_table flit f_int v) as [lv ->]. simpl.
    destruct (Nat.ltb_spec (0 + 1) WIDTH) as [_|Hge]; [|lia].
    destruct (add_at_in fadd h w reduced (h - 1) 1
                (fmul (flit 7) (fdiv (fsub v lv) (flit 16))) Hr)
      as (r1 & ? & _ & E1 & H1 & _); [lia..|].
    rewrite E1. simpl.
    destruct (Nat.ltb_spec (h - 1 + 1) HEIGHT) as [_|Hge]; [|lia].
    rewrite (add_at_out h w r1 (h - 1 + 1) 0 _ H1) by lia. reflexivity.
Qed.

Lemma scaled_shape h w (scaled : grid Z) :
  has_shape h w scaled →
  has_shape h w
    (map (map (fun v => fdiv (fmul (f_of_int v) (flit 6)) (flit 255))) scaled).
Proof.
  intros [Hh Hw]. split.
  - rewrite length_map. assumption.
  - apply Forall_map. eapply Forall_impl; [exact Hw|].
    intros r Hr. simpl. rewrite length_map. exact Hr.
Qed.

(** The dithering of a frame that has at least [HEIGHT] rows of at least
    [WIDTH] cells. *)
Lemma process_frame_in h w (scaled : grid Z) :
  has_shape h w scaled → (HEIGHT <= h)%nat → (WIDTH <= w)%nat →
  ∃ out, process_frame flit f_of_int fadd fsub fmul fdiv f_int scaled
           = Some out ∧
         has_shape HEIGHT WIDTH out ∧ quantized out.
Proof.
  intros Hs Hh Hw.
  destruct (for_loop_inv (process_cell flit fadd fsub fmul fdiv f_int)
              (fun st => has_shape h w st.1 ∧ has_shape HEIGHT WIDTH st.2 ∧
                         quantized st.2)
              (fun yx => (yx.1 < HEIGHT)%nat ∧ (yx.2 < WIDTH)%nat)
              (raster HEIGHT WIDTH)
              (map (map (fun v => fdiv (fmul (f_of_int v) (flit 6))
                                       (flit 255))) scaled,
               zeros2 HEIGHT WIDTH))
    as ([reduced out] & E & _ & Ho & Hq).
  - intros [reduced out] [y x] (Hr & Ho & Hq) [Hy Hx]. simpl in *.
    destruct (process_cell_in h w reduced out y x Hr Hh Hw Ho Hq Hy Hx)
      as (r' & o' & v & _ & E & Hr' & Ho' & Hq' & _).
    exists (r', o'). auto.
  - simpl. split; [apply scaled_shape; assumption|].
    split; [apply zeros2_shape|apply zeros2_quantized].
  - apply raster_bounds.
  - exists out. unfold process_frame. rewrite E. simpl. auto.
Qed.

(** X20: [process_frame] on a frame of [h] rows of [w] cells with
    [HEIGHT <= h] and [WIDTH <= w] returns a grid of [HEIGHT] rows of
    [WIDTH] cells whose cells are levels between 0 and 6, whatever the
    floating-point operations compute. *)
Theorem process_frame_levels h w (scaled : grid Z) :
  has_shape h w scaled → (HEIGHT <= h)%nat → (WIDTH <= w)%nat →
  ∃ out, process_frame flit f_of_int fadd fsub fmul fdiv f_int scaled
           = Some out ∧
         has_shape HEIGHT WIDTH out ∧ quantized out.
Proof. apply process_frame_in. Qed.


(** X22: [process_frame] raises [IndexError] on a frame with fewer than
    [HEIGHT] rows or fewer than [WIDTH] columns. *)
Theorem process_frame_raises_on_small_frame h w (scaled : grid Z) :
  has_shape h w scaled → (h < HEIGHT)%nat ∨ (w < WIDTH)%nat →
  process_frame flit f_of_int fadd fsub fmul fdiv f_int scaled = None.
Proof.
  intros Hs Hsmall.
  destruct (process_cell_raises h w Hsmall) as (y & x & Hy & Hx & Hfail).
  destruct (list_elem_of_split (raster HEIGHT WIDTH) (y, x)
              (raster_elem _ _ _ _ Hy Hx)) as (l1 & l2 & El).
  unfold process_frame. rewrite El.
  rewrite (for_loop_raises (process_cell flit fadd fsub fmul fdiv f_int)
             (fun st => has_shape h w st.1) l1 l2 (y, x)).
  - reflexivity.
  - intros st b st' Hst E. eapply process_cell_shape; eassumption.
  - assumption.
  - simpl. apply scaled_shape. assumption.
Qed.
End DisperserRun.

Lemma process_frame_levels_witness :
  has_shape HEIGHT WIDTH (replicate HEIGHT (replicate WIDTH 128)) ∧
  (HEIGHT <= HEIGHT)%nat ∧ (WIDTH <= WIDTH)%nat ∧
  ∃ out, process_frame (fun q => q) inject_Z Qplus Qminus Qmult Qdiv Qfloor
           (replicate HEIGHT (replicate WIDTH 128)) = Some out ∧
         has_shape HEIGHT WIDTH out ∧ quantized out.
Proof.
  split; [apply replicate_shape|]. split; [lia|]. split; [lia|].
  exact (process_frame_levels (fun q => q) inject_Z Qplus Qminus Qmult Qdiv
           Qfloor HEIGHT WIDTH _ (replicate_shape _ _ _)
           (Nat.le_refl _) (Nat.le_refl _)).
Defined.


Lemma small_frame_shape : has_shape 2 3 [[10; 20; 30]; [40; 50; 60]].
Proof. split; [reflexivity|]. repeat constructor. Qed.

Lemma small_frame_small : (2 < HEIGHT)%nat ∨ (3 < WIDTH)%nat.
Proof. left. vm_compute. lia. Qed.

Lemma process_frame_raises_on_small_frame_witness :
  has_shape 2 3 [[10; 20; 30]; [40; 50; 60]] ∧
  ((2 < HEIGHT)%nat ∨ (3 < WIDTH)%nat) ∧
  process_frame (fun q => q) inject_Z Qplus Qminus Qmult Qdiv Qfloor
    [[10; 20; 30]; [40; 50; 60]] = None.
Proof.
  split; [exact small_frame_shape|]. split; [exact small_frame_small|].
  exact (process_frame_raises_on_small_frame (fun q => q) inject_Z Qplus
           Qminus Qmult Qdiv Qfloor 2 3 _ small_frame_shape small_frame_small).
Defined.

(** ** frame_to_str *)

Lemma charset_at_in (v : Z) : 0 <= v < 7 → charset_at v = Some (glyph v).
Proof.
  intros Hv. unfold charset_at, glyph.
  change (length CHARSET) with 7%nat.
  rewrite (py_index_nonneg 7 v) by lia. simpl.
  destruct (lookup_lt_is_Some_2 CHARSET (Z.to_nat v)) as [c Ec];
    [simpl; lia|].
  rewrite Ec. reflexivity.
Qed.

Lemma charset_at_out (v : Z) : ¬ (-7 <= v < 7) → charset_at v = None.
Proof.
  intros Hv. unfold charset_at, py_index.
  change (length CHARSET) with 7%nat.
  destruct (Z.leb_spec 0 v), (Z.ltb_spec v (Z.of_nat 7)),
    (Z.leb_spec (- Z.of_nat 7) v), (Z.ltb_spec v 0);
    simpl; try reflexivity; lia.
Qed.

Lemma glyph_inj (a b : Z) :
  0 <= a < 7 → 0 <= b < 7 → glyph a = glyph b → a = b.
Proof.
  intros Ha Hb.
  assert (Ea : a = 0 ∨ a = 1 ∨ a = 2 ∨ a = 3 ∨ a = 4 ∨ a = 5 ∨ a = 6) by lia.
  assert (Eb : b = 0 ∨ b = 1 ∨ b = 2 ∨ b = 3 ∨ b = 4 ∨ b = 5 ∨ b = 6) by lia.
  destruct Ea as [->|[->|[->|[->|[->|[->| ->]]]]]];
    destruct Eb as [->|[->|[->|[->|[->|[->| ->]]]]]];
    vm_compute; intros [=]; reflexivity.
Qed.

Lemma get2_row {A : Type} (a : grid A) (y x : nat) (r : list A) :
  a !! y = Some r → get2 a y x = r !! x.
Proof. intros H. unfold get2. rewrite H. reflexivity. Qed.

(** The inner loop appends the characters of a stretch of the row. *)
Lemma line_loop (frame : grid Z) (y : nat) (r : list Z) :
  frame !! y = Some r → Forall (fun v => 0 <= v < 7) r →
  ∀ n k line, (k + n <= length r)%nat →
    for_loop (fun line x =>
                v ← get2 frame y x; c ← charset_at v; Some (line ++ [c]))
             line (seq k n)
      = Some (line ++ (glyph <$> take n (drop k r))).
Proof.
  intros Hy Hq. induction n as [|n IH]; intros k line Hk.
  - simpl. rewrite app_nil_r. reflexivity.
  - destruct (lookup_lt_is_Some_2 r k) as [v Ev]; [lia|].
    cbn [seq for_loop]. rewrite (get2_row frame y k r Hy), Ev. simpl.
    rewrite charset_at_in
      by (rewrite Forall_forall in Hq; apply Hq;
          eapply list_elem_of_lookup_2; eassumption).
    simpl. rewrite (IH (S k) (line ++ [glyph v])) by lia.
    rewrite (drop_S r v k Ev). simpl. rewrite <- app_assoc. reflexivity.
Qed.

(** The outer loop appends the lines of a stretch of the frame. *)
Lemma text_loop (frame : grid Z) :
  has_shape HEIGHT WIDTH frame → quantized frame →
  ∀ n k line, (k + n <= HEIGHT)%nat →
    for_loop (fun line y =>
                line ← for_loop (fun line x =>
                                   v ← get2 frame y x;
                                   c ← charset_at v;
                                   Some (line ++ [c]))
                                line (seq 0 WIDTH);
                Some (line ++ ["010"%char]))
             line (seq k n)
      = Some (line ++ mjoin (text_rows (take n (drop k frame)))).
Proof.
  intros [Hh Hw] Hq. induction n as [|n IH]; intros k line Hk.
  - simpl. rewrite app_nil_r. reflexivity.
  - destruct (lookup_lt_is_Some_2 frame k) as [r Er]; [lia|].
    pose proof (list_elem_of_lookup_2 _ _ _ Er) as Hin.
    unfold quantized in Hq. rewrite Forall_forall in Hw, Hq.
    cbn [seq for_loop].
    rewrite (line_loop frame k r Er (Hq r Hin) WIDTH 0 line)
      by (rewrite (Hw r Hin); lia).
    simpl. rewrite IH by lia.
    rewrite (drop_S frame r k Er). simpl.
    rewrite drop_0, take_ge by (rewrite (Hw r Hin); lia).
    rewrite <- !app_assoc. reflexivity.
Qed.

Lemma frame_to_str_text (frame : grid Z) :
  has_shape HEIGHT WIDTH frame → quantized frame →
  frame_to_str frame = Some (mjoin (text_rows frame)).
Proof.
  intros Hs Hq. unfold frame_to_str.
  rewrite (text_loop frame Hs Hq HEIGHT 0 []) by lia.
  rewrite drop_0, take_ge by (destruct Hs as [-> _]; lia).
  reflexivity.
Qed.

Lemma text_rows_shape h w (frame : grid Z) :
  has_shape h w frame → has_shape h (w + 1) (text_rows frame).
Proof.
  intros [Hh Hw]. split.
  - unfold text_rows. rewrite length_fmap. assumption.
  - unfold text_rows. apply Forall_fmap.
    eapply Forall_impl; [exact Hw|]. intros r Hr. simpl.
    rewrite length_app, length_fmap, Hr. reflexivity.
Qed.

(** The cell [(y, x)] of a grid of rows of [w] cells is the item
    [y * w + x] of the rows written one after the other. *)
Lemma lookup_join_rect {A : Type} (w : nat) (a : grid A) :
  Forall (fun r => length r = w) a →
  ∀ y x, (x < w)%nat → mjoin a !! (y * w + x)%nat = get2 a y x.
Proof.
  induction 1 as [|r a Hr Ha IH]; intros y x Hx.
  - unfold get2. simpl. rewrite !lookup_nil. reflexivity.
  - destruct y as [|y]; simpl.
    + rewrite lookup_app_l by lia. reflexivity.
    + rewrite lookup_app_r by lia.
      replace (w + y * w + x - length r)%nat with (y * w + x)%nat by lia.
      rewrite IH by assumption. reflexivity.
Qed.

Lemma join_shape_length {A : Type} h w (a : grid A) :
  has_shape h w a → length (mjoin a) = (h * w)%nat.
Proof.
  intros [<- Hw]. induction Hw as [|r a Hr Ha IH]; [reflexivity|].
  simpl. rewrite length_app, Hr, IH. reflexivity.
Qed.

(** X23: for a frame of [HEIGHT] rows of [WIDTH] levels, [frame_to_str]
    returns [HEIGHT] lines of [WIDTH] characters, each followed by a
    newline: the text has [HEIGHT * (WIDTH + 1)] characters, the character
    [y * (WIDTH + 1) + x] is [CHARSET[frame[y, x]]] and the character
    [y * (WIDTH + 1) + WIDTH] is the newline. *)
Theorem frame_to_str_lines (frame : grid Z) :
  has_shape HEIGHT WIDTH frame → quantized frame →
  ∃ s, frame_to_str frame = Some s ∧
       length s = (HEIGHT * (WIDTH + 1))%nat ∧
       (∀ y x v, (x < WIDTH)%nat → get2 frame y x = Some v →
                 s !! (y * (WIDTH + 1) + x)%nat = CHARSET !! Z.to_nat v) ∧
       (∀ y, (y < HEIGHT)%nat →
             s !! (y * (WIDTH + 1) + WIDTH)%nat = Some "010"%char).
Proof.
  intros Hs Hq. exists (mjoin (text_rows frame)).
  pose proof (text_rows_shape _ _ frame Hs) as [Hth Htw].
  split; [apply frame_to_str_text; assumption|]. split; [|split].
  - apply (join_shape_length HEIGHT (WIDTH + 1)). split; assumption.
  - intros y x v Hx Ev.
    rewrite (lookup_join_rect (WIDTH + 1) _ Htw) by lia.
    unfold get2, text_rows in *. rewrite list_lookup_fmap.
    destruct (frame !! y) as [r|] eqn:Er; [|discriminate]. simpl in *.
    pose proof (lookup_lt_Some _ _ _ Ev) as Hlt.
    rewrite lookup_app_l by (rewrite length_fmap; lia).
    rewrite list_lookup_fmap, Ev. simpl.
    assert (Hv : 0 <= v < 7).
    { unfold quantized in Hq. rewrite Forall_forall in Hq.
      specialize (Hq r (list_elem_of_lookup_2 _ _ _ Er)).
      rewrite Forall_forall in Hq. apply Hq.
      eapply list_elem_of_lookup_2. eassumption. }
    unfold glyph.
    destruct (lookup_lt_is_Some_2 CHARSET (Z.to_nat v)) as [c Ec];
      [simpl; lia|].
    rewrite Ec. reflexivity.
  - intros y Hy.
    rewrite (lookup_join_rect (WIDTH + 1) _ Htw) by lia.
    destruct Hs as [Hh Hw].
    destruct (lookup_lt_is_Some_2 frame y) as [r Er]; [lia|].
    unfold get2, text_rows. rewrite list_lookup_fmap, Er. simpl.
    rewrite Forall_forall in Hw.
    pose proof (Hw r (list_elem_of_lookup_2 _ _ _ Er)) as Hlen.
    rewrite lookup_app_r by (rewrite length_fmap; lia).
    rewrite length_fmap, Hlen, Nat.sub_diag. reflexivity.
Qed.

Lemma uniform_quantized h w (v : Z) :
  0 <= v < 7 → quantized (replicate h (replicate w v)).
Proof.
  intros Hv. unfold quantized. apply Forall_replicate, Forall_replicate.
  exact Hv.
Qed.

Lemma frame_to_str_lines_witness :
  has_shape HEIGHT WIDTH (replicate HEIGHT (replicate WIDTH 3)) ∧
  quantized (replicate HEIGHT (replicate WIDTH 3)) ∧
  ∃ s, frame_to_str (replicate HEIGHT (replicate WIDTH 3)) = Some s ∧
       length s = (HEIGHT * (WIDTH + 1))%nat ∧
       (∀ y x v, (x < WIDTH)%nat →
                 get2 (replicate HEIGHT (replicate WIDTH 3)) y x = Some v →
                 s !! (y * (WIDTH + 1) + x)%nat = CHARSET !! Z.to_nat v) ∧
       (∀ y, (y < HEIGHT)%nat →
             s !! (y * (WIDTH + 1) + WIDTH)%nat = Some "010"%char).
Proof.
  split; [apply replicate_shape|]. split; [apply uniform_quantized; lia|].
  exact (frame_to_str_lines _ (replicate_shape _ _ _)
           (uniform_quantized _ _ 3 ltac:(lia))).
Defined.

(** X24: the text determines the frame: two frames of [HEIGHT] rows of
    [WIDTH] levels with the same text are the same frame (the seven
    characters of [CHARSET] are distinct). *)
Theorem frame_to_str_injective (f1 f2 : grid Z) :
  has_shape HEIGHT WIDTH f1 → quantized f1 →
  has_shape HEIGHT WIDTH f2 → quantized f2 →
  frame_to_str f1 = frame_to_str f2 → f1 = f2.
Proof.
  intros Hs1 Hq1 Hs2 Hq2 E.
  rewrite (frame_to_str_text f1 Hs1 Hq1), (frame_to_str_text f2 Hs2 Hq2) in E.
  injection E as E.
  apply (grid_eq_of_join HEIGHT (WIDTH + 1)) in E;
    [|apply text_rows_shape; assumption..].
  unfold text_rows in E.
  apply (fmap_inj_on _ (Forall (fun v => 0 <= v < 7)) f1) in E;
    [assumption| |assumption..].
  intros r1 r2 H1 H2 Er. apply app_inj_tail in Er as [Er _].
  apply (fmap_inj_on glyph (fun v => 0 <= v < 7)) in Er;
    [assumption| |assumption..].
  intros a b. apply glyph_inj.
Qed.

Lemma frame_to_str_injective_witness :
  has_shape HEIGHT WIDTH (replicate HEIGHT (replicate WIDTH 3)) ∧
  quantized (replicate HEIGHT (replicate WIDTH 3)) ∧
  has_shape HEIGHT WIDTH (replicate HEIGHT (replicate WIDTH 3)) ∧
  quantized (replicate HEIGHT (replicate WIDTH 3)) ∧
  frame_to_str (replicate HEIGHT (replicate WIDTH 3))
    = frame_to_str (replicate HEIGHT (replicate WIDTH 3)) ∧
  replicate HEIGHT (replicate WIDTH 3)
    = replicate HEIGHT (replicate WIDTH 3).
Proof.
  split; [apply replicate_shape|]. split; [apply uniform_quantized; lia|].
  split; [apply replicate_shape|]. split; [apply uniform_quantized; lia|].
  split; [reflexivity|].
  exact (frame_to_str_injective _ _ (replicate_shape _ _ _)
           (uniform_quantized _ _ 3 ltac:(lia)) (replicate_shape _ _ _)
           (uniform_quantized _ _ 3 ltac:(lia)) eq_refl).
Defined.

(** X25: [frame_to_str] raises [IndexError] when some cell of the
    [HEIGHT] by [WIDTH] window is missing or holds a value outside
    [-7 .. 6], the indices that [CHARSET] accepts. *)
Theorem frame_to_str_raises (frame : grid Z) (y x : nat) :
  (y < HEIGHT)%nat → (x < WIDTH)%nat →
  (∀ v, get2 frame y x = Some v → ¬ (-7 <= v < 7)) →
  frame_to_str frame = None.
Proof.
  intros Hy Hx Hbad.
  destruct (list_elem_of_split (seq 0 HEIGHT) y) as (l1 & l2 & El);
    [apply elem_of_seq; lia|].
  destruct (list_elem_of_split (seq 0 WIDTH) x) as (m1 & m2 & Em);
    [apply elem_of_seq; lia|].
  unfold frame_to_str. rewrite El.
  apply (for_loop_raises _ (fun _ => True)); [auto| |exact I].
  intros line _. rewrite Em.
  rewrite (for_loop_raises _ (fun _ => True) m1 m2 x); [reflexivity|auto| |exact I].
  intros line' _. destruct (get2 frame y x) as [v|] eqn:Ev; [|reflexivity].
  simpl. rewrite (charset_at_out v (Hbad v eq_refl)). reflexivity.
Qed.

Lemma frame_to_str_raises_witness :
  (0 < HEIGHT)%nat ∧ (2 < WIDTH)%nat ∧
  (∀ v, get2 [[0; 1; 7; 3]] 0 2 = Some v → ¬ (-7 <= v < 7)) ∧
  frame_to_str [[0; 1; 7; 3]] = None.
Proof.
  split; [vm_compute; lia|]. split; [vm_compute; lia|].
  split; [intros v [= <-]; lia|].
  apply (frame_to_str_raises [[0; 1; 7; 3]] 0 2);
    [vm_compute; lia|vm_compute; lia|intros v [= <-]; lia].
Defined.

(** ** The loop over the frames *)

Lemma bytearray_bytes (l : list Z) :
  Forall (fun b => 0 <= b < 256) l → bytearray l = Some l.
Proof.
  intros H. unfold bytearray.
  replace (forallb _ l) with true; [reflexivity|].
  symmetry. apply forallb_forall. intros b Hb.
  rewrite List.Forall_forall in H. specialize (H b Hb). simpl in H.
  apply andb_true_intro. split; [apply Z.leb_le|apply Z.ltb_lt]; lia.
Qed.

Lemma has_shape_rect {A : Type} h w (a : grid A) :
  has_shape h w a → (0 < h)%nat → rect a ∧ shape a = (h, w).
Proof.
  intros [Hh Hw] Hpos. destruct a as [|r a]; [simpl in Hh; lia|].
  pose proof Hw as Hw'. apply Forall_cons in Hw' as [Hr _].
  unfold rect, shape. simpl in *. subst h w. split; [exact Hw|reflexivity].
Qed.

Lemma HEIGHT_WIDTH_cells :
  (0 < HEIGHT)%nat ∧ ((HEIGHT * WIDTH + 7) / 8 = 220)%nat ∧
  ((6 * (HEIGHT * WIDTH) + 7) / 8 = 1320)%nat.
Proof. vm_compute. repeat split; lia. Qed.

(** One pass of the loop body over a quantized frame. *)
Lemma write_frame_in (frame : grid Z) (data : list Z) (size : Z) :
  rect frame → quantized frame →
  write_frame (data, size) frame
    = Some (data ++ record_bytes frame,
            size + Z.of_nat (length (record_bytes frame))) ∧
  Forall (fun b => 0 <= b < 256) (record_bytes frame) ∧
  (20 + ((shape frame).1 * (shape frame).2 + 7) / 8
     <= length (record_bytes frame)
     <= 20 + (6 * ((shape frame).1 * (shape frame).2) + 7) / 8)%nat.
Proof.
  intros Hr Hq.
  destruct (frame_record_parts frame Hr Hq)
    as (out & ranks & cnt & cds & t & chars & md & pad & _ & _ & _ & _ & _
        & _ & _ & Er & _ & _ & _ & _ & _ & _ & _ & Hbm & Hbt & Hbc).
  destruct (frame_record_bounds frame Hr Hq)
    as (md' & td' & chars' & Er' & Lm & Lt & Lc).
  rewrite Er in Er'. injection Er' as <- <- <-.
  assert (Eb : record_bytes frame = md ++ encode_tree t ++ chars).
  { unfold record_bytes. rewrite Er. reflexivity. }
  rewrite Eb. split; [|split].
  - unfold write_frame. rewrite Er. simpl.
    rewrite (bytearray_bytes md Hbm). simpl.
    rewrite (bytearray_bytes _ Hbt). simpl.
    rewrite (bytearray_bytes chars Hbc). simpl.
    f_equal. f_equal; [rewrite <- !app_assoc; reflexivity|].
    rewrite !length_app. lia.
  - apply Forall_app. split; [assumption|].
    apply Forall_app. split; assumption.
  - rewrite !length_app, Lm, Lt. revert Lc.
    generalize (((shape frame).1 * (shape frame).2 + 7) / 8)%nat,
               ((6 * ((shape frame).1 * (shape frame).2) + 7) / 8)%nat.
    intros lo hi Lc. lia.
Qed.

Lemma stream_cons (f : grid Z) (frames : list (grid Z)) :
  stream (f :: frames) = record_bytes f ++ stream frames.
Proof. reflexivity. Qed.

Lemma main_loop_from (frames : list (grid Z)) :
  Forall (fun f => rect f ∧ quantized f) frames →
  ∀ data size,
    for_loop write_frame (data, size) frames
      = Some (data ++ stream frames,
              size + Z.of_nat (length (stream frames))).
Proof.
  induction 1 as [|f frames [Hr Hq] _ IH]; intros data size.
  - simpl. rewrite app_nil_r, Z.add_0_r. reflexivity.
  - destruct (write_frame_in f data size Hr Hq) as (E & _).
    cbn [for_loop]. rewrite E. cbn [mbind option_bind]. rewrite IH.
    rewrite stream_cons, <- app_assoc, length_app.
    f_equal. f_equal. lia.
Qed.

Lemma stream_bounds (frames : list (grid Z)) :
  Forall (fun f => has_shape HEIGHT WIDTH f ∧ quantized f) frames →
  Forall (fun b => 0 <= b < 256) (stream frames) ∧
  (240 * length frames <= length (stream frames)
     <= 1340 * length frames)%nat.
Proof.
  destruct HEIGHT_WIDTH_cells as (Hpos & Hlo & Hhi).
  induction 1 as [|f frames [Hs Hq] _ [IHb IHl]].
  - split; [constructor|simpl; lia].
  - destruct (has_shape_rect _ _ f Hs Hpos) as [Hr Hsh].
    destruct (write_frame_in f [] 0 Hr Hq) as (_ & Hb & Hl).
    rewrite Hsh in Hl. cbn [fst snd] in Hl. rewrite Hlo, Hhi in Hl.
    rewrite stream_cons. split.
    + apply Forall_app. split; assumption.
    + rewrite length_app, length_cons. lia.
Qed.

(** X26: the loop over the frames of a video runs to the end on frames of
    [HEIGHT] rows of [WIDTH] levels: nothing raises, every item written is
    a byte, [size] ends as the number of bytes written to the file, and
    each frame costs between 240 and 1340 bytes. *)
Theorem main_loop_size (frames : list (grid Z)) :
  Forall (fun f => has_shape HEIGHT WIDTH f ∧ quantized f) frames →
  ∃ data size,
    main_loop frames = Some (data, size) ∧
    size = Z.of_nat (length data) ∧
    Forall (fun b => 0 <= b < 256) data ∧
    240 * Z.of_nat (length frames) <= size <= 1340 * Z.of_nat (length frames).
Proof.
  intros H. destruct (stream_bounds frames H) as [Hb Hl].
  exists (stream frames), (Z.of_nat (length (stream frames))).
  split; [|split; [reflexivity|split; [assumption|lia]]].
  unfold main_loop. rewrite main_loop_from; [reflexivity|].
  eapply Forall_impl; [exact H|]. intros f [Hs Hq]. simpl.
  split; [|assumption].
  apply (has_shape_rect _ _ f Hs). apply HEIGHT_WIDTH_cells.
Qed.

Lemma two_uniform_frames :
  Forall (fun f => has_shape HEIGHT WIDTH f ∧ quantized f)
    [replicate HEIGHT (replicate WIDTH 3); replicate HEIGHT (replicate WIDTH 0)].
Proof.
  apply Forall_cons. split.
  { split; [apply replicate_shape|apply uniform_quantized; lia]. }
  apply Forall_cons. split; [|constructor].
  split; [apply replicate_shape|apply uniform_quantized; lia].
Qed.

Lemma main_loop_size_witness :
  Forall (fun f => has_shape HEIGHT WIDTH f ∧ quantized f)
    [replicate HEIGHT (replicate WIDTH 3);
     replicate HEIGHT (replicate WIDTH 0)] ∧
  ∃ data size,
    main_loop [replicate HEIGHT (replicate WIDTH 3);
               replicate HEIGHT (replicate WIDTH 0)] = Some (data, size) ∧
    size = Z.of_nat (length data) ∧
    Forall (fun b => 0 <= b < 256) data ∧
    240 * Z.of_nat (length [replicate HEIGHT (replicate WIDTH 3);
                            replicate HEIGHT (replicate WIDTH 0)])
      <= size
      <= 1340 * Z.of_nat (length [replicate HEIGHT (replicate WIDTH 3);
                                  replicate HEIGHT (replicate WIDTH 0)]).
Proof.
  split; [exact two_uniform_frames|].
  exact (main_loop_size _ two_uniform_frames).
Defined.

Lemma byte_bits_join_app (a b : list Z) :
  mjoin (byte_bits <$> (a ++ b))
    = mjoin (byte_bits <$> a) ++ mjoin (byte_bits <$> b).
Proof. rewrite fmap_app, join_app. reflexivity. Qed.

(** The first record of a stream of bytes determines its frame. *)
Lemma record_head_injective (f1 f2 : grid Z) (rest1 rest2 : list Z) :
  rect f1 → quantized f1 → rect f2 → quantized f2 →
  shape f1 = shape f2 →
  record_bytes f1 ++ rest1 = record_bytes f2 ++ rest2 →
  f1 = f2.
Proof.
  intros Hr1 Hq1 Hr2 Hq2 Hshape Hrec.
  destruct (frame_record_parts f1 Hr1 Hq1)
    as (out1 & ranks1 & cnt1 & cds1 & t1 & chars1 & md1 & pad1 & E1 & Eh1 & Hc1
        & _ & Hd1 & Lm1 & _ & Er1 & Hs1 & Hro1 & Hoq1 & _ & _ & Hu1 & _).
  destruct (frame_record_parts f2 Hr2 Hq2)
    as (out2 & ranks2 & cnt2 & cds2 & t2 & chars2 & md2 & pad2 & E2 & Eh2 & Hc2
        & _ & Hd2 & Lm2 & _ & Er2 & Hs2 & Hro2 & Hoq2 & _ & _ & Hu2 & _).
  destruct (frame_record_bounds f1 Hr1 Hq1) as (? & ? & ? & Er1' & _ & Lt1 & _).
  rewrite Er1 in Er1'. injection Er1' as <- <- <-.
  destruct (frame_record_bounds f2 Hr2 Hq2) as (? & ? & ? & Er2' & _ & Lt2 & _).
  rewrite Er2 in Er2'. injection Er2' as <- <- <-.
  unfold record_bytes in Hrec. rewrite Er1, Er2 in Hrec.
  rewrite <- !app_assoc in Hrec.
  apply app_inj_1 in Hrec as [Hmd Hrec]; [|lia].
  apply app_inj_1 in Hrec as [Htd Hrec]; [|lia].
  subst md2.
  assert (Hranks : ranks1 = ranks2) by congruence. subst ranks2.
  destruct (same_bytes_same_tree cnt1 cnt2 cds1 cds2 t1 t2 Hc1 Hc2 Eh1 Eh2 Htd)
    as [-> ->].
  apply (f_equal (fun l => mjoin (byte_bits <$> l))) in Hrec.
  rewrite !byte_bits_join_app, Hu1, Hu2, <- !app_assoc in Hrec.
  destruct (compute_huffman_final cnt1 ltac:(lia))
    as (cds' & t' & Eh' & Lc & _ & [_ Hpf] & _).
  rewrite Eh1 in Eh'. injection Eh' as <- <-. rewrite Hc1 in Lc, Hpf.
  assert (Hsyms : Z.to_nat <$> mjoin out1 = Z.to_nat <$> mjoin out2).
  { eapply (prefix_code_unique cds2 (seq 0 7) Hpf); [| | |exact Hrec].
    - apply Forall_fmap. eapply Forall_impl; [exact (quantized_join out1 Hoq1)|].
      intros v Hv. cbv beta in Hv. change (Z.to_nat v ∈ seq 0 7).
      apply elem_of_seq. lia.
    - apply Forall_fmap. eapply Forall_impl; [exact (quantized_join out2 Hoq2)|].
      intros v Hv. cbv beta in Hv. change (Z.to_nat v ∈ seq 0 7).
      apply elem_of_seq. lia.
    - rewrite !length_fmap, (mjoin_rect_length out1 Hro1),
        (mjoin_rect_length out2 Hro2), Hs1, Hs2, Hshape. reflexivity. }
  assert (Hcells : mjoin out1 = mjoin out2).
  { apply (fmap_inj_on Z.to_nat (fun v => 0 <= v < 7));
      [|apply quantized_join; assumption|apply quantized_join; assumption
       |assumption].
    intros a b Ha Hb Hab. lia. }
  assert (Hout : out1 = out2).
  { apply (grid_eq_of_join (shape f1).1 (shape f1).2); [| |assumption].
    - rewrite <- Hs1. apply rect_has_shape. assumption.
    - rewrite Hshape, <- Hs2. apply rect_has_shape. assumption. }
  subst out2. rewrite <- Hd1 in E1.
  exact (frames_of_same_ranks f1 f2 out1 _ cnt1 cnt2 Hr1 Hq1 Hr2 Hq2 E1 E2).
Qed.

Lemma stream_injective (fs1 : list (grid Z)) : ∀ fs2,
  Forall (fun f => has_shape HEIGHT WIDTH f ∧ quantized f) fs1 →
  Forall (fun f => has_shape HEIGHT WIDTH f ∧ quantized f) fs2 →
  stream fs1 = stream fs2 → fs1 = fs2.
Proof.
  destruct HEIGHT_WIDTH_cells as (Hpos & _).
  induction fs1 as [|f1 fs1 IH]; intros fs2 H1 H2 E.
  - destruct fs2 as [|f2 fs2]; [reflexivity|].
    pose proof (stream_bounds _ H2) as [_ Hl]. rewrite <- E in Hl.
    simpl in Hl. lia.
  - destruct fs2 as [|f2 fs2].
    { pose proof (stream_bounds _ H1) as [_ Hl]. rewrite E in Hl.
      simpl in Hl. lia. }
    apply Forall_cons in H1 as [[Hs1 Hq1] H1].
    apply Forall_cons in H2 as [[Hs2 Hq2] H2].
    destruct (has_shape_rect _ _ f1 Hs1 Hpos) as [Hr1 Hsh1].
    destruct (has_shape_rect _ _ f2 Hs2 Hpos) as [Hr2 Hsh2].
    rewrite !stream_cons in E.
    assert (f1 = f2) as <-.
    { apply (record_head_injective f1 f2 (stream fs1) (stream fs2)
               Hr1 Hq1 Hr2 Hq2); [congruence|exact E]. }
    apply app_inv_head in E. f_equal. apply IH; assumption.
Qed.

(** X27: the file determines the video: two lists of frames of [HEIGHT]
    rows of [WIDTH] levels for which the loop writes the same bytes are
    the same list, frame by frame. *)
Theorem main_loop_lossless (fs1 fs2 : list (grid Z)) (data : list Z)
    (size1 size2 : Z) :
  Forall (fun f => has_shape HEIGHT WIDTH f ∧ quantized f) fs1 →
  Forall (fun f => has_shape HEIGHT WIDTH f ∧ quantized f) fs2 →
  main_loop fs1 = Some (data, size1) →
  main_loop fs2 = Some (data, size2) →
  fs1 = fs2.
Proof.
  assert (Hrect : ∀ fs,
            Forall (fun f => has_shape HEIGHT WIDTH f ∧ quantized f) fs →
            Forall (fun f : grid Z => rect f ∧ quantized f) fs).
  { intros fs H. eapply Forall_impl; [exact H|]. intros f [Hs Hq]. simpl.
    split; [|assumption].
    apply (has_shape_rect _ _ f Hs). apply HEIGHT_WIDTH_cells. }
  intros H1 H2 E1 E2. unfold main_loop in E1, E2.
  rewrite (main_loop_from fs1 (Hrect _ H1)) in E1.
  rewrite (main_loop_from fs2 (Hrect _ H2)) in E2.
  simpl in E1, E2. injection E1 as E1 _. injection E2 as E2 _.
  apply stream_injective; [assumption..|congruence].
Qed.

Lemma two_uniform_frames_written :
  main_loop [replicate HEIGHT (replicate WIDTH 3);
             replicate HEIGHT (replicate WIDTH 0)]
    = Some (stream [replicate HEIGHT (replicate WIDTH 3);
                    replicate HEIGHT (replicate WIDTH 0)],
            0 + Z.of_nat (length (stream [replicate HEIGHT (replicate WIDTH 3);
                                          replicate HEIGHT
                                            (replicate WIDTH 0)]))).
Proof.
  unfold main_loop. rewrite main_loop_from; [reflexivity|].
  eapply Forall_impl; [exact two_uniform_frames|]. intros f [Hs Hq]. simpl.
  split; [|assumption].
  apply (has_shape_rect _ _ f Hs). apply HEIGHT_WIDTH_cells.
Qed.

Lemma main_loop_lossless_witness :
  Forall (fun f => has_shape HEIGHT WIDTH f ∧ quantized f)
    [replicate HEIGHT (replicate WIDTH 3);
     replicate HEIGHT (replicate WIDTH 0)] ∧
  [replicate HEIGHT (replicate WIDTH 3); replicate HEIGHT (replicate WIDTH 0)]
    = [replicate HEIGHT (replicate WIDTH 3);
       replicate HEIGHT (replicate WIDTH 0)].
Proof.
  split; [exact two_uniform_frames|].
  exact (main_loop_lossless _ _ _ _ _ two_uniform_frames two_uniform_frames
           two_uniform_frames_written two_uniform_frames_written).
Defined.

(** ** From a scaled frame to its record *)

Section DisperserPipeline.
Context {F : Type}.
Variable flit : Q → F.
Variable f_of_int : Z → F.
Variables fadd fsub fmul fdiv : F → F → F.
Variable f_int : F → Z.

(** X28: the dithering and the encoder fit together: the frame that
    [process_frame] returns for a scaled frame of at least [HEIGHT] rows
    and [WIDTH] columns is one that the body of the main loop accepts,
    whatever the floating-point operations compute; the loop body appends
    between 240 and 1340 bytes to the file and adds their number to
    [size]. *)
Theorem dithered_frame_is_written h w (scaled : grid Z) (data : list Z)
    (size : Z) :
  has_shape h w scaled → (HEIGHT <= h)%nat → (WIDTH <= w)%nat →
  ∃ frame bytes,
    process_frame flit f_of_int fadd fsub fmul fdiv f_int scaled
      = Some frame ∧
    write_frame (data, size) frame
      = Some (data ++ bytes, size + Z.of_nat (length bytes)) ∧
    Forall (fun b => 0 <= b < 256) bytes ∧
    (240 <= length bytes <= 1340)%nat.
Proof.
  intros Hs Hh Hw.
  destruct (process_frame_in flit f_of_int fadd fsub fmul fdiv f_int
              h w scaled Hs Hh Hw) as (frame & E & Hf & Hq).
  destruct HEIGHT_WIDTH_cells as (Hpos & Hlo & Hhi).
  destruct (has_shape_rect _ _ frame Hf Hpos) as [Hr Hsh].
  destruct (write_frame_in frame data size Hr Hq) as (Ew & Hb & Hl).
  rewrite Hsh in Hl. cbn [fst snd] in Hl. rewrite Hlo, Hhi in Hl.
  exists frame, (record_bytes frame).
  split; [assumption|]. split; [assumption|]. split; [assumption|]. lia.
Qed.
End DisperserPipeline.

Lemma dithered_frame_is_written_witness :
  has_shape HEIGHT WIDTH (replicate HEIGHT (replicate WIDTH 128)) ∧
  (HEIGHT <= HEIGHT)%nat ∧ (WIDTH <= WIDTH)%nat ∧
  ∃ frame bytes,
    process_frame (fun q => q) inject_Z Qplus Qminus Qmult Qdiv Qfloor
      (replicate HEIGHT (replicate WIDTH 128)) = Some frame ∧
    write_frame ([], 0) frame
      = Some ([] ++ bytes, 0 + Z.of_nat (length bytes)) ∧
    Forall (fun b => 0 <= b < 256) bytes ∧
    (240 <= length bytes <= 1340)%nat.
Proof.
  split; [apply replicate_shape|]. split; [lia|]. split; [lia|].
  exact (dithered_frame_is_written (fun q => q) inject_Z Qplus Qminus Qmult
           Qdiv Qfloor HEIGHT WIDTH _ [] 0 (replicate_shape _ _ _)
           (Nat.le_refl _) (Nat.le_refl _)).
Defined.
